(** * Reliz: a shallow embedding of the release orchestration engine

    The development follows the JavaScript sources of the repository, one
    module per source file:
    - [Version], [Manifest] : version.js ([increaseVersion],
      [suggestBumpFromCommits], [getCurrentVersion], [setPackageVersion])
    - [Config]    : config.js ([deepMerge], [parseArgv], [loadFromFile],
      [loadConfig])
    - [Hooks], [Git], [Changelog], [Plugins], [Npm], [Providers], [Prompts] :
      hooks.js, git.js, changelog.js, plugins.js, npm.js, github.js and
      gitlab.js, prompts.js
    - [GitFlow], [Linear] : gitFlow.js ([syncBranches],
      [performGitFlowRelease]) and linearRelease.js
    - [Cli]       : cli.js ([run])

    Strings are Rocq strings whose characters stand for UTF-16 code units
    below 256.  Numbers are the integers of the safe range of an IEEE double
    plus [NaN]; literal forms that a version component never takes (exponent,
    radix prefix, [Infinity]) and magnitudes beyond 2^53 are outside the
    fragment.

    Effects are explicit: a computation reads a [world] (the shell, the
    files, the environment, the prompts, the plugins, the network) and
    extends a history of events; it ends with a value, a thrown error or a
    process exit. *)

From Stdlib Require Import ZArith List String Ascii Bool Lia DecimalString DecimalPos.
Import ListNotations.
Open Scope string_scope.
Set Warnings "-register-all".

(* ===================================================================== *)
(** ** The fragment of the JavaScript runtime the sources rely on *)
(* ===================================================================== *)

Module JS.

(** *** Characters *)

Definition cu (c : ascii) : nat := nat_of_ascii c.

Definition inRange (lo hi : nat) (c : ascii) : bool :=
  (lo <=? cu c)%nat && (cu c <=? hi)%nat.

(** [WhiteSpace] and [LineTerminator] code units below 256:
    TAB, LF, VT, FF, CR, SP and NBSP. *)
Definition isWhite (c : ascii) : bool :=
  inRange 9 13 c || (cu c =? 32)%nat || (cu c =? 160)%nat.

(** [LineTerminator] below 256: LF and CR. *)
Definition isLineTerminator (c : ascii) : bool :=
  (cu c =? 10)%nat || (cu c =? 13)%nat.

Definition isDigit (c : ascii) : bool := inRange 48 57 c.

(** [\w] is [A-Za-z0-9_]. *)
Definition isWord (c : ascii) : bool :=
  inRange 65 90 c || inRange 97 122 c || isDigit c || (cu c =? 95)%nat.

(** Upper-case letters below 256: [A-Z], and [U+00C0..U+00DE] but the
    multiplication sign [U+00D7]. *)
Definition isUpper (c : ascii) : bool :=
  inRange 65 90 c || (inRange 192 222 c && negb (cu c =? 215)%nat).

Definition lowerChar (c : ascii) : ascii :=
  if isUpper c then ascii_of_nat (cu c + 32) else c.

(** *** Strings *)

Definition isEmpty (s : string) : bool :=
  match s with EmptyString => true | String _ _ => false end.

Fixpoint smap (f : ascii -> ascii) (s : string) : string :=
  match s with
  | EmptyString => EmptyString
  | String c r => String (f c) (smap f r)
  end.

Fixpoint sall (p : ascii -> bool) (s : string) : bool :=
  match s with
  | EmptyString => true
  | String c r => p c && sall p r
  end.

(** [String.prototype.toLowerCase] *)
Definition toLowerCase (s : string) : string := smap lowerChar s.

(** [String.prototype.trimStart] *)
Fixpoint trimStart (s : string) : string :=
  match s with
  | EmptyString => EmptyString
  | String c r => if isWhite c then trimStart r else s
  end.

(** [String.prototype.trimEnd] *)
Fixpoint trimEnd (s : string) : string :=
  match s with
  | EmptyString => EmptyString
  | String c r =>
      match trimEnd r with
      | EmptyString => if isWhite c then EmptyString else String c EmptyString
      | r' => String c r'
      end
  end.

(** [String.prototype.trim] *)
Definition trim (s : string) : string := trimEnd (trimStart s).

(** [String.prototype.startsWith] *)
Definition startsWith (p s : string) : bool := String.prefix p s.

(** [String.prototype.includes] *)
Fixpoint includes (sub s : string) : bool :=
  String.prefix sub s ||
  match s with
  | EmptyString => false
  | String _ r => includes sub r
  end.

(** [String.prototype.slice(n)] for [0 <= n] *)
Fixpoint slice (n : nat) (s : string) : string :=
  match n, s with
  | O, _ => s
  | S n', String _ r => slice n' r
  | S _, EmptyString => EmptyString
  end.

(** [s.substring(0, n)] *)
Fixpoint take (n : nat) (s : string) : string :=
  match n, s with
  | S n', String c r => String c (take n' r)
  | _, _ => EmptyString
  end.

(** [String.prototype.split] on a one-character separator *)
Fixpoint split (sep : ascii) (s : string) : list string :=
  match s with
  | EmptyString => [EmptyString]
  | String c r =>
      if Ascii.eqb c sep then EmptyString :: split sep r
      else match split sep r with
           | h :: t => String c h :: t
           | [] => [String c EmptyString]
           end
  end.

(** [Array.prototype.join] *)
Fixpoint join (sep : string) (l : list string) : string :=
  match l with
  | [] => EmptyString
  | [x] => x
  | x :: r => x ++ sep ++ join sep r
  end.

(** [s.replace(/c/g, by)] for a one-character pattern *)
Fixpoint replaceChar (c : ascii) (by_ : string) (s : string) : string :=
  match s with
  | EmptyString => EmptyString
  | String d r =>
      if Ascii.eqb d c then by_ ++ replaceChar c by_ r
      else String d (replaceChar c by_ r)
  end.

(** [s.replace(/pat/g, by)] for a literal, non-empty pattern; the scan
    resumes after each replaced occurrence. *)
Fixpoint replaceAllFuel (fuel : nat) (pat by_ s : string) : string :=
  match fuel with
  | O => s
  | S fuel' =>
      match s with
      | EmptyString => EmptyString
      | String c r =>
          if String.prefix pat s
          then by_ ++ replaceAllFuel fuel' pat by_ (slice (String.length pat) s)
          else String c (replaceAllFuel fuel' pat by_ r)
      end
  end.

Definition replaceAll (pat by_ s : string) : string :=
  if isEmpty pat then s else replaceAllFuel (S (String.length s)) pat by_ s.

(** *** Numbers *)

(** The numbers of the program are versions' components and counters:
    integers, and [NaN].  Integer arithmetic agrees with the doubles of
    the source on the safe integers, up to [Number.MAX_SAFE_INTEGER]. *)
Inductive jsnum : Type :=
| NaN
| Num (n : Z).

Definition MAX_SAFE_INTEGER : Z := 9007199254740991.

Definition digitVal (c : ascii) : Z := Z.of_nat (cu c - 48).

Fixpoint digitsAcc (acc : Z) (s : string) : Z :=
  match s with
  | EmptyString => acc
  | String c r => digitsAcc (10 * acc + digitVal c) r
  end.

Definition digitsValue (s : string) : Z := digitsAcc 0 s.

Definition isDigits (s : string) : bool := negb (isEmpty s) && sall isDigit s.

(** [Number(s)] on the integer fragment: surrounding white space is
    dropped, the empty string is [0], an optionally signed run of decimal
    digits is its value, anything else is [NaN]. *)
Definition Number (s : string) : jsnum :=
  match trim s with
  | EmptyString => Num 0
  | String c r as t =>
      if Ascii.eqb c "+" then (if isDigits r then Num (digitsValue r) else NaN)
      else if Ascii.eqb c "-" then (if isDigits r then Num (- digitsValue r) else NaN)
      else if isDigits t then Num (digitsValue t) else NaN
  end.

(** The maximal prefix of [s] made of characters satisfying [p]. *)
Fixpoint spanWhile (p : ascii -> bool) (s : string) : string :=
  match s with
  | EmptyString => EmptyString
  | String c r => if p c then String c (spanWhile p r) else EmptyString
  end.

(** [parseInt(s, 10)]: leading white space and a sign are accepted, then the
    longest run of digits is read; no digit gives [NaN]. *)
Definition parseInt (s : string) : jsnum :=
  let body (t : string) (sign : Z) :=
    let d := spanWhile isDigit t in
    if isEmpty d then NaN else Num (sign * digitsValue d) in
  match trimStart s with
  | EmptyString => NaN
  | String c r as t =>
      if Ascii.eqb c "+" then body r 1%Z
      else if Ascii.eqb c "-" then body r (-1)%Z
      else body t 1%Z
  end.

Definition add1 (x : jsnum) : jsnum :=
  match x with
  | NaN => NaN
  | Num n => Num (n + 1)
  end.

Definition showZ (n : Z) : string := NilZero.string_of_int (Z.to_int n).

(** Number to string, as in a template literal. *)
Definition show (x : jsnum) : string :=
  match x with
  | NaN => "NaN"
  | Num n => showZ n
  end.

(** *** Values *)

Inductive jsval : Type :=
| JUndef
| JNull
| JBool (b : bool)
| JNum (n : jsnum)
| JStr (s : string)
| JArr (l : list jsval)
| JObj (fields : list (string * jsval)).

(** [ToBoolean] *)
Definition truthy (v : jsval) : bool :=
  match v with
  | JUndef | JNull => false
  | JBool b => b
  | JNum NaN => false
  | JNum (Num n) => negb (n =? 0)%Z
  | JStr s => negb (isEmpty s)
  | JArr _ | JObj _ => true
  end.

(** [a || b] *)
Definition jor (a b : jsval) : jsval := if truthy a then a else b.

(** [a ?? b] *)
Definition nullish (a b : jsval) : jsval :=
  match a with
  | JUndef | JNull => b
  | _ => a
  end.

Definition isString (v : jsval) : bool :=
  match v with JStr _ => true | _ => false end.

(** *** Regular expressions

    A pattern is a regular expression over character classes; matching is
    by derivatives.  [test] only asks whether some match exists, so greedy
    choice and captures play no role there. *)

Inductive re : Type :=
| Void
| Eps
| Cls (p : ascii -> bool)
| Cat (a b : re)
| Alt (a b : re)
| Star (a : re).

Fixpoint nullable (r : re) : bool :=
  match r with
  | Void => false
  | Eps => true
  | Cls _ => false
  | Cat a b => nullable a && nullable b
  | Alt a b => nullable a || nullable b
  | Star _ => true
  end.

Fixpoint deriv (c : ascii) (r : re) : re :=
  match r with
  | Void => Void
  | Eps => Void
  | Cls p => if p c then Eps else Void
  | Cat a b =>
      if nullable a then Alt (Cat (deriv c a) b) (deriv c b)
      else Cat (deriv c a) b
  | Alt a b => Alt (deriv c a) (deriv c b)
  | Star a => Cat (deriv c a) (Star a)
  end.

(** The whole of [s] matches [r]. *)
Fixpoint matchAll (r : re) (s : string) : bool :=
  match s with
  | EmptyString => nullable r
  | String c t => matchAll (deriv c r) t
  end.

(** Some prefix of [s] matches [r]: a pattern anchored with [^]. *)
Fixpoint matchPrefix (r : re) (s : string) : bool :=
  nullable r ||
  match s with
  | EmptyString => false
  | String c t => matchPrefix (deriv c r) t
  end.

(** Some substring of [s] matches [r]: a pattern without anchor. *)
Fixpoint matchAnywhere (r : re) (s : string) : bool :=
  matchPrefix r s ||
  match s with
  | EmptyString => false
  | String _ t => matchAnywhere r t
  end.

Definition chr (c : ascii) : re := Cls (Ascii.eqb c).

(** A character under the [i] flag. *)
Definition chrI (c : ascii) : re :=
  Cls (fun d => Ascii.eqb (lowerChar d) (lowerChar c)).

Definition opt (r : re) : re := Alt r Eps.
Definition plus (r : re) : re := Cat r (Star r).

(** A literal string, and the same under the [i] flag. *)
Fixpoint lit (s : string) : re :=
  match s with
  | EmptyString => Eps
  | String c r => Cat (chr c) (lit r)
  end.

Fixpoint litI (s : string) : re :=
  match s with
  | EmptyString => Eps
  | String c r => Cat (chrI c) (litI r)
  end.

End JS.

(* ===================================================================== *)
(** ** version.js *)
(* ===================================================================== *)

Module Version.
Import JS.

(** [parts[i]] with the default [0] of the destructuring pattern: the
    default applies to a missing element, not to [NaN]. *)
Definition part (parts : list jsnum) (i : nat) : jsnum :=
  nth i parts (Num 0).

(** The [switch] of [increaseVersion]: the bumped base version. *)
Definition bumpBase (currentVersion type : string) : string :=
  let parts := map Number (split "." currentVersion) in
  let major := part parts 0 in
  let minor := part parts 1 in
  let patch := part parts 2 in
  let build := part parts 3 in
  if String.eqb type "major" then
    show (add1 major) ++ ".0.0"
  else if String.eqb type "minor" then
    show major ++ "." ++ show (add1 minor) ++ ".0"
  else if String.eqb type "patch" then
    show major ++ "." ++ show minor ++ "." ++ show (add1 patch)
  else if String.eqb type "hotfix" || String.eqb type "build" then
    if (List.length parts =? 3)%nat
    then show major ++ "." ++ show minor ++ "." ++ show patch ++ ".1"
    else show major ++ "." ++ show minor ++ "." ++ show patch ++ "." ++ show (add1 build)
  else
    show major ++ "." ++ show minor ++ "." ++ show (add1 patch).

(** [-<preIdNorm>\.(\d+)$], the part of the pattern after the group
    [(.+)]; the identifier is escaped in the source, so it is a literal,
    compared under the [i] flag. *)
Definition preTail (preIdNorm : string) : re :=
  Cat (chr "-") (Cat (litI preIdNorm) (Cat (chr ".") (plus (Cls isDigit)))).

(** [currentVersion.match(/^(.+)-<preIdNorm>\.(\d+)$/i)]: the group [(.+)]
    is greedy, so its longest candidate is tried first; [.] excludes line
    terminators.  The result is the pair of the two captured groups. *)
Fixpoint preMatchFrom (n : nat) (preIdNorm currentVersion : string)
  : option (string * string) :=
  match n with
  | O => None
  | S n' =>
      let g1 := take n currentVersion in
      let rest := slice n currentVersion in
      if sall (fun c => negb (isLineTerminator c)) g1
         && matchAll (preTail preIdNorm) rest
      then Some (g1, slice (2 + String.length preIdNorm) rest)
      else preMatchFrom n' preIdNorm currentVersion
  end.

Definition preMatch (preIdNorm currentVersion : string) : option (string * string) :=
  preMatchFrom (String.length currentVersion) preIdNorm currentVersion.

Definition increaseVersion (currentVersion type : string) (preId : jsval) : string :=
  let base := bumpBase currentVersion type in
  match preId with
  | JStr p =>
      if negb (truthy preId) || negb (truthy (JStr (trim p))) then base
      else
        let preIdNorm := toLowerCase (trim p) in
        match preMatch preIdNorm currentVersion with
        | Some (g1, g2) =>
            g1 ++ "-" ++ preIdNorm ++ "." ++ show (add1 (parseInt g2))
        | None => base ++ "-" ++ preIdNorm ++ ".0"
        end
  | _ => base
  end.

(** [\([^)]*\)] *)
Definition reScope : re :=
  Cat (chr "(") (Cat (Star (Cls (fun c => negb (Ascii.eqb c ")")))) (chr ")")).

(** [/^(\w+)(\([^)]*\))?!:?\s|BREAKING CHANGE:/i] *)
Definition reBreaking (s : string) : bool :=
  matchPrefix
    (Cat (plus (Cls isWord))
       (Cat (opt reScope) (Cat (chr "!") (Cat (opt (chr ":")) (Cls isWhite))))) s
  || matchAnywhere (litI "BREAKING CHANGE:") s.

(** [/^feat(\([^)]*\))?!?:\s/i] and [/^fix(\([^)]*\))?!?:\s/i] *)
Definition reTyped (ty : string) (s : string) : bool :=
  matchPrefix
    (Cat (litI ty)
       (Cat (opt reScope) (Cat (opt (chr "!")) (Cat (chr ":") (Cls isWhite))))) s.

Definition reFeat : string -> bool := reTyped "feat".
Definition reFix : string -> bool := reTyped "fix".

(** [msg.split('\n')[0]] *)
Definition firstLine (msg : string) : string :=
  hd EmptyString (split "010" msg).

Record flags : Type := mkFlags
  { hasBreaking : bool; hasFeat : bool; hasFix : bool }.

(** One turn of the loop over the commit messages. *)
Definition scan (f : flags) (msg : string) : flags :=
  let l := firstLine msg in
  if reBreaking l then mkFlags true (hasFeat f) (hasFix f)
  else if reFeat l then mkFlags (hasBreaking f) true (hasFix f)
  else if reFix l then mkFlags (hasBreaking f) (hasFeat f) true
  else f.

Definition suggestBumpFromCommits (commitMessages : list string) : option string :=
  let f := fold_left scan commitMessages (mkFlags false false false) in
  if hasBreaking f then Some "major"
  else if hasFeat f then Some "minor"
  else if hasFix f then Some "patch"
  else None.

End Version.

(* ===================================================================== *)
(** ** config.js *)
(* ===================================================================== *)

Module Config.
Import JS.

Definition fields : Type := list (string * jsval).

(** [o[key]] on own properties of a plain object read from JSON; every other
    value has no such property. *)
Fixpoint lookup (key : string) (fs : fields) : jsval :=
  match fs with
  | [] => JUndef
  | (k, v) :: r => if String.eqb k key then v else lookup key r
  end.

Definition get (o : jsval) (key : string) : jsval :=
  match o with
  | JObj fs => lookup key fs
  | _ => JUndef
  end.

(** [o[key] = v]: an existing property keeps its place, a new one goes last. *)
Fixpoint assign (key : string) (v : jsval) (fs : fields) : fields :=
  match fs with
  | [] => [(key, v)]
  | (k, w) :: r =>
      if String.eqb k key then (k, v) :: r else (k, w) :: assign key v r
  end.

Definition showNat (n : nat) : string := showZ (Z.of_nat n).

Fixpoint indexed {A : Type} (i : nat) (l : list A) : list (string * A) :=
  match l with
  | [] => []
  | x :: r => (showNat i, x) :: indexed (S i) r
  end.

Fixpoint chars (s : string) : list jsval :=
  match s with
  | EmptyString => []
  | String c r => JStr (String c EmptyString) :: chars r
  end.

(** The own enumerable properties copied by [{ ...v }]. *)
Definition spread (v : jsval) : fields :=
  match v with
  | JObj fs => fs
  | JArr l => indexed 0 l
  | JStr s => indexed 0 (chars s)
  | _ => []
  end.

(** [{ ...o, key: v }] *)
Definition withField (o : jsval) (key : string) (v : jsval) : jsval :=
  JObj (assign key v (spread o)).

Definition BUMP_TYPES : list string := ["patch"; "minor"; "major"; "hotfix"].

Definition strIn (s : string) (l : list string) : bool :=
  existsb (String.eqb s) l.

Definition getDefaults : jsval :=
  JObj
    [ ("gitFlow", JBool true);
      ("git", JObj [ ("requireUpstream", JBool false);
                     ("pushArgs", JArr [JStr "--follow-tags"]) ]);
      ("branches", JObj [ ("main", JStr "main"); ("develop", JStr "develop") ]);
      ("releaseBranchPrefix", JStr "release/");
      ("changelog", JObj [ ("dateLocale", JStr "fa-IR");
                           ("path", JStr "CHANGELOG.md");
                           ("template", JNull);
                           ("command", JNull);
                           ("releaseNotesCommand", JNull);
                           ("includeTypes", JNull);
                           ("groupByType", JBool false) ]);
      ("tag", JObj [ ("prefix", JStr "v"); ("deleteIfExists", JBool true) ]);
      ("syncBranches", JBool true);
      ("requireCleanWorkingDir", JBool true);
      ("allowReleaseFrom", JArr [JStr "develop"]);
      ("hooks", JObj [ ("beforeInit", JArr []);
                       ("beforeRelease", JArr []);
                       ("afterBump", JArr []);
                       ("afterGitRelease", JArr []);
                       ("afterRelease", JArr []) ]);
      ("npm", JObj [ ("publish", JBool false);
                     ("publishPath", JStr ".");
                     ("tag", JStr "latest");
                     ("otp", JNull) ]);
      ("github", JObj [ ("release", JBool false);
                        ("tokenRef", JStr "GITHUB_TOKEN");
                        ("draft", JBool false);
                        ("preRelease", JBool false) ]);
      ("gitlab", JObj [ ("release", JBool false);
                        ("tokenRef", JStr "GITLAB_TOKEN") ]);
      ("conventionalCommits", JBool false);
      ("commitMessage", JStr "release: update version to ${version} and changelog");
      ("tagMessage", JStr "Release-${version}");
      ("preRelease", JObj [ ("id", JNull) ]);
      ("plugins", JArr []) ].

(** One turn of the loop of [deepMerge] over [Object.keys(source)]; [rec]
    is the recursive call on [source[key]]. *)
Definition mergeKey (rec : jsval -> jsval) (key : string) (v : jsval)
  (out : fields) : fields :=
  match v with
  | JObj _ => assign key (rec (jor (lookup key out) (JObj []))) out
  | JUndef => out
  | _ => assign key v out
  end.

(** [deepMerge(target, source)] for a [source] that [Object.keys] accepts
    (anything but [null] and [undefined], which [loadConfig] meets first). *)
Fixpoint deepMerge (target source : jsval) : jsval :=
  match source with
  | JObj sf =>
      JObj ((fix loop (sf : fields) (out : fields) : fields :=
               match sf with
               | [] => out
               | (k, v) :: r =>
                   loop r (mergeKey (fun t => deepMerge t v) k v out)
               end) sf (spread target))
  | JArr l =>
      JObj ((fix loop (i : nat) (l : list jsval) (out : fields) : fields :=
               match l with
               | [] => out
               | v :: r =>
                   loop (S i) r
                     (mergeKey (fun t => deepMerge t v) (showNat i) v out)
               end) 0 l (spread target))
  | JStr s =>
      JObj (fold_left (fun out kv => assign (fst kv) (snd kv) out)
              (indexed 0 (chars s)) (spread target))
  | _ => JObj (spread target)
  end.

(** What a call can end in: a value, a thrown error, or [process.exit]. *)
Inductive outcome (A : Type) : Type :=
| Ok (a : A)
| Throw (msg : string)
| Exit (code : nat).
Arguments Ok {A} a.
Arguments Throw {A} msg.
Arguments Exit {A} code.

(** The files and the environment [loadConfig] reads.  [JSON.parse] is the
    parser of the host; [None] is its [SyntaxError]. *)
Record host : Type := mkHost
  { env : string -> option string;
    file : string -> option string;
    parseJSON : string -> option jsval }.

(** [path.isAbsolute] and [path.join] on POSIX paths already in normal form. *)
Definition isAbsolute (p : string) : bool := String.prefix "/" p.
Definition pathJoin (dir p : string) : string := dir ++ "/" ++ p.

Inductive found : Type :=
| NotFound
| FoundPath (p : string)
| FromPackage (pkg : jsval) (pkgPath : string).

Definition existsSync (h : host) (p : string) : bool :=
  match file h p with Some _ => true | None => false end.

Fixpoint firstExisting (h : host) (cwd : string) (names : list string)
  : option string :=
  match names with
  | [] => None
  | name :: r =>
      let p := pathJoin cwd name in
      if existsSync h p then Some p else firstExisting h cwd r
  end.

(** [x != null] *)
Definition notNullish (v : jsval) : bool :=
  match v with JUndef | JNull => false | _ => true end.

(** The search without [--config]: the conventional names, then the
    [reliz] field of [package.json]. *)
Definition discover (h : host) (cwd : string) : found :=
  match firstExisting h cwd [".reliz.json"; ".relizrc.json"] with
  | Some p => FoundPath p
  | None =>
      let pkgPath := pathJoin cwd "package.json" in
      match file h pkgPath with
      | Some text =>
          match parseJSON h text with
          | Some pkg =>
              if notNullish (get pkg "reliz")
              then FromPackage pkg pkgPath else NotFound
          | None => NotFound
          end
      | None => NotFound
      end
  end.

Definition findConfigFile (h : host) (cwd : string) (explicitPath : jsval) : found :=
  match explicitPath with
  | JStr e =>
      if truthy explicitPath then
        let p := if isAbsolute e then e else pathJoin cwd e in
        if existsSync h p then FoundPath p else NotFound
      else discover h cwd
  | _ => discover h cwd
  end.

Definition loadFromFile (h : host) (cwd : string) (explicitPath : jsval) : jsval :=
  match findConfigFile h cwd explicitPath with
  | NotFound => JObj []
  | FromPackage pkg _ => jor (get pkg "reliz") (JObj [])
  | FoundPath p =>
      match file h p with
      | Some text =>
          match parseJSON h text with
          | Some v => v
          | None => JObj []
          end
      | None => JObj []
      end
  end.

Record envOverrides : Type := mkEnv
  { e_ci : bool; e_bump : jsval; e_dryRun : bool;
    e_noGitFlow : bool; e_yes : bool; e_preid : jsval }.

Definition envIs (h : host) (name value : string) : bool :=
  match env h name with
  | Some v => String.eqb v value
  | None => false
  end.

Definition envSet (h : host) (name : string) : bool :=
  match env h name with
  | Some v => negb (isEmpty v)
  | None => false
  end.

Definition envVal (h : host) (name : string) : jsval :=
  match env h name with
  | Some v => JStr v
  | None => JUndef
  end.

Definition loadFromEnv (h : host) : envOverrides :=
  {| e_ci := envIs h "RELIZ_CI" "1" || envIs h "RELIZ_CI" "true";
     e_bump :=
       match env h "RELIZ_BUMP" with
       | Some b => if negb (isEmpty b) && strIn b BUMP_TYPES then JStr b else JUndef
       | None => JUndef
       end;
     e_dryRun := envIs h "RELIZ_DRY_RUN" "1" || envIs h "RELIZ_DRY_RUN" "true";
     e_noGitFlow := envIs h "RELIZ_NO_GIT_FLOW" "1" || envIs h "RELIZ_NO_GIT_FLOW" "true";
     e_yes := envIs h "RELIZ_YES" "1" || envIs h "RELIZ_YES" "true";
     e_preid := if envSet h "RELIZ_PREID" then envVal h "RELIZ_PREID" else JUndef |}.

(** The options record built by [parseArgv], and returned (recomputed) by
    [loadConfig] as [argv]. *)
Record options : Type := mkOptions
  { bump : jsval;
    ci : bool;
    dryRun : bool;
    noGitFlow : bool;
    yes : bool;
    config : jsval;
    preid : jsval;
    noIncrement : bool;
    releaseVersion : bool;
    onlyVersion : bool;
    changelog : bool;
    verbose : bool }.

Definition noOptions : options :=
  {| bump := JNull; ci := false; dryRun := false; noGitFlow := false;
     yes := false; config := JNull; preid := JNull; noIncrement := false;
     releaseVersion := false; onlyVersion := false; changelog := false;
     verbose := false |}.

Definition setBump (o : options) (v : jsval) : options :=
  mkOptions v (ci o) (dryRun o) (noGitFlow o) (yes o) (config o) (preid o)
    (noIncrement o) (releaseVersion o) (onlyVersion o) (changelog o) (verbose o).
Definition setCi (o : options) : options :=
  mkOptions (bump o) true (dryRun o) (noGitFlow o) (yes o) (config o) (preid o)
    (noIncrement o) (releaseVersion o) (onlyVersion o) (changelog o) (verbose o).
Definition setDryRun (o : options) : options :=
  mkOptions (bump o) (ci o) true (noGitFlow o) (yes o) (config o) (preid o)
    (noIncrement o) (releaseVersion o) (onlyVersion o) (changelog o) (verbose o).
Definition setNoGitFlow (o : options) : options :=
  mkOptions (bump o) (ci o) (dryRun o) true (yes o) (config o) (preid o)
    (noIncrement o) (releaseVersion o) (onlyVersion o) (changelog o) (verbose o).
Definition setYes (o : options) : options :=
  mkOptions (bump o) (ci o) (dryRun o) (noGitFlow o) true (config o) (preid o)
    (noIncrement o) (releaseVersion o) (onlyVersion o) (changelog o) (verbose o).
Definition setConfig (o : options) (v : jsval) : options :=
  mkOptions (bump o) (ci o) (dryRun o) (noGitFlow o) (yes o) v (preid o)
    (noIncrement o) (releaseVersion o) (onlyVersion o) (changelog o) (verbose o).
Definition setPreid (o : options) (v : jsval) : options :=
  mkOptions (bump o) (ci o) (dryRun o) (noGitFlow o) (yes o) (config o) v
    (noIncrement o) (releaseVersion o) (onlyVersion o) (changelog o) (verbose o).
Definition setNoIncrement (o : options) : options :=
  mkOptions (bump o) (ci o) (dryRun o) (noGitFlow o) (yes o) (config o) (preid o)
    true (releaseVersion o) (onlyVersion o) (changelog o) (verbose o).
Definition setReleaseVersion (o : options) : options :=
  mkOptions (bump o) (ci o) (dryRun o) (noGitFlow o) (yes o) (config o) (preid o)
    (noIncrement o) true (onlyVersion o) (changelog o) (verbose o).
Definition setOnlyVersion (o : options) : options :=
  mkOptions (bump o) (ci o) (dryRun o) (noGitFlow o) (yes o) (config o) (preid o)
    (noIncrement o) (releaseVersion o) true (changelog o) (verbose o).
Definition setChangelog (o : options) : options :=
  mkOptions (bump o) (ci o) (dryRun o) (noGitFlow o) (yes o) (config o) (preid o)
    (noIncrement o) (releaseVersion o) (onlyVersion o) true (verbose o).
Definition setVerbose (o : options) : options :=
  mkOptions (bump o) (ci o) (dryRun o) (noGitFlow o) (yes o) (config o) (preid o)
    (noIncrement o) (releaseVersion o) (onlyVersion o) (changelog o) true.

(** The loop of [parseArgv]; [--config] consumes the next argument when it
    is a non-empty string. *)
Fixpoint parseArgs (args : list string) (out : options) : options :=
  match args with
  | [] => out
  | a :: rest =>
      if String.eqb a "--ci" then parseArgs rest (setCi out)
      else if String.eqb a "--dry-run" then parseArgs rest (setDryRun out)
      else if String.eqb a "--no-git-flow" then parseArgs rest (setNoGitFlow out)
      else if String.eqb a "--yes" || String.eqb a "-y" then parseArgs rest (setYes out)
      else if String.eqb a "--no-increment" then parseArgs rest (setNoIncrement out)
      else if String.eqb a "--release-version" then parseArgs rest (setReleaseVersion out)
      else if String.eqb a "--only-version" then parseArgs rest (setOnlyVersion out)
      else if String.eqb a "--changelog" then parseArgs rest (setChangelog out)
      else if String.eqb a "--verbose" || String.eqb a "-V" then parseArgs rest (setVerbose out)
      else
        match rest with
        | next :: rest' =>
            if String.eqb a "--config" && negb (isEmpty next)
            then parseArgs rest' (setConfig out (JStr next))
            else if startsWith "--bump=" a then parseArgs rest (setBump out (JStr (slice 7 a)))
            else if startsWith "--preid=" a then parseArgs rest (setPreid out (JStr (slice 8 a)))
            else if negb (startsWith "--" a) && strIn a BUMP_TYPES
                 then parseArgs rest (setBump out (JStr a))
            else parseArgs rest out
        | [] =>
            if startsWith "--bump=" a then setBump out (JStr (slice 7 a))
            else if startsWith "--preid=" a then setPreid out (JStr (slice 8 a))
            else if negb (startsWith "--" a) && strIn a BUMP_TYPES
                 then setBump out (JStr a)
            else out
        end
  end.

Definition parseArgv (argv : list string) : options := parseArgs argv noOptions.

Definition isCiEnv (h : host) : bool :=
  envIs h "CI" "true" || envIs h "CI" "1" || envSet h "GITHUB_ACTIONS"
  || envSet h "GITLAB_CI" || envSet h "CIRCLECI" || envSet h "TRAVIS"
  || envSet h "JENKINS_URL".

(** [v === true] and [v !== false] *)
Definition isTrue (v : jsval) : bool :=
  match v with JBool true => true | _ => false end.
Definition notFalse (v : jsval) : bool :=
  match v with JBool false => false | _ => true end.

(** [Object.keys(source)] throws a [TypeError] on [null] and [undefined]. *)
Definition loadConfig (h : host) (cwd : string) (argv : list string)
  : outcome (jsval * options) :=
  let defaults := getDefaults in
  let parsed := parseArgv argv in
  let fileConfig :=
    if truthy (config parsed) then loadFromFile h cwd (config parsed)
    else loadFromFile h cwd JNull in
  let envO := loadFromEnv h in
  if negb (notNullish fileConfig)
  then Throw "Cannot convert undefined or null to object"
  else
    let c0 := deepMerge defaults fileConfig in
    let c1 := if e_ci envO then withField c0 "ci" (JBool true) else c0 in
    let c2 := if e_dryRun envO then withField c1 "dryRun" (JBool true) else c1 in
    let c3 := if truthy (e_bump envO) then withField c2 "bump" (e_bump envO) else c2 in
    let preid_ :=
      jor (jor (jor (preid parsed) (e_preid envO)) (get (get c3 "preRelease") "id")) JNull in
    let c4 :=
      if truthy preid_
      then withField c3 "preRelease"
             (JObj (assign "id" preid_ (spread (get c3 "preRelease"))))
      else c3 in
    let isCi :=
      ci parsed || isTrue (get c4 "ci") || (notFalse (get c4 "ci") && isCiEnv h) in
    let c5 := if isCi then withField c4 "ci" (JBool true) else c4 in
    Ok (c5,
        {| bump := jor (jor (bump parsed) (e_bump envO)) JNull;
           ci := isCi;
           dryRun := dryRun parsed || isTrue (get c5 "dryRun");
           noGitFlow := noGitFlow parsed || false;
           yes := yes parsed || false;
           config := config parsed;
           preid := jor preid_ JNull;
           noIncrement := noIncrement parsed || false;
           releaseVersion := releaseVersion parsed || false;
           onlyVersion := onlyVersion parsed || false;
           changelog := changelog parsed || false;
           verbose := verbose parsed || false |}).

End Config.

(* ===================================================================== *)
(** ** Effects: the console, the shell, the file system, the network *)
(* ===================================================================== *)

Module Effects.
Import JS Config.

Definition dq : string := String "034" EmptyString.
Definition nl : string := String "010" EmptyString.

Inductive question : Type := QBump | QPreId | QConfirm.

(** What a run does to the outside, in order. *)
Inductive event : Type :=
| Log (s : string)                      (* console.log *)
| Warn (s : string)                     (* console.warn *)
| Err (s : string)                      (* console.error *)
| Exec (cmd : string)                   (* execSync *)
| Write (path content : string)         (* fs.writeFileSync *)
| Ask (q : question)                    (* readline question *)
| Load (module : string)                (* require of a plugin module *)
| Call (plugin method : string)         (* a plugin callback *)
| Post (provider tagName : string).     (* the request creating a release *)

Definition history : Type := list event.

(** A command ends with status 0 and its standard output, or with another
    status and what it wrote to its standard error.  A shell that cannot
    be started at all is no answer of a command, and is left out. *)
Inductive result : Type :=
| Done (out : string)
| Failed (stderr : string).

Record plugin : Type := mkPlugin
  { p_name : string; p_methods : list string }.

(** The collaborators of the engine.  Every answer may depend on what the
    run has done so far. *)
Record world : Type := mkWorld
  { w_env : string -> option string;
    w_parseJSON : string -> option jsval;
    w_stringify : jsval -> string;
    w_file : history -> string -> option string;
    w_sh : history -> string -> result;
    w_formatDate : jsval -> string;
    w_answer : history -> question -> string;
    w_require : string -> plugin + string;
    w_call : history -> string -> string -> option string;
    w_http : history -> string -> string -> option string + string }.

Definition hostAt (w : world) (h : history) : host :=
  mkHost (w_env w) (w_file w h) (w_parseJSON w).

(** Computations: a reader of the world, a writer of the history, with
    exceptions and process exit. *)
Definition M (A : Type) : Type := world -> history -> outcome A * history.

Definition ret {A} (a : A) : M A := fun _ h => (Ok a, h).

Definition bind {A B} (m : M A) (k : A -> M B) : M B :=
  fun w h =>
    match m w h with
    | (Ok a, h') => k a w h'
    | (Throw msg, h') => (Throw msg, h')
    | (Exit c, h') => (Exit c, h')
    end.

Declare Scope eff_scope.
Delimit Scope eff_scope with eff.
Notation "x <- m ;; k" := (bind m (fun x => k))
  (at level 61, m at next level, right associativity) : eff_scope.
Notation "m ;; k" := (bind m (fun _ => k))
  (at level 61, right associativity) : eff_scope.
Open Scope eff_scope.

Definition throw {A} (msg : string) : M A := fun _ h => (Throw msg, h).
Definition exit {A} (code : nat) : M A := fun _ h => (Exit code, h).
Definition emit (e : event) : M unit := fun _ h => (Ok tt, (h ++ [e])%list).
Definition ask {A} (f : world -> history -> A) : M A := fun w h => (Ok (f w h), h).

(** [try { m } catch (e) { handler(e.message) }] *)
Definition try_ {A} (m : M A) (handler : string -> M A) : M A :=
  fun w h =>
    match m w h with
    | (Throw msg, h') => handler msg w h'
    | r => r
    end.

Definition when (b : bool) (m : M unit) : M unit := if b then m else ret tt.

Fixpoint forEach {A} (l : list A) (f : A -> M unit) : M unit :=
  match l with
  | [] => ret tt
  | x :: r => f x ;; forEach r f
  end.

(** The message of the error [execSync] throws for a command that ends
    with a status other than 0: [Command failed: <cmd>], followed on a new
    line by what the call captured of the standard error, if anything. *)
Definition commandFailed (cmd : string) : string := "Command failed: " ++ cmd.

Definition failure (cmd stderr : string) : string :=
  commandFailed cmd ++ (if isEmpty stderr then EmptyString else nl ++ stderr).

(** [execSync(cmd, { encoding: 'utf8' })], the call that captures the
    output.  Where the source has the standard error ignored as well
    ([stdio: ['ignore', 'pipe', 'ignore']] or [stdio: 'ignore']), the
    call sits in a [try] whose [catch] does not read the message. *)
Definition execSync (cmd : string) : M string :=
  fun w h =>
    match w_sh w h cmd with
    | Done out => (Ok out, (h ++ [Exec cmd])%list)
    | Failed stderr => (Throw (failure cmd stderr), (h ++ [Exec cmd])%list)
    end.

(** [execSync(cmd, { stdio: 'inherit' })]: the output of the command goes
    to the terminal and nothing of it is captured, so the call returns
    no text and the message of its error is [Command failed: <cmd>]
    alone, whatever the command wrote. *)
Definition execInherit (cmd : string) : M unit :=
  fun w h =>
    match w_sh w h cmd with
    | Done _ => (Ok tt, (h ++ [Exec cmd])%list)
    | Failed _ => (Throw (commandFailed cmd), (h ++ [Exec cmd])%list)
    end.

Definition log (s : string) : M unit := emit (Log s).
Definition warn (s : string) : M unit := emit (Warn s).
Definition error (s : string) : M unit := emit (Err s).

(** [String(v)]; an array is its elements joined by commas, [null] and
    [undefined] elements giving the empty string. *)
Fixpoint toString (v : jsval) : string :=
  match v with
  | JUndef => "undefined"
  | JNull => "null"
  | JBool true => "true"
  | JBool false => "false"
  | JNum n => show n
  | JStr s => s
  | JArr l =>
      join ","
        (map (fun x => match x with
                       | JUndef | JNull => EmptyString
                       | _ => toString x
                       end) l)
  | JObj _ => "[object Object]"
  end.

(** [l.join(sep)] *)
Definition joinArr (sep : string) (l : list jsval) : string :=
  join sep
    (map (fun x => match x with
                   | JUndef | JNull => EmptyString
                   | _ => toString x
                   end) l).

(** [a === b] on scalars; two objects met here are never the same one. *)
Definition strictEq (a b : jsval) : bool :=
  match a, b with
  | JUndef, JUndef | JNull, JNull => true
  | JBool x, JBool y => Bool.eqb x y
  | JNum (Num x), JNum (Num y) => (x =? y)%Z
  | JStr x, JStr y => String.eqb x y
  | _, _ => false
  end.

(** [typeof v !== 'object'] together with [v != null] *)
Definition isScalar (v : jsval) : bool :=
  match v with
  | JBool _ | JNum _ | JStr _ => true
  | _ => false
  end.

(** [s.split('\n').filter(Boolean)] *)
Definition lines (s : string) : list string :=
  filter (fun l => negb (isEmpty l)) (split "010" s).

(** A string-valued property with its fall-back: [v || d]. *)
Definition strOr (v : jsval) (d : string) : string := toString (jor v (JStr d)).

(** The strings of a JSON array; other elements by [String]. *)
Definition strings (v : jsval) : list string :=
  match v with
  | JArr l => map toString l
  | _ => []
  end.

End Effects.

(* ===================================================================== *)
(** ** hooks.js *)
(* ===================================================================== *)

Module Hooks.
Import JS Config Effects.

(** [interpolate(cmd, context)]: every scalar entry replaces its
    placeholder.  The source builds a pattern from the key and hands the
    value to [replace]: the pattern is the placeholder itself when the key
    is an identifier, and the value is inserted as it is printed when it
    holds no dollar sign.  This is the definition on such contexts, and
    the facts on the text it returns are stated for them. *)
Definition interpolate (cmd : string) (context : fields) : string :=
  fold_left
    (fun out kv =>
       if isScalar (snd kv)
       then replaceAll ("${" ++ fst kv ++ "}") (toString (snd kv)) out
       else out)
    context cmd.

(** [Array.isArray(commands) ? commands : (commands ? [commands] : [])] *)
Definition commandList (commands : jsval) : list jsval :=
  match commands with
  | JArr l => l
  | _ => if truthy commands then [commands] else []
  end.

Definition runHooks (commands : jsval) (context : fields) (dryRun : bool) : M unit :=
  forEach (commandList commands)
    (fun cmd =>
       match cmd with
       | JStr c =>
           let line := interpolate c context in
           if dryRun then log ("[dry-run] Would run: " ++ line)
           else
             try_ (execInherit line)
               (fun msg => throw ("Hook failed: " ++ line ++ ". " ++ msg))
       | _ => throw "out.replace is not a function"
       end).

End Hooks.

(* ===================================================================== *)
(** ** git.js *)
(* ===================================================================== *)

Module Git.
Import JS Config Effects.

Definition isHexLower (c : ascii) : bool := isDigit c || inRange 97 102 c.

Definition hexDigit (n : nat) : ascii :=
  ascii_of_nat (if (n <? 10)%nat then 48 + n else 87 + n).

(** [JSON.stringify(s)] for a string of code units below 256. *)
Fixpoint escapeJSON (s : string) : string :=
  match s with
  | EmptyString => EmptyString
  | String c r =>
      (if Ascii.eqb c "034" then String "\" dq
       else if Ascii.eqb c "\" then "\\"
       else if Ascii.eqb c "008" then "\b"
       else if Ascii.eqb c "009" then "\t"
       else if Ascii.eqb c "010" then "\n"
       else if Ascii.eqb c "012" then "\f"
       else if Ascii.eqb c "013" then "\r"
       else if (cu c <? 32)%nat
            then "\u00" ++ String (hexDigit (cu c / 16))
                             (String (hexDigit (cu c mod 16)) EmptyString)
       else String c EmptyString)
      ++ escapeJSON r
  end.

Definition stringify (s : string) : string := dq ++ escapeJSON s ++ dq.

(** [resolveToCommit(ref)]: the commit of a ref, or [null]. *)
Definition resolveToCommit (ref : string) : M jsval :=
  try_
    (out <- execSync ("git rev-parse --verify " ++ stringify (ref ++ "^{commit}")) ;;
     ret (JStr (trim out)))
    (fun _ => ret JNull).

(** [-\d+-g[a-f0-9]+$], what follows the lazy group of the pattern of
    [getLatestTag]. *)
Definition describeTail : re :=
  Cat (chr "-") (Cat (plus (Cls isDigit))
    (Cat (chr "-") (Cat (chr "g") (plus (Cls isHexLower))))).

(** [out.match(/^(.+?)-\d+-g[a-f0-9]+$/)]: the lazy group takes the
    shortest candidate first; the result is the group. *)
Fixpoint describeBaseFrom (fuel n : nat) (out : string) : option string :=
  match fuel with
  | O => None
  | S fuel' =>
      let g1 := take n out in
      if sall (fun c => negb (isLineTerminator c)) g1
         && matchAll describeTail (slice n out)
      then Some g1
      else describeBaseFrom fuel' (S n) out
  end.

Definition describeBase (out : string) : option string :=
  describeBaseFrom (String.length out) 1 out.

Definition getLatestTag : M jsval :=
  try_
    (raw <- execSync "git describe --tags --abbrev=0" ;;
     let out := trim raw in
     let baseRef := match describeBase out with Some b => b | None => out end in
     sha1 <- resolveToCommit baseRef ;;
     sha <- (if truthy sha1 then ret sha1 else resolveToCommit out) ;;
     tagsAt <-
       (if truthy sha then
          tags <- execSync ("git tag -l --points-at " ++ stringify (toString sha)) ;;
          ret (lines (trim tags))
        else ret []) ;;
     match tagsAt with
     | t :: _ => ret (JStr t)
     | [] => ret (JStr baseRef)
     end)
    (fun _ => ret JNull).

(** [line.replace(/^[a-f0-9]{7,}\s+/, '')] *)
Definition stripHash (line : string) : string :=
  let hex := spanWhile isHexLower line in
  let rest := slice (String.length hex) line in
  let ws := spanWhile isWhite rest in
  if (7 <=? String.length hex)%nat && negb (isEmpty ws)
  then slice (String.length ws) rest
  else line.

(** The subject lines of the output of [git log --oneline]. *)
Definition parseLog (out : string) : list string :=
  map stripHash
    (filter (fun line => negb (isEmpty (trim line))) (split "010" (trim out))).

Definition getNewCommits : M (list string) :=
  lastTag <- getLatestTag ;;
  try_
    (if negb (truthy lastTag) then throw "No tag"
     else
       sha <- resolveToCommit (toString lastTag) ;;
       let fromRev := jor sha lastTag in
       out <- execSync ("git log " ++ toString fromRev ++ "..HEAD --oneline --no-merges") ;;
       ret (parseLog out))
    (fun _ =>
       out <- execSync "git log --oneline --no-merges" ;;
       ret (parseLog out)).

Definition ensureCleanWorkingTree : M unit :=
  status <- execSync "git status --porcelain" ;;
  if negb (isEmpty (trim status))
  then throw "You have uncommitted changes. Please commit or stash them before running the release script."
  else ret tt.

Definition ensureOriginRemote : M unit :=
  try_ (execSync "git remote get-url origin" ;; ret tt)
    (fun _ => throw ("Remote " ++ dq ++ "origin" ++ dq ++ " does not exist.")).

Definition getCurrentBranch : M string :=
  out <- execSync "git branch --show-current" ;; ret (trim out).

Definition ensureUpstream (branch : string) (requireUpstream : bool) : M unit :=
  if negb requireUpstream then ret tt
  else
    try_ (execSync ("git rev-parse --abbrev-ref " ++ dq ++ branch ++ "@{upstream}" ++ dq) ;; ret tt)
      (fun _ => throw ("Branch " ++ dq ++ branch ++ dq
                       ++ " has no upstream. Push the branch first or set git.requireUpstream: false.")).

Definition ensureGitFlowInstalled : M unit :=
  try_ (execSync "git flow version" ;; ret tt)
    (fun _ => throw "git flow is not installed. Please install it before running the release script.").

(** [prefix ? `${prefix}${version}` : version] after [tagConfig.prefix || 'v'] *)
Definition tagNameOf (version : string) (tagConfig : jsval) : string :=
  let prefix := jor (get tagConfig "prefix") (JStr "v") in
  if truthy prefix then toString prefix ++ version else version.

Definition ensureTagNotExists (version : string) (tagConfig : jsval) (dryRun : bool)
  : M unit :=
  let tagName := tagNameOf version tagConfig in
  try_
    (out <- execSync "git tag" ;;
     when (strIn tagName (lines out))
       (if dryRun then log ("[dry-run] Would delete local tag " ++ tagName)
        else execSync ("git tag -d " ++ tagName) ;;
             log ("Deleted local tag " ++ tagName)) ;;
     remoteTags <- execSync "git ls-remote --tags origin" ;;
     when (includes ("refs/tags/" ++ tagName) remoteTags)
       (if dryRun then log ("[dry-run] Would delete remote tag " ++ tagName)
        else execSync ("git push origin :refs/tags/" ++ tagName) ;;
             log ("Deleted remote tag " ++ tagName)))
    (fun _ => ret tt).

(** [msg.replace(/"/g, '\\"')] *)
Definition escapeQuotes (s : string) : string :=
  replaceChar "034" (String "\" dq) s.

Definition createTag (version : string) (tagConfig tagMessage : jsval) (dryRun : bool)
  : M string :=
  let tagName := tagNameOf version tagConfig in
  let msg := replaceAll "${version}" version (strOr tagMessage ("Release " ++ version)) in
  if dryRun then log ("[dry-run] Would create tag " ++ tagName) ;; ret tagName
  else
    execInherit ("git tag -a " ++ tagName ++ " -m " ++ dq ++ escapeQuotes msg ++ dq) ;;
    ret tagName.

(** [[].concat(pushArgs || []).filter(Boolean)], then the suffix of the
    push command. *)
Definition pushExtra (pushArgs : jsval) : string :=
  let args := filter truthy
                match jor pushArgs (JArr []) with
                | JArr l => l
                | v => [v]
                end in
  match args with
  | [] => EmptyString
  | _ => " " ++ joinArr " " args
  end.

Definition pushTag (tagName : string) (dryRun : bool) (pushArgs : jsval) : M unit :=
  if dryRun then log ("[dry-run] Would push tag " ++ tagName)
  else execInherit ("git push origin " ++ tagName ++ pushExtra pushArgs).

Definition pushBranch (branch : string) (dryRun : bool) (pushArgs : jsval) : M unit :=
  if dryRun then log ("[dry-run] Would push branch " ++ branch)
  else execInherit ("git push origin " ++ branch ++ pushExtra pushArgs).

End Git.

(* ===================================================================== *)
(** ** changelog.js *)
(* ===================================================================== *)

Module Changelog.
Import JS Config Effects Hooks.

(** [formatDate(date, locale)]: the date of the day in one of two fixed
    locales; a locale that is no string has no [startsWith]. *)
Definition formatDate (locale : jsval) : M string :=
  match locale with
  | JStr _ => ask (fun w _ => w_formatDate w locale)
  | _ => throw "locale.startsWith is not a function"
  end.

Definition DEFAULT_ENTRY_TEMPLATE : string :=
  "## **[${version}] - ${date}**" ++ nl ++ "${commits}" ++ nl ++ nl.

(** The entry is put before what the file holds; the template is a string
    when there is one. *)
Definition appendChangelogEntry (changelogPath : string)
  (version dateStr changelogText template : jsval) : M unit :=
  let tpl := strOr template DEFAULT_ENTRY_TEMPLATE in
  let entry :=
    interpolate tpl
      [("version", version); ("date", dateStr); ("commits", changelogText)] in
  content <- ask (fun w h => match w_file w h changelogPath with
                             | Some c => c
                             | None => EmptyString
                             end) ;;
  emit (Write changelogPath (entry ++ content)).

Definition CONVENTIONAL_GROUP_HEADERS : list (string * string) :=
  [ ("feat", "Features"); ("fix", "Bug Fixes"); ("docs", "Documentation");
    ("style", "Styles"); ("refactor", "Code Refactoring");
    ("perf", "Performance"); ("test", "Tests"); ("chore", "Chores");
    ("ci", "CI") ].

(** [/^(\w+)(?:\(([^)]+)\))?:\s*(.+)$/] *)
Definition reConventional : re :=
  Cat (plus (Cls isWord))
    (Cat (opt (Cat (chr "(")
                 (Cat (plus (Cls (fun c => negb (Ascii.eqb c ")")))) (chr ")"))))
       (Cat (chr ":")
          (Cat (Star (Cls isWhite))
             (plus (Cls (fun c => negb (isLineTerminator c))))))).

(** The [type] of [parseConventional(line)]: the first group is the run of
    word characters the line starts with. *)
Definition parseConventional (line : string) : option string :=
  if matchAll reConventional line
  then Some (toLowerCase (spanWhile isWord line))
  else None.

Definition bullets (l : list string) : string :=
  join nl (map (fun c => "- " ++ c) l).

Fixpoint addToGroup (type line : string) (groups : list (string * list string))
  : list (string * list string) :=
  match groups with
  | [] => [(type, [line])]
  | (t, ls) :: r =>
      if String.eqb t type then (t, (ls ++ [line])%list) :: r
      else (t, ls) :: addToGroup type line r
  end.

Definition upperChar (c : ascii) : ascii :=
  if inRange 97 122 c then ascii_of_nat (cu c - 32) else c.

Definition capitalize (s : string) : string :=
  match s with
  | EmptyString => EmptyString
  | String c r => String (upperChar c) r
  end.

Fixpoint headerOf (type : string) (table : list (string * string)) : string :=
  match table with
  | [] => capitalize type
  | (t, h) :: r => if String.eqb t type then h else headerOf type r
  end.

Definition filterAndFormatCommits (commits : list string)
  (includeTypes : jsval) (groupByType : bool) : string :=
  let list :=
    match includeTypes with
    | JArr ((_ :: _) as tys) =>
        filter (fun line =>
                  match parseConventional line with
                  | None => true
                  | Some t => existsb (strictEq (JStr t)) tys
                  end) commits
    | _ => commits
    end in
  if negb groupByType then bullets list
  else
    let byType :=
      fold_left
        (fun groups line =>
           let type := match parseConventional line with
                       | Some t => t
                       | None => "other"
                       end in
           addToGroup type line groups)
        list [] in
    join (nl ++ nl)
      (map (fun g => "### " ++ headerOf (fst g) CONVENTIONAL_GROUP_HEADERS
                     ++ nl ++ nl ++ bullets (snd g)) byType).

Definition runChangelogCommand (command : string) (vars : fields) : M string :=
  let cmd := interpolate command vars in
  out <- execSync cmd ;;
  ret (trim out).

Definition commandVars (context : fields) : fields :=
  [ ("from", nullish (lookup "latestTag" context) (JStr EmptyString));
    ("to", JStr "HEAD");
    ("version", nullish (lookup "version" context) (JStr EmptyString));
    ("latestVersion", nullish (lookup "latestVersion" context) (JStr EmptyString)) ].

Definition getChangelogText (context : fields) : M string :=
  let config := lookup "config" context in
  let commits := strings (lookup "commits" context) in
  let ch := jor (get config "changelog") (JObj []) in
  match get ch "command" with
  | JStr c =>
      if truthy (JStr c) then runChangelogCommand c (commandVars context)
      else ret (filterAndFormatCommits commits
                  (nullish (get ch "includeTypes") JNull)
                  (isTrue (get ch "groupByType")))
  | _ =>
      ret (filterAndFormatCommits commits
             (nullish (get ch "includeTypes") JNull)
             (isTrue (get ch "groupByType")))
  end.

Definition getReleaseNotesBody (context : fields) : M string :=
  let config := lookup "config" context in
  let version := toString (lookup "version" context) in
  let dateStr := toString (lookup "dateStr" context) in
  let commits := strings (lookup "commits" context) in
  let ch := jor (get config "changelog") (JObj []) in
  let builtin :=
    "## " ++ version ++ " - " ++ dateStr ++ nl ++ nl
    ++ filterAndFormatCommits commits
         (nullish (get ch "includeTypes") JNull) (isTrue (get ch "groupByType")) in
  match get ch "releaseNotesCommand" with
  | JStr c =>
      if truthy (JStr c) then
        body <- runChangelogCommand c (commandVars context) ;;
        ret (if isEmpty body
             then "## " ++ version ++ " - " ++ dateStr ++ nl ++ nl ++ bullets commits
             else body)
      else ret builtin
  | _ => ret builtin
  end.

End Changelog.

(* ===================================================================== *)
(** ** plugins.js *)
(* ===================================================================== *)

Module Plugins.
Import JS Config Effects.

Definition pathResolve (cwd p : string) : string :=
  if isAbsolute p then p
  else if String.eqb p "." then cwd
  else pathJoin cwd p.

Definition loadPlugins (cwd : string) (pluginPaths : jsval) : M (list plugin) :=
  let list := match pluginPaths with JArr l => l | _ => [] end in
  fold_left
    (fun acc p =>
       plugins <- acc ;;
       match p with
       | JStr path =>
           if isEmpty path then ret plugins
           else
             let resolved := pathResolve cwd path in
             emit (Load resolved) ;;
             r <- ask (fun w _ => w_require w resolved) ;;
             match r with
             | inl loaded => ret (plugins ++ [loaded])%list
             | inr msg =>
                 warn ("Plugin " ++ dq ++ path ++ dq ++ " failed to load: " ++ msg) ;;
                 ret plugins
             end
       | _ => ret plugins
       end)
    list (ret []).

(** [runPluginLifecycle], and [runPluginLifecycleAsync], which waits for
    each callback in turn: the effects come in the same order. *)
Definition runPluginLifecycle (plugins : list plugin) (method : string) : M unit :=
  forEach plugins
    (fun pl =>
       when (strIn method (p_methods pl))
         (emit (Call (p_name pl) method) ;;
          r <- ask (fun w h => w_call w h (p_name pl) method) ;;
          match r with
          | None => ret tt
          | Some msg =>
              warn ("Plugin " ++ p_name pl ++ " " ++ method ++ " failed: " ++ msg)
          end)).

Definition runPluginLifecycleAsync : list plugin -> string -> M unit :=
  runPluginLifecycle.

End Plugins.

(* ===================================================================== *)
(** ** npm.js *)
(* ===================================================================== *)

Module Npm.
Import JS Config Effects Plugins.

Definition npmPublish (cwd : string) (npmConfig : jsval) (dryRun : bool) : M unit :=
  let publishPath := nullish (get npmConfig "publishPath") (JStr ".") in
  let dir := pathResolve cwd (toString publishPath) in
  let tag := nullish (get npmConfig "tag") (JStr "latest") in
  otp <- ask (fun w _ =>
                nullish (nullish (get npmConfig "otp") (envVal (hostAt w []) "NPM_OTP")) JNull) ;;
  if dryRun then
    log ("[dry-run] Would run: npm publish in " ++ dir
         ++ (if strictEq tag (JStr "latest") then EmptyString
             else " --tag " ++ toString tag))
  else
    lock <- ask (fun w h => existsSync (hostAt w h) (pathJoin dir "package-lock.json")) ;;
    when lock (log "Syncing package-lock.json..." ;; execInherit "npm install") ;;
    let args :=
      (["publish"]
       ++ (if truthy tag then ["--tag"; toString tag] else [])
       ++ (if truthy otp then ["--otp"; toString otp] else []))%list in
    execInherit ("npm " ++ join " " args).

End Npm.

(* ===================================================================== *)
(** ** github.js and gitlab.js *)
(* ===================================================================== *)

Module Providers.
Import JS Config Effects.

Definition notSlash (c : ascii) : bool := negb (Ascii.eqb c "/").
Definition notSlashDot (c : ascii) : bool :=
  negb (Ascii.eqb c "/") && negb (Ascii.eqb c ".").

(** [([^/]+)\/([^/.]+)(?:\.git)?], the owner and the repository. *)
Definition reCoordinates : re :=
  Cat (plus (Cls notSlash))
    (Cat (chr "/") (Cat (plus (Cls notSlashDot)) (opt (lit ".git")))).

(** [/(?:github\.com[:/]|git@github\.com:)([^/]+)\/([^/.]+)(?:\.git)?$/] *)
Definition reGitHub : re :=
  Cat (Alt (Cat (lit "github.com") (Alt (chr ":") (chr "/")))
           (lit "git@github.com:"))
      reCoordinates.

(** [/(?:gitlab\.com[:/]|git@gitlab\.com:)([^/]+)\/([^/.]+)(?:\.git)?$/i] *)
Definition reGitLab : re :=
  Cat (Alt (Cat (litI "gitlab.com") (Alt (chr ":") (chr "/")))
           (litI "git@gitlab.com:"))
      (Cat (plus (Cls notSlash))
         (Cat (chr "/") (Cat (plus (Cls notSlashDot)) (opt (litI ".git"))))).

(** [/^(https?):\/\/([^/]+)\/([^/]+)\/([^/.]+)(?:\.git)?\/?$/i] *)
Definition reSelfHosted : re :=
  Cat (litI "http") (Cat (opt (chrI "s")) (Cat (lit "://")
    (Cat (plus (Cls notSlash)) (Cat (chr "/")
      (Cat (plus (Cls notSlash)) (Cat (chr "/")
        (Cat (plus (Cls notSlashDot))
           (Cat (opt (litI ".git")) (opt (chr "/")))))))))).

(** A pattern that ends with [$] and has no [^]: some suffix of the string
    matches it as a whole. *)
Fixpoint matchSuffix (r : re) (s : string) : bool :=
  matchAll r s ||
  match s with
  | EmptyString => false
  | String _ t => matchSuffix r t
  end.

(** [getRepoFromOrigin] of github.js: whether the URL of [origin] names a
    repository; the coordinates only go into the request. *)
Definition getGitHubRepo : M bool :=
  try_
    (url <- execSync "git remote get-url origin" ;;
     ret (matchSuffix reGitHub (trim url)))
    (fun _ => ret false).

(** [getRepoFromOrigin] of gitlab.js *)
Definition getGitLabRepo : M bool :=
  try_
    (url <- execSync "git remote get-url origin" ;;
     ret (matchSuffix reGitLab (trim url) || matchAll reSelfHosted (trim url)))
    (fun _ => ret false).

(** [createGitHubRelease] and [createGitLabRelease] differ in the provider's
    name, the default token variable and the reading of the origin URL. *)
Definition createRelease (provider defaultTokenRef : string) (getRepo : M bool)
  (tagName releaseName : string) (providerConfig : jsval) (dryRun : bool)
  : M jsval :=
  let tokenRef := strOr (get providerConfig "tokenRef") defaultTokenRef in
  token <- ask (fun w _ => envSet (hostAt w []) tokenRef) ;;
  if negb token then
    warn (provider ++ " token not found (" ++ tokenRef ++ "). Skipping "
          ++ provider ++ " release.") ;;
    ret JNull
  else
    repo <- getRepo ;;
    if negb repo then
      warn ("Could not detect " ++ provider ++ " repo from origin. Skipping "
            ++ provider ++ " release.") ;;
      ret JNull
    else if dryRun then
      log ("[dry-run] Would create " ++ provider ++ " release "
           ++ releaseName ++ " for " ++ tagName) ;;
      ret JNull
    else
      emit (Post provider tagName) ;;
      r <- ask (fun w h => w_http w h provider tagName) ;;
      match r with
      | inl url =>
          log (provider ++ " release created.") ;;
          ret (match url with Some u => JStr u | None => JNull end)
      | inr msg => throw msg
      end.

Definition createGitHubRelease : string -> string -> jsval -> bool -> M jsval :=
  createRelease "GitHub" "GITHUB_TOKEN" getGitHubRepo.

Definition createGitLabRelease : string -> string -> jsval -> bool -> M jsval :=
  createRelease "GitLab" "GITLAB_TOKEN" getGitLabRepo.

End Providers.

(* ===================================================================== *)
(** ** version.js: the manifest *)
(* ===================================================================== *)

Module Manifest.
Import JS Config Effects.

(** [JSON.parse(fs.readFileSync(path, 'utf8'))] *)
Definition readJSON (path : string) : M jsval :=
  fun w h =>
    match w_file w h path with
    | None => (Throw ("ENOENT: no such file or directory, open '" ++ path ++ "'"), h)
    | Some text =>
        match w_parseJSON w text with
        | Some v => (Ok v, h)
        | None => (Throw "Unexpected token in JSON", h)
        end
    end.

Definition getCurrentVersion (cwd : string) : M (jsval * jsval) :=
  pkg <- readJSON (pathJoin cwd "package.json") ;;
  match pkg with
  | JUndef | JNull => throw "Cannot read properties of null (reading 'version')"
  | _ => ret (jor (get pkg "version") (JStr "0.0.0"),
              jor (get pkg "name") (JStr "project"))
  end.

Definition setPackageVersion (cwd : string) (newVersion : jsval) : M unit :=
  let pkgPath := pathJoin cwd "package.json" in
  pkg <- readJSON pkgPath ;;
  match pkg with
  | JObj fs =>
      text <- ask (fun w _ => w_stringify w (JObj (assign "version" newVersion fs))) ;;
      emit (Write pkgPath (text ++ nl))
  | JArr _ =>
      text <- ask (fun w _ => w_stringify w pkg) ;;
      emit (Write pkgPath (text ++ nl))
  | JUndef | JNull => throw "Cannot set properties of null (setting 'version')"
  | _ => throw "Cannot create property 'version'"
  end.

End Manifest.

(* ===================================================================== *)
(** ** prompts.js *)
(* ===================================================================== *)

Module Prompts.
Import JS Config Effects.

Definition BUMP_OPTIONS : list string :=
  ["patch"; "minor"; "major"; "hotfix"; "prerelease"].

Fixpoint findIndex (v : jsval) (l : list string) (i : Z) : Z :=
  match l with
  | [] => (-1)%Z
  | x :: r => if strictEq (JStr x) v then i else findIndex v r (i + 1)%Z
  end.

Definition selectBumpType (suggested : jsval) (defaultBump : string) (isCi : bool)
  : M jsval :=
  if isCi then ret (JStr defaultBump)
  else
    emit (Ask QBump) ;;
    answer <- ask (fun w h => w_answer w h QBump) ;;
    let defaultIndex :=
      if truthy suggested then (findIndex suggested BUMP_OPTIONS 0 + 1)%Z else 1%Z in
    let trimmed := trim (if isEmpty answer then showZ defaultIndex else answer) in
    ret match parseInt trimmed with
        | Num n =>
            if (1 <=? n)%Z && (n <=? 5)%Z
            then JStr (nth (Z.to_nat (n - 1)) BUMP_OPTIONS EmptyString)
            else jor suggested (JStr defaultBump)
        | NaN => jor suggested (JStr defaultBump)
        end.

Definition selectPreId (isCi : bool) : M jsval :=
  if isCi then ret JNull
  else
    emit (Ask QPreId) ;;
    answer <- ask (fun w h => w_answer w h QPreId) ;;
    ret (jor (JStr (trim answer)) JNull).

Definition confirmRelease (isCi yes : bool) : M bool :=
  if isCi || yes then ret true
  else
    emit (Ask QConfirm) ;;
    answer <- ask (fun w h => w_answer w h QConfirm) ;;
    let a := toLowerCase (trim (if isEmpty answer then "y" else answer)) in
    ret (String.eqb a "y" || String.eqb a "yes" || String.eqb a EmptyString).

End Prompts.

(* ===================================================================== *)
(** ** gitFlow.js *)
(* ===================================================================== *)

Module GitFlow.
Import JS Config Effects Hooks Git Changelog Manifest.

Definition mainOf (config : jsval) : jsval :=
  jor (get (get config "branches") "main") (JStr "main").
Definition developOf (config : jsval) : jsval :=
  jor (get (get config "branches") "develop") (JStr "develop").

Definition forceUpdate (branch : string) : string :=
  "git branch --force " ++ branch ++ " origin/" ++ branch.

Definition syncBranches (context : fields) : M unit :=
  let currentBranch := lookup "currentBranch" context in
  let config := lookup "config" context in
  let main := mainOf config in
  let develop := developOf config in
  log "Fetching all branches..." ;;
  execInherit "git fetch --all --prune" ;;
  log "Pulling main..." ;;
  execInherit ("git fetch origin " ++ toString main) ;;
  execInherit (forceUpdate (toString main)) ;;
  log "Pulling develop..." ;;
  execInherit ("git fetch origin " ++ toString develop) ;;
  (if negb (strictEq currentBranch develop)
   then execInherit (forceUpdate (toString develop))
   else log "Skipping force update for develop (currently checked out).") ;;
  log "Branches are up to date.".

(** [path.join(cwd, config.changelog?.path || 'CHANGELOG.md')], for a
    path that is a string when it is set. *)
Definition changelogPathOf (cwd : string) (config : jsval) : string :=
  pathJoin cwd (strOr (get (get config "changelog") "path") "CHANGELOG.md").

(** [updateFiles] hands [context.commits], the array, to
    [appendChangelogEntry]. *)
Definition updateFiles (context : fields) : M unit :=
  let cwd := toString (lookup "cwd" context) in
  let config := lookup "config" context in
  Manifest.setPackageVersion cwd (lookup "version" context) ;;
  appendChangelogEntry (changelogPathOf cwd config)
    (lookup "version" context) (lookup "dateStr" context)
    (lookup "commits" context) (get (get config "changelog") "template").

Definition commitMessageOf (config : jsval) (newVersion : string) : string :=
  replaceAll "${version}" newVersion
    (strOr (get config "commitMessage")
       "release: update version to ${version} and changelog").

Definition commitCommand (commitMsg : string) : string :=
  "git commit -m " ++ dq ++ escapeQuotes commitMsg ++ dq.

Definition pushHead (pushSuffix : string) : string :=
  "git push origin HEAD" ++ pushSuffix.

Definition pullRebase (releaseBranch : string) : string :=
  "git pull --rebase origin " ++ releaseBranch.

(** [pushErr.message && pushErr.message.includes('non-fast-forward')] *)
Definition nonFastForward (message : string) : bool :=
  negb (isEmpty message) && includes "non-fast-forward" message.

Definition rebaseFailed : string :=
  "Push after rebase failed. Please resolve conflicts and push manually.".

(** The [try]/[catch] around the push of the release branch. *)
Definition pushReleaseBranch (releaseBranch pushSuffix : string) : M unit :=
  try_ (execInherit (pushHead pushSuffix))
    (fun pushErr =>
       if nonFastForward pushErr
       then
         try_
           (execInherit (pullRebase releaseBranch) ;;
            execInherit (pushHead pushSuffix))
           (fun _ => throw rebaseFailed)
       else throw pushErr).

Definition finishCommand (tagMsg newVersion : string) : string :=
  "GIT_MERGE_AUTOEDIT=no GIT_EDITOR=true git flow release finish -m "
  ++ dq ++ tagMsg ++ dq ++ " " ++ newVersion.

(** What follows the push of the release branch. *)
Definition finishRelease (config : jsval) (newVersion pushSuffix : string) : M unit :=
  let main := mainOf config in
  let develop := developOf config in
  let tagMsg :=
    replaceAll "${version}" newVersion
      (strOr (get config "tagMessage") ("Release-" ++ newVersion)) in
  log ("Finishing git flow release: " ++ newVersion) ;;
  execInherit (finishCommand tagMsg newVersion) ;;
  log "Pushing all branches and tags..." ;;
  execInherit ("git push origin " ++ toString develop ++ pushSuffix) ;;
  execInherit ("git push origin " ++ toString main ++ pushSuffix) ;;
  let tagPrefix := nullish (get (get config "tag") "prefix") (JStr "v") in
  let tagName :=
    if truthy tagPrefix then toString tagPrefix ++ newVersion else newVersion in
  out <- execSync "git tag" ;;
  if strIn tagName (lines out)
  then execInherit ("git push origin " ++ tagName ++ pushSuffix)
  else warn ("Tag " ++ tagName ++ " does not exist locally. Skipping tag push.").

(** [`${prefix}${newVersion}`] *)
Definition releaseBranchOf (context : fields) : string :=
  toString (jor (get (lookup "config" context) "releaseBranchPrefix") (JStr "release/"))
  ++ toString (lookup "version" context).

(** Up to the push of the release branch: the branch is ensured, the files
    are updated and committed; the result is the suffix of the push
    commands. *)
Definition prepareRelease (context : fields) : M string :=
  let config := lookup "config" context in
  let newVersion := toString (lookup "version" context) in
  let dryRun := truthy (lookup "dryRun" context) in
  let releaseBranch := releaseBranchOf context in
  let updateContext := assign "version" (JStr newVersion) context in
  log "Starting git flow release process..." ;;
  releaseBranchExists <-
    try_ (branches <- execSync "git branch" ;; ret (includes releaseBranch branches))
      (fun _ => ret false) ;;
  (if negb releaseBranchExists then
     log ("Creating release branch: " ++ releaseBranch) ;;
     when (negb dryRun) (execInherit ("git flow release start " ++ newVersion))
   else
     log ("Release branch " ++ releaseBranch ++ " already exists.") ;;
     when (negb dryRun) (execInherit ("git checkout " ++ releaseBranch))) ;;
  if negb dryRun then
    updateFiles updateContext ;;
    log "Committing updated files..." ;;
    execInherit "git add ." ;;
    execInherit (commitCommand (commitMessageOf config newVersion)) ;;
    match jor (get (get config "git") "pushArgs") (JArr []) with
    | JArr l =>
        let pushArgs := filter truthy l in
        let pushSuffix :=
          match pushArgs with
          | [] => EmptyString
          | _ => " " ++ joinArr " " pushArgs
          end in
        log "Pushing release branch..." ;;
        ret pushSuffix
    | _ => throw "(intermediate value).filter is not a function"
    end
  else ret EmptyString.

Definition performGitFlowRelease (context : fields) : M unit :=
  let config := lookup "config" context in
  let newVersion := toString (lookup "version" context) in
  let dryRun := truthy (lookup "dryRun" context) in
  let releaseBranch := releaseBranchOf context in
  pushSuffix <- prepareRelease context ;;
  (if negb dryRun then
     pushReleaseBranch releaseBranch pushSuffix ;;
     finishRelease config newVersion pushSuffix
   else log ("[dry-run] Would perform git flow release for " ++ newVersion)) ;;
  log "Git flow release completed successfully.".

End GitFlow.

(* ===================================================================== *)
(** ** linearRelease.js *)
(* ===================================================================== *)

Module Linear.
Import JS Config Effects Hooks Git Changelog Manifest GitFlow.

Definition performLinearRelease (context : fields) : M unit :=
  let cwd := toString (lookup "cwd" context) in
  let config := lookup "config" context in
  let newVersion := toString (lookup "version" context) in
  let dryRun := truthy (lookup "dryRun" context) in
  log "Starting linear release (no git-flow)..." ;;
  let commitMessage :=
    interpolate
      (strOr (get config "commitMessage")
         "release: update version to ${version} and changelog")
      [("version", lookup "version" context)] in
  let changelogPath := changelogPathOf cwd config in
  (if negb dryRun then
     Manifest.setPackageVersion cwd (lookup "version" context) ;;
     appendChangelogEntry changelogPath (lookup "version" context)
       (lookup "dateStr" context) (lookup "changelogText" context)
       (get (get config "changelog") "template") ;;
     log "Committing..." ;;
     execInherit "git add ." ;;
     execInherit (commitCommand commitMessage)
   else log "[dry-run] Would update package.json and CHANGELOG, then commit.") ;;
  tagName <- createTag newVersion (jor (get config "tag") (JObj []))
               (get config "tagMessage") dryRun ;;
  let pushArgs := jor (get (get config "git") "pushArgs") (JArr []) in
  (if negb dryRun then
     branch <- getCurrentBranch ;;
     pushBranch branch false pushArgs ;;
     pushTag tagName false pushArgs
   else log "[dry-run] Would push branch and tag.") ;;
  log "Linear release completed successfully.".

End Linear.

(* ===================================================================== *)
(** ** cli.js *)
(* ===================================================================== *)

Module Cli.
Import JS Config Effects Hooks Git Changelog Plugins Npm Providers Manifest
  Prompts GitFlow Linear.

Definition optionsObj (o : options) : jsval :=
  JObj [ ("bump", bump o); ("ci", JBool (ci o)); ("dryRun", JBool (dryRun o));
         ("noGitFlow", JBool (noGitFlow o)); ("yes", JBool (yes o));
         ("config", config o); ("preid", preid o);
         ("noIncrement", JBool (noIncrement o));
         ("releaseVersion", JBool (releaseVersion o));
         ("onlyVersion", JBool (onlyVersion o));
         ("changelog", JBool (changelog o)); ("verbose", JBool (verbose o)) ].

Definition embed {A} (f : world -> history -> outcome A) : M A :=
  fun w h => (f w h, h).

(** The [type] argument of [increaseVersion]: a value that is no string
    meets no [case] and takes the [default] branch. *)
Definition typeArg (v : jsval) : string :=
  match v with JStr s => s | _ => EmptyString end.

(** [increaseVersion(currentVersion, type, preId)] at a call site: a
    version that is no string has no [split]. *)
Definition increase (currentVersion type preId : jsval) : M string :=
  match currentVersion with
  | JStr cv => ret (Version.increaseVersion cv (typeArg type) preId)
  | _ => throw "currentVersion.split is not a function"
  end.

(** What the synchronous part of [run] has settled when the promise chain
    starts. *)
Record inputs : Type := mkInputs
  { i_cwd : string;
    i_config : jsval;
    i_argv : options;
    i_dryRun : jsval;
    i_isCi : jsval;
    i_useGitFlow : bool;
    i_plugins : list plugin;
    i_currentVersion : jsval;
    i_projectName : jsval;
    i_currentBranch : string;
    i_bump : jsval;
    i_commits : list string;
    i_suggested : jsval;
    i_preId : jsval }.

Definition tagPrefixOf (config : jsval) : jsval :=
  nullish (get (jor (get config "tag") (JObj [])) "prefix") (JStr "v").

(** [tagPrefix ? `${tagPrefix}${newVersion}` : newVersion] *)
Definition tagNameFor (config : jsval) (newVersion : jsval) : jsval :=
  let tagPrefix := tagPrefixOf config in
  if truthy tagPrefix then JStr (toString tagPrefix ++ toString newVersion)
  else newVersion.

Definition suggestion (commits : list string) : jsval :=
  match Version.suggestBumpFromCommits commits with
  | Some b => JStr b
  | None => JNull
  end.

(** Line 21: [config.dryRun ?? argv.dryRun] *)
Definition effectiveDryRun (config : jsval) (argv : options) : jsval :=
  nullish (get config "dryRun") (JBool (Config.dryRun argv)).

(** Lines 21-89, once [loadConfig] has returned: plugins, [beforeInit]
    hooks, the info-only flags, the precondition checks and the inputs of
    the bump. *)
Definition gatherWith (cwd : string) (config : jsval) (argv : options) : M inputs :=
  let dryRun := effectiveDryRun config argv in
  let isCi := nullish (get config "ci") (JBool (ci argv)) in
  let useGitFlow := notFalse (get config "gitFlow") && negb (noGitFlow argv) in
  let verbose := verbose argv || false in
  when (truthy dryRun) (log "Running in dry-run mode. No changes will be made.") ;;
  plugins <- loadPlugins cwd (get config "plugins") ;;
  let initContext : fields :=
    [ ("cwd", JStr cwd); ("config", config); ("argv", optionsObj argv);
      ("dryRun", dryRun); ("isCi", isCi); ("verbose", JBool verbose) ] in
  runPluginLifecycle plugins "init" ;;
  runHooks (get (get config "hooks") "beforeInit") initContext (truthy dryRun) ;;
  cur <- getCurrentVersion cwd ;;
  let currentVersion := fst cur in
  let projectName := snd cur in
  when (releaseVersion argv)
    (let bump := jor (jor (bump argv) (get config "bump")) (JStr "patch") in
     let preId := jor (jor (preid argv) (get (get config "preRelease") "id")) JNull in
     next <- increase currentVersion bump preId ;;
     log next ;;
     exit 0) ;;
  when (changelog argv)
    (ensureOriginRemote ;;
     commits <- getNewCommits ;;
     latestTag <- getLatestTag ;;
     let context : fields :=
       [ ("cwd", JStr cwd); ("config", config);
         ("commits", JArr (map JStr commits));
         ("version", currentVersion); ("latestVersion", currentVersion);
         ("latestTag", latestTag) ] in
     text <- getChangelogText context ;;
     log text ;;
     exit 0) ;;
  ensureOriginRemote ;;
  when (truthy (get config "requireCleanWorkingDir")) ensureCleanWorkingTree ;;
  when useGitFlow ensureGitFlowInstalled ;;
  currentBranch <- getCurrentBranch ;;
  let requireUpstream := isTrue (get (get config "git") "requireUpstream") in
  when requireUpstream (ensureUpstream currentBranch true) ;;
  match get config "allowReleaseFrom" with
  | JArr ((_ :: _) as allowed) =>
      when (negb (existsb (strictEq (JStr currentBranch)) allowed))
        (error ("Cannot release from branch " ++ dq ++ currentBranch ++ dq
                ++ ". Allowed: " ++ joinArr ", " allowed ++ ".") ;;
         exit 1)
  | _ => ret tt
  end ;;
  let bump0 := jor (bump argv) JNull in
  let bump1 :=
    if negb (truthy bump0) && (truthy isCi || truthy (get config "bump"))
    then jor (get config "bump") (JStr "patch") else bump0 in
  commits <- getNewCommits ;;
  let suggested :=
    if truthy (get config "conventionalCommits") then suggestion commits else JNull in
  let preId := jor (jor (preid argv) (get (get config "preRelease") "id")) JNull in
  ret {| i_cwd := cwd; i_config := config; i_argv := argv; i_dryRun := dryRun;
         i_isCi := isCi; i_useGitFlow := useGitFlow; i_plugins := plugins;
         i_currentVersion := currentVersion; i_projectName := projectName;
         i_currentBranch := currentBranch; i_bump := bump1; i_commits := commits;
         i_suggested := suggested; i_preId := preId |}.

(** Lines 17-89: the synchronous part of [run]. *)
Definition gather (cwd : string) (args : list string) : M inputs :=
  loaded <- embed (fun w h => loadConfig (hostAt w h) cwd args) ;;
  gatherWith cwd (fst loaded) (snd loaded).

(** The first two steps of the chain: the bump kind and the pre-release
    identifier. *)
Definition resolveBump (i : inputs) : M (jsval * jsval) :=
  let noIncrement := noIncrement (i_argv i) || false in
  let isCi := truthy (i_isCi i) in
  resolvedBump <-
    (if noIncrement then ret JNull
     else if truthy (i_bump i) then ret (i_bump i)
     else selectBumpType (i_suggested i) "patch" isCi) ;;
  if noIncrement then ret (i_bump i, i_preId i)
  else if strictEq resolvedBump (JStr "prerelease") then
    if negb (truthy (i_preId i)) && negb isCi then
      id <- selectPreId isCi ;;
      ret (JStr "patch", id)
    else ret (JStr "patch", i_preId i)
  else ret (resolvedBump, i_preId i).

(** [noIncrement ? currentVersion : increaseVersion(currentVersion, bump || 'patch', preId)] *)
Definition nextVersion (i : inputs) (bump preId : jsval) : M jsval :=
  if noIncrement (i_argv i) || false then ret (i_currentVersion i)
  else
    v <- increase (i_currentVersion i) (jor bump (JStr "patch")) preId ;;
    ret (JStr v).

Definition dryRunLine (i : inputs) (newVersion bump : jsval) : string :=
  "[dry-run] Would release " ++ toString newVersion ++ " (bump: "
  ++ (if noIncrement (i_argv i) || false then "none" else toString bump)
  ++ ") from " ++ i_currentBranch i ++ ".".

(** The third step: the next version, the date, the dry-run exit and the
    confirmation. *)
Definition decide (i : inputs) (bump preId : jsval) : M (jsval * string) :=
  newVersion <- nextVersion i bump preId ;;
  let locale := jor (get (get (i_config i) "changelog") "dateLocale") (JStr "fa-IR") in
  dateStr <- formatDate locale ;;
  when (truthy (i_dryRun i))
    (log (dryRunLine i newVersion bump) ;; exit 0) ;;
  let effectiveYes := yes (i_argv i) || onlyVersion (i_argv i) || false in
  confirmed <- confirmRelease (truthy (i_isCi i)) effectiveYes ;;
  when (negb confirmed) (log "Release cancelled." ;; exit 0) ;;
  ret (newVersion, dateStr).

Definition releaseContext (i : inputs) (bump newVersion : jsval)
  (dateStr : string) (latestTag : jsval) : fields :=
  [ ("cwd", JStr (i_cwd i)); ("config", i_config i);
    ("argv", optionsObj (i_argv i)); ("dryRun", JBool false);
    ("isCi", i_isCi i); ("verbose", JBool (verbose (i_argv i) || false));
    ("currentBranch", JStr (i_currentBranch i));
    ("branchName", JStr (i_currentBranch i));
    ("currentVersion", i_currentVersion i);
    ("newVersion", newVersion); ("version", newVersion);
    ("latestVersion", i_currentVersion i);
    ("latestTag", latestTag);
    ("bump", bump);
    ("commits", JArr (map JStr (i_commits i)));
    ("projectName", i_projectName i); ("name", i_projectName i);
    ("dateStr", JStr dateStr);
    ("tagName", tagNameFor (i_config i) newVersion);
    ("releaseUrl", JNull) ].

(** The GitHub link of the release promise. *)
Definition githubStep (config : jsval) (tagName releaseName : string)
  (context : fields) : M fields :=
  if truthy (get (get config "github") "release") then
    try_
      (url <- createGitHubRelease tagName releaseName (get config "github") false ;;
       ret (assign "releaseUrl" url context))
      (fun msg => warn ("GitHub release failed: " ++ msg) ;; ret context)
  else ret context.

(** The GitLab link of the release promise. *)
Definition gitlabStep (config : jsval) (tagName releaseName : string)
  (context : fields) : M fields :=
  if truthy (get (get config "gitlab") "release") then
    try_
      (url <- createGitLabRelease tagName releaseName (get config "gitlab") false ;;
       ret (if truthy url
            then assign "releaseUrl" (jor (lookup "releaseUrl" context) url) context
            else context))
      (fun msg => warn ("GitLab release failed: " ++ msg) ;; ret context)
  else ret context.

(** Lines 195-198: what follows the release promise. *)
Definition afterProviders (i : inputs) (context : fields) : M fields :=
  runPluginLifecycleAsync (i_plugins i) "release" ;;
  runHooks (get (get (i_config i) "hooks") "afterRelease") context false ;;
  runPluginLifecycle (i_plugins i) "afterRelease" ;;
  ret context.

(** Lines 175-198: npm, the two providers, then the [release] plugins, the
    [afterRelease] hooks and the [afterRelease] plugins. *)
Definition publish (i : inputs) (newVersion : jsval) (context : fields) : M fields :=
  let config := i_config i in
  let tagName := toString (tagNameFor config newVersion) in
  let releaseName := "Release " ++ toString newVersion in
  releaseBody <- getReleaseNotesBody context ;;
  when (truthy (get (get config "npm") "publish"))
    (npmPublish (i_cwd i) (get config "npm") false) ;;
  context1 <- githubStep config tagName releaseName context ;;
  context2 <- gitlabStep config tagName releaseName context1 ;;
  afterProviders i context2.

(** Lines 129-173: the context, the [beforeRelease] phase, the removal of
    an existing tag, the workflow and the hooks after it. *)
Definition workflow (i : inputs) (bump newVersion : jsval) (dateStr : string)
  : M fields :=
  let config := i_config i in
  let tagConfig := jor (get config "tag") (JObj []) in
  latestTag <- getLatestTag ;;
  let context0 := releaseContext i bump newVersion dateStr latestTag in
  changelogText <- getChangelogText context0 ;;
  let context :=
    (context0 ++ [ ("changelogText", JStr changelogText);
                   ("changelog", JStr changelogText) ])%list in
  runPluginLifecycle (i_plugins i) "beforeRelease" ;;
  runHooks (get (get config "hooks") "beforeRelease") context false ;;
  when (truthy (get tagConfig "deleteIfExists"))
    (ensureTagNotExists (toString newVersion) tagConfig false) ;;
  (if i_useGitFlow i then
     when (truthy (get config "syncBranches")) (syncBranches context) ;;
     performGitFlowRelease context
   else performLinearRelease context) ;;
  runHooks (get (get config "hooks") "afterGitRelease") context false ;;
  runHooks (get (get config "hooks") "afterBump") context false ;;
  ret context.

(** The fourth step: the release proper. *)
Definition release (i : inputs) (bump newVersion : jsval) (dateStr : string)
  : M fields :=
  context <- workflow i bump newVersion dateStr ;;
  publish i newVersion context.

(** The steps of the promise chain. *)
Definition steps (i : inputs) : M unit :=
  b <- resolveBump i ;;
  d <- decide i (fst b) (snd b) ;;
  release i (fst b) (fst d) (snd d) ;;
  log "Release completed successfully.".

(** The promise chain with its final [catch]. *)
Definition chain (i : inputs) : M unit :=
  try_ (steps i) (fun msg => error ("Error: " ++ msg) ;; exit 1).

Definition run (cwd : string) (args : list string) : M unit :=
  i <- gather cwd args ;;
  chain i.

(** The exit status of the process: an error that nothing catches ends it
    with status 1. *)
Definition exitCode {A} (r : outcome A) : nat :=
  match r with
  | Ok _ => 0
  | Throw _ => 1
  | Exit c => c
  end.

End Cli.

(* ===================================================================== *)
(** ** Vocabulary of the statements *)
(* ===================================================================== *)

Module Spec.
Import JS Config Effects.

(** A string with no leading white space. *)
Definition noLead (s : string) : Prop :=
  match s with
  | EmptyString => True
  | String c _ => isWhite c = false
  end.

(** A pre-release identifier that is [null], [undefined], no string, empty
    or made of white space only. *)
Definition blankPreId (preId : jsval) : Prop :=
  match preId with
  | JStr p => sall isWhite p = true
  | _ => True
  end.

(** [preId.trim().toLowerCase()] *)
Definition normalized (p : string) : string := toLowerCase (trim p).

(** The version string whose components are the numbers of [l]. *)
Definition plain (l : list Z) : string := join "." (map showZ l).

(** The component-wise order of versions: lexicographic on major, minor,
    patch and build, a missing build counting as [0]. *)
Definition vlt (x y : list Z) : Prop :=
  let a := nth 0 x 0%Z in let a' := nth 0 y 0%Z in
  let b := nth 1 x 0%Z in let b' := nth 1 y 0%Z in
  let c := nth 2 x 0%Z in let c' := nth 2 y 0%Z in
  let d := nth 3 x 0%Z in let d' := nth 3 y 0%Z in
  (a < a' \/ (a = a' /\ (b < b' \/ (b = b' /\ (c < c' \/ (c = c' /\ d < d'))))))%Z.

(** The three classes of commit subjects, on the first line of a message. *)
Definition isBreaking (msg : string) : bool := Version.reBreaking (Version.firstLine msg).
Definition isFeat (msg : string) : bool := Version.reFeat (Version.firstLine msg).
Definition isFix (msg : string) : bool := Version.reFix (Version.firstLine msg).

(** Commands of the precondition checks and of the reading of tags and
    commits: they only read the repository. *)
Definition readOnly (cmd : string) : bool :=
  String.eqb cmd "git remote get-url origin"
  || String.eqb cmd "git status --porcelain"
  || String.eqb cmd "git flow version"
  || String.eqb cmd "git branch --show-current"
  || String.eqb cmd "git describe --tags --abbrev=0"
  || String.prefix "git rev-parse --abbrev-ref " cmd
  || String.prefix "git rev-parse --verify " cmd
  || String.prefix "git tag -l --points-at " cmd
  || String.prefix "git log " cmd.

(** An event that changes no file, no git ref and nothing on the network.
    Loading a plugin and calling it are events of this kind for the engine;
    what the plugin's own code does is not the engine's. *)
Definition harmless (e : event) : Prop :=
  match e with
  | Log _ | Warn _ | Err _ | Ask _ | Load _ | Call _ _ => True
  | Exec cmd => readOnly cmd = true
  | Write _ _ | Post _ _ => False
  end.

(** A triple for computations: every event added to the history satisfies
    [P], a returned value satisfies [R], and an exit with status [c] after
    the added events [ext] satisfies [E c ext]. *)
Definition tri {A} (P : event -> Prop) (R : A -> Prop)
  (E : nat -> history -> Prop) (m : M A) : Prop :=
  forall w h,
  exists ext,
    snd (m w h) = (h ++ ext)%list
    /\ Forall P ext
    /\ match fst (m w h) with
       | Ok a => R a
       | Throw _ => True
       | Exit c => E c ext
       end.

(** Git refuses the forced update of the branch that is checked out:
    [git branch --force <branch> origin/<branch>] ends with a status
    other than 0 and the branch stays where it is. *)
Definition refusesForce (w : world) (branch : string) : Prop :=
  forall h, exists stderr, w_sh w h (GitFlow.forceUpdate branch) = Failed stderr.

(** A command that leaves the local branch [cur] where it is: a fetch,
    which writes the remote-tracking branches, or the forced update of
    another branch. *)
Definition spares (cur cmd : string) : Prop :=
  String.prefix "git fetch " cmd = true
  \/ exists b, b <> cur /\ cmd = GitFlow.forceUpdate b.

(** Every command among the events [ext], run after [h], that ended with
    status 0 satisfies [Q]. *)
Fixpoint eachDone (w : world) (Q : string -> Prop) (h ext : history) : Prop :=
  match ext with
  | [] => True
  | e :: r =>
      match e with
      | Exec cmd => forall out, w_sh w h cmd = Done out -> Q cmd
      | _ => True
      end
      /\ eachDone w Q (h ++ [e])%list r
  end.

Definition prependable (E : nat -> history -> Prop) : Prop :=
  forall c e1 e2, E c e2 -> E c (e1 ++ e2)%list.

(** How a dry run may exit: with status 1 from a failed check, or with
    status 0 right after the line that reports the release. *)
Definition dryExit (c : nat) (ext : history) : Prop :=
  c = 1
  \/ (c = 0 /\ exists pre line,
                 ext = (pre ++ [Log line])%list
                 /\ String.prefix "[dry-run] Would release " line = true).

(** The flag [--changelog] asks for the text of the changelog and the
    configuration names a command that prints it, [changelog.command], a
    string that is not empty; the flag [--release-version], which is
    looked at first, is not given. *)
Definition infoCommand (config : jsval) (argv : options) : Prop :=
  releaseVersion argv = false
  /\ changelog argv = true
  /\ exists cmd,
       get (jor (get config "changelog") (JObj [])) "command" = JStr cmd
       /\ cmd <> EmptyString.

(** A harmless event, or a command that is run while [allowed] holds. *)
Definition harmlessOr (allowed : Prop) (e : event) : Prop :=
  harmless e \/ (allowed /\ exists line, e = Exec line).

(** How a run with the dry-run flag may exit: with status 1, or with
    status 0 right after a line on the console, which is the line that
    reports the release unless an info-only flag is given. *)
Definition dryEnd (argv : options) (c : nat) (ext : history) : Prop :=
  c = 1
  \/ (c = 0 /\ exists pre line,
                 ext = (pre ++ [Log line])%list
                 /\ (releaseVersion argv = false -> changelog argv = false ->
                     String.prefix "[dry-run] Would release " line = true)).

(** A question put to the user. *)
Definition isQuestion (e : event) : Prop :=
  match e with Ask _ => True | _ => False end.

(** The same inputs for a real run. *)
Definition forReal (i : Cli.inputs) : Cli.inputs :=
  Cli.mkInputs (Cli.i_cwd i) (Cli.i_config i) (Cli.i_argv i) (JBool false)
    (Cli.i_isCi i) (Cli.i_useGitFlow i) (Cli.i_plugins i)
    (Cli.i_currentVersion i) (Cli.i_projectName i) (Cli.i_currentBranch i)
    (Cli.i_bump i) (Cli.i_commits i) (Cli.i_suggested i) (Cli.i_preId i).

(** The host without its files. *)
Definition withoutFiles (h : host) : host :=
  mkHost (env h) (fun _ => None) (parseJSON h).

(** [--config] names a file that does not exist. *)
Definition explicitMissing (h : host) (cwd : string) (args : list string) : Prop :=
  exists e,
    config (parseArgv args) = JStr e /\ e <> EmptyString
    /\ file h (if isAbsolute e then e else pathJoin cwd e) = None.

(** The configuration file that is found holds no JSON. *)
Definition foundUnparsable (h : host) (cwd : string) (args : list string) : Prop :=
  exists p text,
    findConfigFile h cwd (config (parseArgv args)) = FoundPath p
    /\ file h p = Some text /\ parseJSON h text = None.

End Spec.

(* ===================================================================== *)
(** ** Sample hosts and worlds *)
(* ===================================================================== *)

Module Samples.
Import JS Config Effects.

(** A project directory [/w] whose [package.json] has the text [PKG], and
    whose [.reliz.json], when there is one, has the text [CFG]. *)
Definition sampleFiles (withConfig : bool) (p : string) : option string :=
  if withConfig && String.eqb p "/w/.reliz.json" then Some "CFG"
  else if String.eqb p "/w/package.json" then Some "PKG"
  else None.

Definition isSome {A} (o : option A) : bool :=
  match o with Some _ => true | None => false end.

Definition samplePackage : jsval :=
  JObj [("name", JStr "demo"); ("version", JStr "1.2.3")].

(** [CFG] parses to [cfg] when there is one, [PKG] to the manifest. *)
Definition sampleParse (cfg : option jsval) (text : string) : option jsval :=
  if String.eqb text "CFG" then cfg
  else if String.eqb text "PKG" then Some samplePackage
  else None.

Definition sampleHost (cfg : option jsval) : host :=
  mkHost (fun _ => None) (sampleFiles (isSome cfg)) (sampleParse cfg).

(** A project whose [.reliz.json] holds no JSON. *)
Definition brokenHost : host :=
  mkHost (fun _ => None)
    (fun p => if String.eqb p "/w/.reliz.json" then Some "{ gitFlow: " else None)
    (fun _ => None).

(** A repository on [branch] where every command succeeds but those
    [failing] gives a message for; provider tokens are set and both
    providers answer with an error. *)
Definition sampleWorld (cfg : option jsval) (branch : string)
  (failing : history -> string -> option string) : world :=
  {| w_env := fun n => if String.eqb n "GITHUB_TOKEN" || String.eqb n "GITLAB_TOKEN"
                       then Some "token" else None;
     w_parseJSON := sampleParse cfg;
     w_stringify := fun _ => "{}";
     w_file := fun _ => sampleFiles (isSome cfg);
     w_sh := fun h c =>
       match failing h c with
       | Some msg => Failed msg
       | None =>
           if String.eqb c "git branch --show-current" then Done (branch ++ nl)
           else if String.eqb c "git tag" then Done ("v1.2.4" ++ nl)
           else if String.eqb c "git describe --tags --abbrev=0"
                then Done ("v1.2.3" ++ nl)
           else if String.eqb c "git remote get-url origin"
                then Done ("git@github.com:owner/repo.git" ++ nl)
           else if String.prefix "git rev-parse --verify " c
                then Done ("9fceb02d0ae598e95dc970b74767f19372d61af8" ++ nl)
           else if String.prefix "git tag -l --points-at " c
                then Done ("v1.2.3" ++ nl)
           else if String.prefix "git log " c
                then Done ("abc1234 fix: a" ++ nl ++ "def5678 feat: b" ++ nl)
           else Done EmptyString
       end;
     w_formatDate := fun _ => "2026-01-01";
     w_answer := fun _ _ => EmptyString;
     w_require := fun _ => inr "Cannot find module";
     w_call := fun _ _ _ => None;
     w_http := fun _ _ _ => inr "API 500" |}.

Definition never : history -> string -> option string := fun _ _ => None.

Definition isExec (cmd : string) (e : event) : bool :=
  match e with Exec c => String.eqb c cmd | _ => false end.

(** The command [cmd] fails with [msg] until [after] has been run. *)
Definition failsUntil (cmd after msg : string) : history -> string -> option string :=
  fun h c =>
    if String.eqb c cmd && negb (existsb (isExec after) h) then Some msg else None.

(** The command [cmd] always fails with [msg]. *)
Definition alwaysFails (cmd msg : string) : history -> string -> option string :=
  fun _ c => if String.eqb c cmd then Some msg else None.

Definition rejected : string :=
  "! [rejected] HEAD -> release/1.2.4 (non-fast-forward)".

Definition isPost (e : event) : bool :=
  match e with Post _ _ => true | _ => false end.

(** A configuration file that only sets [dryRun] to [false]. *)
Definition dryFalse : jsval := JObj [("dryRun", JBool false)].

(** A linear release from [main] that publishes to npm and to GitHub. *)
Definition npmOn : jsval :=
  JObj [ ("gitFlow", JBool false); ("allowReleaseFrom", JArr [JStr "main"]);
         ("npm", JObj [("publish", JBool true)]);
         ("github", JObj [("release", JBool true)]) ].

(** The release branch is rejected once, and accepted after the rebase. *)
Definition retryWorld : world :=
  sampleWorld None "develop"
    (failsUntil "git push origin HEAD --follow-tags"
       "git pull --rebase origin release/1.2.4" rejected).

(** The repository with [main] checked out: git refuses to force it. *)
Definition refusingWorld : world :=
  sampleWorld None "main"
    (alwaysFails "git branch --force main origin/main"
       "fatal: cannot force update the branch 'main' used by worktree at '/w'").

(** The text of an event, and whether it mentions [s]. *)
Definition eventText (e : event) : string :=
  match e with
  | Log s | Warn s | Err s | Exec s | Load s => s
  | Write p c => p ++ " " ++ c
  | Ask _ => EmptyString
  | Call p m => p ++ " " ++ m
  | Post p t => p ++ " " ++ t
  end.

Definition mentions (s : string) (e : event) : bool := includes s (eventText e).

(** The default configuration on [develop], every command succeeding. *)
Definition plainWorld : world := sampleWorld None "develop" never.

(** [plainWorld] with a [.reliz.json] that holds no JSON. *)
Definition brokenWorld : world :=
  {| w_env := w_env plainWorld;
     w_parseJSON := w_parseJSON plainWorld;
     w_stringify := w_stringify plainWorld;
     w_file := fun h p =>
       if String.eqb p "/w/.reliz.json" then Some "{ gitFlow: "
       else w_file plainWorld h p;
     w_sh := w_sh plainWorld;
     w_formatDate := w_formatDate plainWorld;
     w_answer := w_answer plainWorld;
     w_require := w_require plainWorld;
     w_call := w_call plainWorld;
     w_http := w_http plainWorld |}.

(** A configuration that names a command for the text of the changelog,
    one that writes the file too. *)
Definition cliffOn : jsval :=
  JObj [("changelog", JObj [("command", JStr "git-cliff --output CHANGELOG.md")])].

Definition cliffWorld : world := sampleWorld (Some cliffOn) "develop" never.

(** The npm step fails; everything else succeeds. *)
Definition npmFails : world :=
  sampleWorld (Some npmOn) "main" (alwaysFails "npm publish --tag latest" "E403").

(** The inputs of a linear patch release of 1.2.3 from [main] with the
    configuration [npmOn]. *)
Definition sampleInputs : Cli.inputs :=
  {| Cli.i_cwd := "/w";
     Cli.i_config := deepMerge getDefaults npmOn;
     Cli.i_argv := parseArgv ["patch"; "--yes"];
     Cli.i_dryRun := JBool false;
     Cli.i_isCi := JBool false;
     Cli.i_useGitFlow := false;
     Cli.i_plugins := [];
     Cli.i_currentVersion := JStr "1.2.3";
     Cli.i_projectName := JStr "demo";
     Cli.i_currentBranch := "main";
     Cli.i_bump := JStr "patch";
     Cli.i_commits := ["fix: a"];
     Cli.i_suggested := JNull;
     Cli.i_preId := JNull |}.

(** The release context of [sampleInputs]. *)
Definition sampleRelease : fields :=
  Cli.releaseContext sampleInputs (JStr "patch") (JStr "1.2.4") "2026-01-01"
    (JStr "v1.2.3").

(** The release notes of [sampleRelease]. *)
Definition sampleNotes : string :=
  "## 1.2.4 - 2026-01-01" ++ nl ++ nl ++ "- fix: a".

(** A release context for version 1.2.4 with the default configuration. *)
Definition sampleContext (currentBranch : string) : fields :=
  [ ("cwd", JStr "/w"); ("config", getDefaults); ("dryRun", JBool false);
    ("currentBranch", JStr currentBranch); ("version", JStr "1.2.4");
    ("commits", JArr [JStr "fix: a"]); ("dateStr", JStr "2026-01-01") ].

Definition isWarn (e : event) : bool :=
  match e with Warn _ => true | _ => false end.
Definition isWrite (e : event) : bool :=
  match e with Write _ _ => true | _ => false end.

End Samples.

(* ===================================================================== *)
(** ** Further vocabulary *)
(* ===================================================================== *)

Module Notions.
Import JS Config Effects.

(** The loop of [deepMerge] over the entries of an object [source]. *)
Fixpoint mergeFields (sf out : fields) : fields :=
  match sf with
  | [] => out
  | (k, v) :: r => mergeFields r (mergeKey (fun t => deepMerge t v) k v out)
  end.

(** What [deepMerge] leaves under a key whose value in the source is [v],
    when the target holds [old] there. *)
Definition merged (old v : jsval) : jsval :=
  match v with
  | JObj _ => deepMerge (jor old (JObj [])) v
  | JUndef => old
  | _ => v
  end.

(** The keys of an object literal. *)
Definition keys (fs : fields) : list string := map fst fs.

(** No key is [__proto__], whose assignment sets the prototype instead of
    a property. *)
Definition ownKeys (fs : fields) : Prop := ~ In "__proto__" (keys fs).

(** A string without line feed. *)
Definition oneLine (s : string) : Prop :=
  sall (fun c => negb (Ascii.eqb c "010")) s = true.

(** A string without dollar sign. *)
Definition noDollar (s : string) : Prop :=
  sall (fun c => negb (Ascii.eqb c "$")) s = true.

(** The keys are identifiers, so that the pattern built from a key is the
    placeholder itself. *)
Definition identKeys (context : fields) : Prop :=
  Forall (fun kv => sall isWord (fst kv) = true) context.

(** A value that is inserted as it is printed: a string without dollar
    sign, which [replace] would read as the start of a replacement
    pattern, or a number that is a safe integer. *)
Definition plainValue (v : jsval) : Prop :=
  match v with
  | JStr s => noDollar s
  | JNum (Num n) => (- MAX_SAFE_INTEGER <= n <= MAX_SAFE_INTEGER)%Z
  | _ => True
  end.

Definition plainValues (context : fields) : Prop :=
  Forall (fun kv => plainValue (snd kv)) context.

(** A component of a version that can still be raised by one. *)
Definition safeComponent (n : Z) : Prop := (0 <= n < MAX_SAFE_INTEGER)%Z.

(** No exit of the process. *)
Definition noExit : nat -> history -> Prop := fun _ _ => False.

(** The events of a look at the tags: lines on the console and the two
    commands that list the local and the remote tags. *)
Definition tagProbe (e : event) : Prop :=
  match e with
  | Log _ => True
  | Exec cmd => cmd = "git tag" \/ cmd = "git ls-remote --tags origin"
  | _ => False
  end.

(** [null] or [undefined]. *)
Definition isNullish (v : jsval) : Prop := v = JUndef \/ v = JNull.

(** A commit as [git log --oneline] prints it: an abbreviated hash of
    seven or more lower-case hexadecimal digits, a space and the subject. *)
Definition onelineOf (c : string * string) : string := fst c ++ " " ++ snd c.

Definition abbrevHash (s : string) : Prop :=
  sall Git.isHexLower s = true /\ 7 <= String.length s.

(** A subject: one line, not empty, with no white space at either end. *)
Definition subjectLine (s : string) : Prop :=
  oneLine s /\ s <> EmptyString /\ Spec.noLead s /\ trimEnd s = s.

Definition isCall (e : event) : bool :=
  match e with Call _ _ => true | _ => false end.

(** The events of running plugins: their calls and the warnings. *)
Definition callOrWarn (e : event) : Prop :=
  match e with Call _ _ | Warn _ => True | _ => False end.

Definition implements (method : string) (pl : plugin) : bool :=
  strIn method (p_methods pl).

(** The last content written to [path] in a history. *)
Definition lastWrite (path : string) (h : history) : option string :=
  fold_left
    (fun acc e =>
       match e with
       | Write q c => if String.eqb q path then Some c else acc
       | _ => acc
       end) h None.

(** The manifest of the sample project once its version is 1.2.4. *)
Definition bumpedPackage : jsval :=
  JObj (assign "version" (JStr "1.2.4") (spread Samples.samplePackage)).

(** A project directory that keeps what is written to it; the manifest
    is printed as [NEXT] and read back from it. *)
Definition diskWorld : world :=
  {| w_env := w_env Samples.plainWorld;
     w_parseJSON := fun text =>
       if String.eqb text ("NEXT" ++ nl) then Some bumpedPackage
       else Samples.sampleParse None text;
     w_stringify := fun _ => "NEXT";
     w_file := fun h p =>
       match lastWrite p h with
       | Some c => Some c
       | None => Samples.sampleFiles false p
       end;
     w_sh := w_sh Samples.plainWorld;
     w_formatDate := w_formatDate Samples.plainWorld;
     w_answer := w_answer Samples.plainWorld;
     w_require := w_require Samples.plainWorld;
     w_call := w_call Samples.plainWorld;
     w_http := w_http Samples.plainWorld |}.

(** The content of a file, the empty text when there is none. *)
Definition contentOf (w : world) (h : history) (path : string) : string :=
  match w_file w h path with Some c => c | None => EmptyString end.

(** The entry of a release in the changelog. *)
Definition entryOf (version dateStr changelogText template : jsval) : string :=
  Hooks.interpolate (strOr template Changelog.DEFAULT_ENTRY_TEMPLATE)
    [("version", version); ("date", dateStr); ("commits", changelogText)].

(** An event other than the command [cmd]. *)
Definition notExec (cmd : string) (e : event) : Prop := e <> Exec cmd.

(** A value that is absent or a string, as a message of the
    configuration is. *)
Definition stringOrFalsy (v : jsval) : Prop :=
  truthy v = false \/ exists s, v = JStr s.

Definition isObject (v : jsval) : Prop := exists fs, v = JObj fs.

Definition isLog (e : event) : Prop :=
  match e with Log _ => True | _ => False end.

(** A line on the console, or the listing of the branches. *)
Definition logOrBranches (e : event) : Prop :=
  match e with
  | Log _ => True
  | Exec cmd => cmd = "git branch"
  | _ => False
  end.

Definition isAsk (e : event) : bool :=
  match e with Ask _ => true | _ => false end.

(** The process ends with status 0 or 1. *)
Definition zeroOrOne (c : nat) (_ : history) : Prop := c <= 1.

(** The group of a commit line in the changelog: its conventional type,
    or [other]. *)
Definition typeOf (line : string) : string :=
  match Changelog.parseConventional line with
  | Some t => t
  | None => "other"
  end.

(** A type that names no inherited property of the table of headers. *)
Definition plainType (t : string) : Prop :=
  t <> "constructor" /\ t <> "__proto__".

(** The commits that [includeTypes] keeps. *)
Definition kept (commits : list string) (includeTypes : jsval) : list string :=
  match includeTypes with
  | JArr ((_ :: _) as tys) =>
      filter (fun line =>
                match Changelog.parseConventional line with
                | None => true
                | Some t => existsb (strictEq (JStr t)) tys
                end) commits
  | _ => commits
  end.

(** The section of a group in the changelog. *)
Definition sectionOf (g : string * list string) : string :=
  "### " ++ Changelog.headerOf (fst g) Changelog.CONVENTIONAL_GROUP_HEADERS
  ++ nl ++ nl ++ Changelog.bullets (snd g).

(** The lines of [l] whose group is [t]. *)
Definition ofType (t : string) (l : list string) : list string :=
  filter (fun line => String.eqb (typeOf line) t) l.

(** The groups [G] are those of the lines [done]: one group for each
    type met, none empty, each holding the lines of its type in order. *)
Definition grouped (done : list string) (G : list (string * list string)) : Prop :=
  NoDup (map fst G)
  /\ (forall t ls, In (t, ls) G -> ls = ofType t done /\ ls <> [])
  /\ (forall x, In x done -> In (typeOf x) (map fst G)).

(** The sample inputs in CI mode. *)
Definition ciInputs : Cli.inputs :=
  {| Cli.i_cwd := Cli.i_cwd Samples.sampleInputs;
     Cli.i_config := Cli.i_config Samples.sampleInputs;
     Cli.i_argv := Cli.i_argv Samples.sampleInputs;
     Cli.i_dryRun := Cli.i_dryRun Samples.sampleInputs;
     Cli.i_isCi := JBool true;
     Cli.i_useGitFlow := Cli.i_useGitFlow Samples.sampleInputs;
     Cli.i_plugins := Cli.i_plugins Samples.sampleInputs;
     Cli.i_currentVersion := Cli.i_currentVersion Samples.sampleInputs;
     Cli.i_projectName := Cli.i_projectName Samples.sampleInputs;
     Cli.i_currentBranch := Cli.i_currentBranch Samples.sampleInputs;
     Cli.i_bump := JNull;
     Cli.i_commits := Cli.i_commits Samples.sampleInputs;
     Cli.i_suggested := Cli.i_suggested Samples.sampleInputs;
     Cli.i_preId := Cli.i_preId Samples.sampleInputs |}.

End Notions.

(* ===================================================================== *)
(** * Properties *)
(* ===================================================================== *)

(** ** Strings *)

Section StringFacts.
Import JS Spec.

Lemma ascii_cases (P : ascii -> Prop) :
  (forall b0 b1 b2 b3 b4 b5 b6 b7, P (Ascii b0 b1 b2 b3 b4 b5 b6 b7)) ->
  forall c, P c.
Proof. intros H [b0 b1 b2 b3 b4 b5 b6 b7]. apply H. Qed.

Ltac by_chars :=
  let c := fresh "c" in
  intro c; pattern c; apply ascii_cases;
  intros [] [] [] [] [] [] [] []; vm_compute; reflexivity.

Lemma lowerChar_idem : forall c, lowerChar (lowerChar c) = lowerChar c.
Proof. by_chars. Qed.

Lemma isWhite_lowerChar : forall c, isWhite (lowerChar c) = isWhite c.
Proof. by_chars. Qed.

Lemma toLowerCase_idem s : toLowerCase (toLowerCase s) = toLowerCase s.
Proof.
  unfold toLowerCase.
  induction s as [|c s IH]; simpl; [reflexivity|].
  now rewrite lowerChar_idem, IH.
Qed.

Lemma isEmpty_smap f s : isEmpty (smap f s) = isEmpty s.
Proof. now destruct s. Qed.

Lemma isEmpty_true s : isEmpty s = true <-> s = EmptyString.
Proof. destruct s; simpl; split; congruence. Qed.

Lemma trimStart_noLead s : noLead (trimStart s).
Proof.
  induction s as [|c s IH]; simpl; [exact I|].
  destruct (isWhite c) eqn:E; [exact IH | exact E].
Qed.

Lemma trimStart_fixed s : noLead s -> trimStart s = s.
Proof. destruct s as [|c s]; simpl; [reflexivity|]. now intros ->. Qed.

Lemma trimEnd_head c s :
  isWhite c = false -> exists r, trimEnd (String c s) = String c r.
Proof.
  intros E. simpl. destruct (trimEnd s).
  - rewrite E. now exists EmptyString.
  - now eexists.
Qed.

Lemma trimEnd_noLead s : noLead s -> noLead (trimEnd s).
Proof.
  destruct s as [|c s]; [intros _; exact I|].
  intros E. destruct (trimEnd_head c s E) as [r ->]. exact E.
Qed.

Lemma trimEnd_idem s : trimEnd (trimEnd s) = trimEnd s.
Proof.
  induction s as [|c s IH]; [reflexivity|].
  simpl. destruct (trimEnd s) as [|d r] eqn:E.
  - destruct (isWhite c) eqn:W; simpl; [reflexivity | now rewrite W].
  - change (trimEnd (String c (String d r)) = String c (String d r)).
    change (trimEnd (String c (String d r)))
      with (match trimEnd (String d r) with
            | EmptyString => if isWhite c then EmptyString else String c EmptyString
            | r' => String c r'
            end).
    now rewrite IH.
Qed.

Lemma trim_idem s : trim (trim s) = trim s.
Proof.
  unfold trim.
  rewrite (trimStart_fixed (trimEnd (trimStart s))).
  - apply trimEnd_idem.
  - apply trimEnd_noLead, trimStart_noLead.
Qed.

Lemma trimStart_smap f s :
  (forall c, isWhite (f c) = isWhite c) ->
  trimStart (smap f s) = smap f (trimStart s).
Proof.
  intros Hf. induction s as [|c s IH]; simpl; [reflexivity|].
  rewrite Hf. now destruct (isWhite c).
Qed.

Lemma trimEnd_smap f s :
  (forall c, isWhite (f c) = isWhite c) ->
  trimEnd (smap f s) = smap f (trimEnd s).
Proof.
  intros Hf. induction s as [|c s IH]; simpl; [reflexivity|].
  rewrite IH, Hf. destruct (trimEnd s); simpl; [|reflexivity].
  now destruct (isWhite c).
Qed.

Lemma trim_toLowerCase s : trim (toLowerCase s) = toLowerCase (trim s).
Proof.
  unfold trim, toLowerCase.
  rewrite trimStart_smap, trimEnd_smap by apply isWhite_lowerChar.
  reflexivity.
Qed.

Lemma trimStart_blank s : trimStart s = EmptyString <-> sall isWhite s = true.
Proof.
  induction s as [|c s IH]; simpl; [tauto|].
  destruct (isWhite c); simpl; [exact IH|]. split; discriminate.
Qed.

Lemma trimEnd_blank s : trimEnd s = EmptyString <-> sall isWhite s = true.
Proof.
  induction s as [|c s IH]; simpl; [tauto|].
  destruct (trimEnd s) eqn:E.
  - destruct (isWhite c); simpl; [tauto|]. split; discriminate.
  - split; [discriminate|]. intros H. apply andb_prop in H as [_ H].
    apply IH in H. discriminate.
Qed.

Lemma trim_blank s : trim s = EmptyString <-> sall isWhite s = true.
Proof.
  unfold trim. rewrite trimEnd_blank. split.
  - intros H. apply trimStart_blank.
    pose proof (trimStart_noLead s) as L.
    destruct (trimStart s) as [|c r]; [reflexivity|].
    simpl in H, L. rewrite L in H. discriminate.
  - intros H. apply trimStart_blank in H. now rewrite H.
Qed.

End StringFacts.

(** ** Numbers and their decimal form *)

Section NumberFacts.
Import JS Spec.

Lemma digitsAcc_of_uint_acc d : forall acc,
  digitsAcc (Zpos acc) (NilEmpty.string_of_uint d) = Zpos (Pos.of_uint_acc d acc).
Proof.
  induction d; intros acc;
    cbn [NilEmpty.string_of_uint digitsAcc Pos.of_uint_acc];
    try reflexivity; rewrite <- IHd; f_equal;
    match goal with
    | |- context [digitVal ?c] =>
        let v := eval vm_compute in (digitVal c) in
        change (digitVal c) with v
    end; lia.
Qed.

Lemma digitsValue_of_uint d :
  digitsValue (NilEmpty.string_of_uint d) = Z.of_N (Pos.of_uint d).
Proof.
  unfold digitsValue.
  induction d; cbn [NilEmpty.string_of_uint digitsAcc Pos.of_uint];
    try reflexivity; try exact IHd;
    match goal with
    | |- context [digitVal ?c] =>
        let v := eval vm_compute in (digitVal c) in
        change (digitVal c) with v
    end; apply (digitsAcc_of_uint_acc d).
Qed.

Lemma sall_digits_of_uint d : sall isDigit (NilEmpty.string_of_uint d) = true.
Proof. induction d; simpl; auto. Qed.

(** The decimal form of a natural number: a non-empty run of digits that
    reads back as the number. *)
Lemma showZ_digits n :
  (0 <= n)%Z -> isDigits (showZ n) = true /\ digitsValue (showZ n) = n.
Proof.
  intros H. destruct n as [|p|p]; [split; reflexivity | | lia].
  unfold showZ. simpl Z.to_int. simpl NilZero.string_of_int.
  pose proof (DecimalPos.Unsigned.to_uint_nonnil p) as NN.
  pose proof (DecimalPos.Unsigned.of_to p) as OT.
  unfold NilZero.string_of_uint.
  destruct (Pos.to_uint p) eqn:U; [congruence | | | | | | | | | |];
    (split;
     [ unfold isDigits; rewrite sall_digits_of_uint; reflexivity
     | rewrite digitsValue_of_uint, OT; reflexivity ]).
Qed.

Lemma trimStart_digits s : sall isDigit s = true -> trimStart s = s.
Proof.
  destruct s as [|c s]; [reflexivity|]. simpl. intros H.
  apply andb_prop in H as [H _]. revert H. pattern c. apply ascii_cases.
  intros [] [] [] [] [] [] [] []; vm_compute; intros; congruence.
Qed.

Lemma trimEnd_digits s : sall isDigit s = true -> trimEnd s = s.
Proof.
  induction s as [|c s IH]; [reflexivity|]. simpl. intros H.
  apply andb_prop in H as [Hc Hs]. rewrite (IH Hs).
  destruct s; [|reflexivity].
  revert Hc. pattern c. apply ascii_cases.
  intros [] [] [] [] [] [] [] []; vm_compute; intros; congruence.
Qed.

Lemma Number_digits s : isDigits s = true -> Number s = Num (digitsValue s).
Proof.
  unfold isDigits, Number, trim. intros H. apply andb_prop in H as [NE D].
  rewrite (trimStart_digits s D), (trimEnd_digits s D).
  destruct s as [|c r]; [discriminate|].
  assert (P : Ascii.eqb c "+" = false /\ Ascii.eqb c "-" = false).
  { simpl in D. apply andb_prop in D as [D _]. revert D. pattern c.
    apply ascii_cases.
    intros [] [] [] [] [] [] [] []; vm_compute; intros; split; congruence. }
  destruct P as [-> ->]. unfold isDigits. simpl negb. now rewrite D.
Qed.

Lemma Number_showZ n : (0 <= n)%Z -> Number (showZ n) = Num n.
Proof.
  intros H. destruct (showZ_digits n H) as [D V].
  now rewrite (Number_digits _ D), V.
Qed.

Lemma split_no_sep sep s :
  sall (fun c => negb (Ascii.eqb c sep)) s = true -> split sep s = [s].
Proof.
  induction s as [|c s IH]; [reflexivity|]. simpl. intros H.
  apply andb_prop in H as [Hc Hs]. apply negb_true_iff in Hc.
  now rewrite Hc, (IH Hs).
Qed.

Lemma split_app sep s t :
  sall (fun c => negb (Ascii.eqb c sep)) s = true ->
  split sep (s ++ String sep t) = s :: split sep t.
Proof.
  induction s as [|c s IH]; simpl.
  - intros _. now rewrite Ascii.eqb_refl.
  - intros H. apply andb_prop in H as [Hc Hs]. apply negb_true_iff in Hc.
    now rewrite Hc, (IH Hs).
Qed.

Lemma sall_weaken (p q : ascii -> bool) s :
  (forall c, p c = true -> q c = true) -> sall p s = true -> sall q s = true.
Proof.
  intros I. induction s as [|c s IH]; simpl; [reflexivity|].
  intros H. apply andb_prop in H as [Hc Hs]. now rewrite (I c Hc), (IH Hs).
Qed.

Lemma showZ_no_dot n :
  (0 <= n)%Z -> sall (fun c => negb (Ascii.eqb c ".")) (showZ n) = true.
Proof.
  intros H. destruct (showZ_digits n H) as [D _].
  unfold isDigits in D. apply andb_prop in D as [_ D].
  revert D. apply sall_weaken. intros c. pattern c. apply ascii_cases.
  intros [] [] [] [] [] [] [] []; vm_compute; intros; congruence.
Qed.

Lemma split_plain l :
  Forall (fun n => (0 <= n)%Z) l -> l <> [] ->
  split "." (plain l) = map showZ l.
Proof.
  unfold plain. induction 1 as [|n l Hn Hl IH]; [congruence|]. intros _.
  destruct l as [|m l].
  - simpl. now apply split_no_sep, showZ_no_dot.
  - change (join "." (map showZ (n :: m :: l)))
      with (showZ n ++ String "." (join "." (map showZ (m :: l)))).
    rewrite split_app by now apply showZ_no_dot.
    rewrite IH by discriminate. reflexivity.
Qed.

Lemma parts_plain l :
  Forall (fun n => (0 <= n)%Z) l -> l <> [] ->
  map Number (split "." (plain l)) = map Num l.
Proof.
  intros F NE. rewrite (split_plain l F NE). rewrite map_map.
  clear NE. induction F as [|n l Hn Hl IH]; simpl; [reflexivity|].
  now rewrite (Number_showZ n Hn), IH.
Qed.

End NumberFacts.

(** ** version.js *)

Section VersionFacts.
Import JS Version Spec.

(** C2: the table of examples of the next version: major, minor, patch and
    hotfix bumps of 1.2.3, a first beta of the patch bump, and the next beta
    of an existing beta. *)
Theorem increaseVersion_examples :
  increaseVersion "1.2.3" "major" JNull = "2.0.0"
  /\ increaseVersion "1.2.3" "minor" JNull = "1.3.0"
  /\ increaseVersion "1.2.3" "patch" JNull = "1.2.4"
  /\ increaseVersion "1.2.3" "hotfix" JNull = "1.2.3.1"
  /\ increaseVersion "1.2.3" "patch" (JStr "beta") = "1.2.4-beta.0"
  /\ increaseVersion "1.2.4-beta.0" "patch" (JStr "beta") = "1.2.4-beta.1".
Proof. repeat split; vm_compute; reflexivity. Qed.

(** C3: on a current version that carries a pre-release segment, a patch
    bump without identifier parses the third component ["4-beta"] as a
    number and prints [NaN]: the result is no version at all, let alone a
    greater one. *)
Theorem increaseVersion_prerelease_patch_NaN :
  increaseVersion "1.2.4-beta.0" "patch" JNull = "1.2.NaN"
  /\ increaseVersion "1.2.4-beta.0" "hotfix" JNull = "1.2.NaN.1"
  /\ increaseVersion "1.2.4-beta.0" "patch" (JStr "rc") = "1.2.NaN-rc.0".
Proof. repeat split; vm_compute; reflexivity. Qed.

(** The base of a bump, from the components of a plain version. *)
Lemma bumpBase_plain l ty :
  Forall (fun n => (0 <= n)%Z) l -> l <> [] ->
  bumpBase (plain l) ty =
  let major := nth 0 l 0%Z in
  let minor := nth 1 l 0%Z in
  let patch := nth 2 l 0%Z in
  let build := nth 3 l 0%Z in
  if String.eqb ty "major" then plain [(major + 1)%Z; 0%Z; 0%Z]
  else if String.eqb ty "minor" then plain [major; (minor + 1)%Z; 0%Z]
  else if String.eqb ty "patch" then plain [major; minor; (patch + 1)%Z]
  else if String.eqb ty "hotfix" || String.eqb ty "build" then
    if (List.length l =? 3)%nat then plain [major; minor; patch; 1%Z]
    else plain [major; minor; patch; (build + 1)%Z]
  else plain [major; minor; (patch + 1)%Z].
Proof.
  intros F NE. unfold bumpBase. rewrite (parts_plain l F NE).
  rewrite length_map. unfold part.
  change (Num 0) with (Num 0%Z).
  rewrite !(map_nth Num l 0%Z).
  cbv zeta. unfold plain, show, add1.
  repeat match goal with
         | |- context [if ?b then _ else _] => destruct b
         end; reflexivity.
Qed.

(** X1: On a plain version of three or four components, each of them a
    non-negative integer below [Number.MAX_SAFE_INTEGER], every bump kind
    gives a plain version that is strictly greater in the component-wise
    order, with components that are safe integers still. *)
Lemma increaseVersion_plain_increases l ty :
  Forall Notions.safeComponent l ->
  List.length l = 3 \/ List.length l = 4 ->
  exists l',
    increaseVersion (plain l) ty JNull = plain l'
    /\ Forall (fun n => (0 <= n <= MAX_SAFE_INTEGER)%Z) l'
    /\ vlt l l'.
Proof.
  intros S L.
  assert (F : Forall (fun n => (0 <= n)%Z) l).
  { revert S. apply Forall_impl. unfold Notions.safeComponent. intros a H. lia. }
  assert (NE : l <> []) by (destruct l; [simpl in L; lia | discriminate]).
  unfold increaseVersion. rewrite (bumpBase_plain l ty F NE). cbv zeta.
  assert (B : forall k, (0 <= nth k l 0 < MAX_SAFE_INTEGER)%Z).
  { intros k. rewrite Forall_forall in S.
    destruct (nth_in_or_default k l 0%Z) as [I | ->];
      [exact (S _ I) | unfold MAX_SAFE_INTEGER; lia]. }
  pose proof (B 0) as Ha. pose proof (B 1) as Hb.
  pose proof (B 2) as Hc. pose proof (B 3) as Hd.
  assert (D3 : List.length l = 3 -> nth 3 l 0%Z = 0%Z).
  { intros E. apply nth_overflow. lia. }
  repeat match goal with
         | |- context [if ?b then _ else _] => destruct b eqn:?
         end;
    eexists; (split; [reflexivity|]);
    (split; [repeat (constructor; [unfold MAX_SAFE_INTEGER in *; lia|]); constructor|]);
    unfold vlt; cbn [nth]; try lia.
  apply Nat.eqb_eq in Heqb3. rewrite (D3 Heqb3). lia.
Qed.

(** Two patch bumps in a row add two to the patch component, as long as
    the numbers stay safe integers. *)
Lemma increaseVersion_patch_twice a b c :
  (0 <= a <= MAX_SAFE_INTEGER)%Z -> (0 <= b <= MAX_SAFE_INTEGER)%Z ->
  (0 <= c < MAX_SAFE_INTEGER - 1)%Z ->
  increaseVersion (increaseVersion (plain [a; b; c]) "patch" JNull) "patch" JNull
  = plain [a; b; (c + 2)%Z].
Proof.
  intros [Ha _] [Hb _] [Hc _]. unfold increaseVersion.
  rewrite (bumpBase_plain [a; b; c] "patch") by (repeat constructor; auto; discriminate).
  cbn [nth String.eqb Ascii.eqb Bool.eqb]. cbv zeta.
  change (if ("patch" =? "major")%string then _ else _)
    with (plain [a; b; (c + 1)%Z]).
  rewrite (bumpBase_plain [a; b; (c + 1)%Z] "patch")
    by (repeat constructor; auto; try lia; discriminate).
  cbv zeta. cbn [nth].
  change (if ("patch" =? "major")%string then _ else _)
    with (plain [a; b; (c + 1 + 1)%Z]).
  now replace (c + 1 + 1)%Z with (c + 2)%Z by lia.
Qed.

Lemma guard_blank p :
  negb (truthy (JStr p)) || negb (truthy (JStr (trim p))) = isEmpty (trim p).
Proof.
  simpl. rewrite !negb_involutive.
  destruct p; [reflexivity|]. reflexivity.
Qed.

Lemma increaseVersion_string cur ty p :
  increaseVersion cur ty (JStr p) =
  if isEmpty (trim p) then bumpBase cur ty
  else match preMatch (normalized p) cur with
       | Some (g1, g2) =>
           g1 ++ "-" ++ normalized p ++ "." ++ show (add1 (parseInt g2))
       | None => bumpBase cur ty ++ "-" ++ normalized p ++ ".0"
       end.
Proof. unfold increaseVersion. rewrite guard_blank. reflexivity. Qed.

Lemma normalized_idem p : normalized (normalized p) = normalized p.
Proof.
  unfold normalized.
  now rewrite trim_toLowerCase, trim_idem, toLowerCase_idem.
Qed.

Lemma trim_normalized p : trim (normalized p) = normalized p.
Proof. unfold normalized. now rewrite trim_toLowerCase, trim_idem. Qed.

Lemma isEmpty_normalized p : isEmpty (normalized p) = isEmpty (trim p).
Proof. unfold normalized, toLowerCase. apply isEmpty_smap. Qed.

(** C10: a pre-release identifier that is [null], no string, empty or white
    space only leaves the bumped base version as it is; any other identifier
    is trimmed and lower-cased before it is matched against the current
    version or appended, so that the result only depends on the normalized
    identifier. *)
Theorem increaseVersion_preId (cur ty : string) (preId : jsval) :
  (blankPreId preId -> increaseVersion cur ty preId = bumpBase cur ty)
  /\ (forall p, preId = JStr p -> ~ blankPreId preId ->
        increaseVersion cur ty preId =
        match preMatch (normalized p) cur with
        | Some (g1, g2) =>
            g1 ++ "-" ++ normalized p ++ "." ++ show (add1 (parseInt g2))
        | None => bumpBase cur ty ++ "-" ++ normalized p ++ ".0"
        end)
  /\ (forall p, preId = JStr p ->
        increaseVersion cur ty (JStr (normalized p)) = increaseVersion cur ty preId).
Proof.
  split; [|split].
  - destruct preId; try reflexivity.
    intros B. rewrite increaseVersion_string.
    apply trim_blank in B. now rewrite B.
  - intros p -> NB. rewrite increaseVersion_string.
    destruct (isEmpty (trim p)) eqn:E; [|reflexivity].
    exfalso. apply NB. simpl. apply trim_blank. now apply isEmpty_true.
  - intros p ->. rewrite !increaseVersion_string.
    now rewrite trim_normalized, isEmpty_normalized, normalized_idem.
Qed.

Lemma increaseVersion_preId_witness :
  increaseVersion "1.2.3" "minor" (JStr "  ") = "1.3.0"
  /\ increaseVersion "1.2.3-rc.4" "minor" (JStr " RC ") = "1.2.3-rc.5"
  /\ increaseVersion "1.2.3" "minor" (JStr "rc") = increaseVersion "1.2.3" "minor" (JStr " RC ").
Proof.
  split; [|split].
  - exact (proj1 (increaseVersion_preId "1.2.3" "minor" (JStr "  ")) eq_refl).
  - refine (proj1 (proj2 (increaseVersion_preId "1.2.3-rc.4" "minor" (JStr " RC ")))
              " RC " eq_refl _).
    simpl. discriminate.
  - exact (proj2 (proj2 (increaseVersion_preId "1.2.3" "minor" (JStr " RC ")))
             " RC " eq_refl).
Defined.

(** The flags after the loop, from the flags before it. *)
Lemma scan_fold msgs : forall f,
  let g := fold_left scan msgs f in
  hasBreaking g = hasBreaking f || existsb isBreaking msgs
  /\ hasFeat g = hasFeat f || existsb (fun m => negb (isBreaking m) && isFeat m) msgs
  /\ hasFix g =
       hasFix f || existsb (fun m => negb (isBreaking m) && negb (isFeat m) && isFix m) msgs.
Proof.
  induction msgs as [|m msgs IH]; intros f; simpl.
  - now rewrite !orb_false_r.
  - destruct (IH (scan f m)) as (Hb & Hf & Hx).
    rewrite Hb, Hf, Hx. unfold scan, isBreaking, isFeat, isFix.
    destruct (reBreaking (firstLine m)); simpl.
    + rewrite !orb_true_r. simpl. auto.
    + destruct (reFeat (firstLine m)); simpl.
      * rewrite !orb_true_r. simpl. auto.
      * destruct (reFix (firstLine m)); simpl;
          rewrite ?orb_true_r, ?orb_false_r; simpl; auto using orb_assoc.
Qed.

Lemma existsb_guarded {A} (p q : A -> bool) l :
  existsb p l = false ->
  existsb (fun x => negb (p x) && q x) l = existsb q l.
Proof.
  induction l as [|x l IH]; simpl; [reflexivity|].
  intros H. apply orb_false_elim in H as [Hx Hl].
  now rewrite Hx, IH.
Qed.


End VersionFacts.

(** ** config.js *)

Section ConfigFacts.
Import JS Config Effects Spec Samples.

Lemma firstExisting_withoutFiles h cwd names :
  firstExisting (withoutFiles h) cwd names = None.
Proof. induction names as [|n r IH]; simpl; [reflexivity | exact IH]. Qed.

Lemma loadFromFile_withoutFiles h cwd e :
  loadFromFile (withoutFiles h) cwd e = JObj [].
Proof.
  unfold loadFromFile, findConfigFile, discover.
  rewrite firstExisting_withoutFiles. simpl.
  destruct e; try reflexivity.
  destruct (truthy (JStr s)); reflexivity.
Qed.

Lemma findConfigFile_falsy h cwd e :
  truthy e = false -> findConfigFile h cwd e = findConfigFile h cwd JNull.
Proof.
  intros T. destruct e; try reflexivity.
  unfold findConfigFile. now rewrite T.
Qed.

Lemma loadConfig_empty_file h cwd args :
  (if truthy (config (parseArgv args))
   then loadFromFile h cwd (config (parseArgv args))
   else loadFromFile h cwd JNull) = JObj [] ->
  exists c o, loadConfig h cwd args = Ok (c, o).
Proof. intros E. unfold loadConfig. rewrite E. simpl. eauto. Qed.

(** C5, as the code has it: a file named by [--config] that does not exist,
    and a found file whose content does not parse, both leave the file
    layer empty; loading succeeds with the result it has without any file. *)
Theorem loadConfig_lenient (h : host) (cwd : string) (args : list string) :
  explicitMissing h cwd args \/ foundUnparsable h cwd args ->
  loadConfig h cwd args = loadConfig (withoutFiles h) cwd args
  /\ exists c o, loadConfig h cwd args = Ok (c, o).
Proof.
  intros H.
  assert (E : (if truthy (config (parseArgv args))
               then loadFromFile h cwd (config (parseArgv args))
               else loadFromFile h cwd JNull) = JObj []).
  { destruct H as [(e & Hc & Hne & Hm) | (p & text & Hf & Hp & Hj)].
    - rewrite Hc. destruct e as [|a e]; [congruence|]. simpl.
      unfold loadFromFile, findConfigFile. simpl.
      unfold existsSync. now rewrite Hm.
    - assert (L : loadFromFile h cwd (config (parseArgv args)) = JObj []).
      { unfold loadFromFile. now rewrite Hf, Hp, Hj. }
      destruct (truthy (config (parseArgv args))) eqn:T; [exact L|].
      rewrite <- L. unfold loadFromFile.
      now rewrite (findConfigFile_falsy h cwd _ T). }
  split; [|now apply loadConfig_empty_file].
  unfold loadConfig at 1 2. rewrite E.
  assert (E' : (if truthy (config (parseArgv args))
                then loadFromFile (withoutFiles h) cwd (config (parseArgv args))
                else loadFromFile (withoutFiles h) cwd JNull) = JObj []).
  { destruct (truthy (config (parseArgv args))); apply loadFromFile_withoutFiles. }
  rewrite E'. reflexivity.
Qed.

Lemma loadConfig_lenient_witness :
  loadConfig (sampleHost None) "/w" ["--config"; "missing.json"]
  = loadConfig (withoutFiles (sampleHost None)) "/w" ["--config"; "missing.json"]
  /\ loadConfig brokenHost "/w" ["patch"]
     = loadConfig (withoutFiles brokenHost) "/w" ["patch"].
Proof.
  split.
  - apply (loadConfig_lenient (sampleHost None) "/w" ["--config"; "missing.json"]).
    left. exists "missing.json".
    split; [reflexivity | split; [discriminate | reflexivity]].
  - apply (loadConfig_lenient brokenHost "/w" ["patch"]).
    right. exists "/w/.reliz.json", "{ gitFlow: ".
    split; [reflexivity | split; reflexivity].
Defined.

(** C5, as the claim has it, fails: with [--config missing.json] and no such
    file the loader returns the defaults instead of failing; and with a
    [.reliz.json] that holds no JSON the run goes on with the defaults
    without any warning. *)
Lemma explicit_missing_config_is_not_fatal :
  (exists o,
      loadConfig (sampleHost None) "/w" ["--config"; "missing.json"]
      = Ok (getDefaults, o)
      /\ config o = JStr "missing.json")
  /\ (exists o, loadConfig (hostAt brokenWorld []) "/w" ["patch"; "--dry-run"]
                = Ok (getDefaults, o))
  /\ fst (Cli.run "/w" ["patch"; "--dry-run"] brokenWorld []) = Exit 0
  /\ existsb isWarn (snd (Cli.run "/w" ["patch"; "--dry-run"] brokenWorld [])) = false.
Proof.
  split; [|split; [|split]].
  - eexists. split; vm_compute; reflexivity.
  - eexists. vm_compute. reflexivity.
  - vm_compute. reflexivity.
  - vm_compute. reflexivity.
Qed.

End ConfigFacts.

(** ** Computations *)

Section MonadFacts.
Import Config Effects.

Lemma bind_run {A B} (m : M A) (k : A -> M B) w h :
  bind m k w h =
  match m w h with
  | (Ok a, h') => k a w h'
  | (Throw msg, h') => (Throw msg, h')
  | (Exit c, h') => (Exit c, h')
  end.
Proof. reflexivity. Qed.

Lemma bind_ok {A B} (m : M A) (k : A -> M B) w h a h' :
  m w h = (Ok a, h') -> bind m k w h = k a w h'.
Proof. intros E. unfold bind. now rewrite E. Qed.

Lemma bind_throw {A B} (m : M A) (k : A -> M B) w h msg h' :
  m w h = (Throw msg, h') -> bind m k w h = (Throw msg, h').
Proof. intros E. unfold bind. now rewrite E. Qed.

Lemma bind_exit {A B} (m : M A) (k : A -> M B) w h c h' :
  m w h = (Exit c, h') -> bind m k w h = (Exit c, h').
Proof. intros E. unfold bind. now rewrite E. Qed.

Lemma try_throw {A} (m : M A) (handler : string -> M A) w h msg h' :
  m w h = (Throw msg, h') -> try_ m handler w h = handler msg w h'.
Proof. intros E. unfold try_. now rewrite E. Qed.

Lemma try_ok {A} (m : M A) (handler : string -> M A) w h a h' :
  m w h = (Ok a, h') -> try_ m handler w h = (Ok a, h').
Proof. intros E. unfold try_. now rewrite E. Qed.

Lemma execSync_done w h cmd out :
  w_sh w h cmd = Done out -> execSync cmd w h = (Ok out, (h ++ [Exec cmd])%list).
Proof. intros E. unfold execSync. now rewrite E. Qed.

Lemma execSync_failed w h cmd stderr :
  w_sh w h cmd = Failed stderr ->
  execSync cmd w h = (Throw (failure cmd stderr), (h ++ [Exec cmd])%list).
Proof. intros E. unfold execSync. now rewrite E. Qed.

Lemma execInherit_done w h cmd out :
  w_sh w h cmd = Done out -> execInherit cmd w h = (Ok tt, (h ++ [Exec cmd])%list).
Proof. intros E. unfold execInherit. now rewrite E. Qed.

Lemma execInherit_failed w h cmd stderr :
  w_sh w h cmd = Failed stderr ->
  execInherit cmd w h = (Throw (commandFailed cmd), (h ++ [Exec cmd])%list).
Proof. intros E. unfold execInherit. now rewrite E. Qed.

End MonadFacts.

(** ** gitFlow.js *)

Section GitFlowFacts.
Import JS Config Effects GitFlow Spec Samples.

(** Whatever the push wrote to the terminal, its error never names a
    non-fast-forward rejection of its own: the [catch] rethrows it. *)
Lemma pushReleaseBranch_fatal w h branch suffix stderr :
  w_sh w h (pushHead suffix) = Failed stderr ->
  nonFastForward (commandFailed (pushHead suffix)) = false ->
  pushReleaseBranch branch suffix w h
  = (Throw (commandFailed (pushHead suffix)), (h ++ [Exec (pushHead suffix)])%list).
Proof.
  intros P N. unfold pushReleaseBranch.
  rewrite (try_throw _ _ w h _ _ (execInherit_failed w h _ stderr P)).
  now rewrite N.
Qed.

(** C7, as the code has it: the push of the release branch runs with the
    terminal as its output, so the message of its error is
    [Command failed: git push origin HEAD<arguments>] whatever git
    printed, a non-fast-forward rejection included.  Unless the push
    arguments themselves hold the words [non-fast-forward], the test of
    the [catch] fails for every failure of the push: the workflow throws
    that error right after the first push, and neither the rebase nor a
    second push is run. *)
Theorem push_rejection_is_not_retried
  (w : world) (context : fields) (h0 h1 : history) (suffix stderr : string) :
  truthy (lookup "dryRun" context) = false ->
  prepareRelease context w h0 = (Ok suffix, h1) ->
  nonFastForward (commandFailed (pushHead suffix)) = false ->
  w_sh w h1 (pushHead suffix) = Failed stderr ->
  performGitFlowRelease context w h0
  = (Throw (commandFailed (pushHead suffix)), (h1 ++ [Exec (pushHead suffix)])%list).
Proof.
  intros D Prep N P. unfold performGitFlowRelease.
  rewrite (bind_ok _ _ w h0 suffix h1 Prep). rewrite D. simpl negb. cbv iota.
  rewrite !bind_run.
  now rewrite (pushReleaseBranch_fatal w h1 (releaseBranchOf context) suffix stderr P N).
Qed.

Lemma push_rejection_is_not_retried_witness :
  nonFastForward rejected = true
  /\ w_sh retryWorld (snd (prepareRelease (sampleContext "develop") retryWorld []))
       "git push origin HEAD --follow-tags" = Failed rejected
  /\ performGitFlowRelease (sampleContext "develop") retryWorld []
     = (Throw "Command failed: git push origin HEAD --follow-tags",
        (snd (prepareRelease (sampleContext "develop") retryWorld [])
         ++ [Exec "git push origin HEAD --follow-tags"])%list).
Proof.
  split; [reflexivity|]. split; [reflexivity|].
  exact (push_rejection_is_not_retried retryWorld (sampleContext "develop") []
           (snd (prepareRelease (sampleContext "develop") retryWorld []))
           " --follow-tags" rejected eq_refl eq_refl eq_refl eq_refl).
Defined.

Ltac closeSync :=
  cbn [fst snd]; eexists; split; [rewrite <- !app_assoc; reflexivity|];
  split;
  [ cbn [eachDone]; repeat split; intros; eauto
  | intros Q; try (now exfalso; eauto); eexists; reflexivity ].



End GitFlowFacts.

(** ** cli.js *)

Section CliFacts.
Import JS Config Effects Hooks Git Changelog Plugins Npm Providers Cli Samples.

(** C6: [--dry-run] on the command line and [dryRun: false] in the file:
    [loadConfig] reports the flag in [argv], but [run] reads
    [config.dryRun ?? argv.dryRun], where the file's [false] wins; the run
    is a real one and writes the manifest and the changelog. *)
Theorem dry_run_flag_loses_to_file :
  exists c o,
    loadConfig (sampleHost (Some dryFalse)) "/w" ["--dry-run"] = Ok (c, o)
    /\ Config.dryRun o = true
    /\ get c "dryRun" = JBool false
    /\ effectiveDryRun c o = JBool false
    /\ existsb isWrite
         (snd (run "/w" ["--dry-run"] (sampleWorld (Some dryFalse) "develop" never) []))
       = true.
Proof.
  do 2 eexists. split; [vm_compute; reflexivity|].
  repeat split; vm_compute; reflexivity.
Qed.

(** The final [catch] of the chain: an error thrown by a step is printed
    and the process exits with status 1. *)
Lemma chain_catch i w h msg h' :
  steps i w h = (Throw msg, h') ->
  chain i w h = (Exit 1, (h' ++ [Err ("Error: " ++ msg)])%list).
Proof. intros E. unfold chain. now rewrite (try_throw _ _ w h msg h' E). Qed.

Lemma getGitHubRepo_ok w h : exists r h', getGitHubRepo w h = (Ok r, h').
Proof.
  unfold getGitHubRepo, try_, bind, execSync, ret.
  destruct (w_sh w h "git remote get-url origin"); eauto.
Qed.

Lemma getGitLabRepo_ok w h : exists r h', getGitLabRepo w h = (Ok r, h').
Proof.
  unfold getGitLabRepo, try_, bind, execSync, ret.
  destruct (w_sh w h "git remote get-url origin"); eauto.
Qed.

(** Creating a release record ends with a value or with an error, never
    with an exit. *)
Lemma createRelease_no_exit provider tokenRef getRepo tagName releaseName cfg dry w h :
  (forall w h, exists r h', getRepo w h = (Ok r, h')) ->
  forall r h',
    createRelease provider tokenRef getRepo tagName releaseName cfg dry w h = (r, h') ->
    (exists v, r = Ok v) \/ (exists msg, r = Throw msg).
Proof.
  intros G r h'. unfold createRelease. rewrite bind_run. unfold ask at 1.
  destruct (negb _).
  { unfold bind, warn, emit, ret. intros E. inversion E. eauto. }
  rewrite bind_run.
  destruct (G w h) as (repo & h1 & ->).
  destruct repo; cbn [negb].
  2:{ unfold bind, warn, emit, ret. intros E. inversion E. eauto. }
  destruct dry.
  { unfold bind, log, emit, ret. intros E. inversion E. eauto. }
  unfold bind, emit, ask, log, emit, ret, throw.
  destruct (w_http w _ provider tagName); intros E; inversion E; eauto.
Qed.

Lemma githubStep_ok config tagName releaseName context w h :
  exists c h', githubStep config tagName releaseName context w h = (Ok c, h').
Proof.
  unfold githubStep. destruct (truthy _); [|unfold ret; eauto].
  unfold try_, bind, createGitHubRelease.
  destruct (createRelease "GitHub" "GITHUB_TOKEN" getGitHubRepo tagName releaseName
              (get config "github") false w h) as [r h'] eqn:E.
  destruct (createRelease_no_exit _ _ _ _ _ _ _ _ _ getGitHubRepo_ok _ _ E)
    as [(v & ->) | (msg & ->)].
  - unfold ret. eauto.
  - unfold warn, emit, ret. eauto.
Qed.

Lemma gitlabStep_ok config tagName releaseName context w h :
  exists c h', gitlabStep config tagName releaseName context w h = (Ok c, h').
Proof.
  unfold gitlabStep. destruct (truthy _); [|unfold ret; eauto].
  unfold try_, bind, createGitLabRelease.
  destruct (createRelease "GitLab" "GITLAB_TOKEN" getGitLabRepo tagName releaseName
              (get config "gitlab") false w h) as [r h'] eqn:E.
  destruct (createRelease_no_exit _ _ _ _ _ _ _ _ _ getGitLabRepo_ok _ _ E)
    as [(v & ->) | (msg & ->)].
  - unfold ret. eauto.
  - unfold warn, emit, ret. eauto.
Qed.

(** C9, as the code has it: once the release notes are built and the npm
    step has not failed, a failure of GitHub or of GitLab release creation
    is caught and logged as a warning, leaves the context (and its
    [releaseUrl]) as it was, and the rest of the pipeline runs; a failure of
    the npm step is thrown out of the publication phase, and the final
    [catch] of the chain makes it an exit with status 1. *)
Theorem publication_failures
  (i : inputs) (newVersion : jsval) (context : fields) (w : world)
  (h h1 : history) (body : string) :
  getReleaseNotesBody context w h = (Ok body, h1) ->
  let config := i_config i in
  let tagName := toString (tagNameFor config newVersion) in
  let releaseName := "Release " ++ toString newVersion in
  let npm := when (truthy (get (get config "npm") "publish"))
               (npmPublish (i_cwd i) (get config "npm") false) in
  (forall h2, npm w h1 = (Ok tt, h2) ->
     exists c1 h3 c2 h4,
       githubStep config tagName releaseName context w h2 = (Ok c1, h3)
       /\ gitlabStep config tagName releaseName c1 w h3 = (Ok c2, h4)
       /\ publish i newVersion context w h = afterProviders i c2 w h4
       /\ (forall msg h',
             truthy (get (get config "github") "release") = true ->
             createGitHubRelease tagName releaseName (get config "github") false w h2
             = (Throw msg, h') ->
             c1 = context
             /\ h3 = (h' ++ [Warn ("GitHub release failed: " ++ msg)])%list)
       /\ (forall msg h',
             truthy (get (get config "gitlab") "release") = true ->
             createGitLabRelease tagName releaseName (get config "gitlab") false w h3
             = (Throw msg, h') ->
             c2 = c1
             /\ h4 = (h' ++ [Warn ("GitLab release failed: " ++ msg)])%list))
  /\ (forall msg h2,
        npm w h1 = (Throw msg, h2) ->
        publish i newVersion context w h = (Throw msg, h2))
  /\ (forall j w0 h0 msg h', steps j w0 h0 = (Throw msg, h') ->
        exitCode (fst (chain j w0 h0)) = 1).
Proof.
  intros Notes config tagName releaseName npm.
  split; [|split].
  - intros h2 Npm.
    destruct (githubStep_ok config tagName releaseName context w h2) as (c1 & h3 & G).
    destruct (gitlabStep_ok config tagName releaseName c1 w h3) as (c2 & h4 & L).
    exists c1, h3, c2, h4. split; [exact G|]. split; [exact L|]. split; [|split].
    + unfold publish. fold config tagName releaseName.
      rewrite (bind_ok _ _ w h body h1 Notes).
      fold npm. rewrite (bind_ok _ _ w h1 tt h2 Npm).
      rewrite (bind_ok _ _ w h2 c1 h3 G).
      now rewrite (bind_ok _ _ w h3 c2 h4 L).
    + intros msg h' On Fail. revert G. unfold githubStep. rewrite On.
      rewrite (try_throw _ _ w h2 msg h').
      * unfold bind, warn, emit, ret. intros G. now inversion G.
      * now apply bind_throw.
    + intros msg h' On Fail. revert L. unfold gitlabStep. rewrite On.
      rewrite (try_throw _ _ w h3 msg h').
      * unfold bind, warn, emit, ret. intros L. now inversion L.
      * now apply bind_throw.
  - intros msg h2 Npm. unfold publish. fold config tagName releaseName.
    rewrite (bind_ok _ _ w h body h1 Notes). fold npm.
    now apply bind_throw.
  - intros j w0 h0 msg h' S. now rewrite (chain_catch j w0 h0 msg h' S).
Qed.

Lemma publication_failures_witness :
  (exists c2 h4,
      publish sampleInputs (JStr "1.2.4") sampleRelease
        (sampleWorld (Some npmOn) "main" never) []
      = afterProviders sampleInputs c2 (sampleWorld (Some npmOn) "main" never) h4)
  /\ publish sampleInputs (JStr "1.2.4") sampleRelease npmFails []
     = (Throw "Command failed: npm publish --tag latest",
        [Exec "npm publish --tag latest"]).
Proof.
  split.
  - destruct (proj1 (publication_failures sampleInputs (JStr "1.2.4") sampleRelease
                       (sampleWorld (Some npmOn) "main" never) [] [] sampleNotes
                       eq_refl)
                [Exec "npm publish --tag latest"] eq_refl)
      as (c1 & h3 & c2 & h4 & _ & _ & Pub & _).
    exists c2, h4. exact Pub.
  - exact (proj1 (proj2 (publication_failures sampleInputs (JStr "1.2.4") sampleRelease
                           npmFails [] [] sampleNotes eq_refl))
             "Command failed: npm publish --tag latest"
             [Exec "npm publish --tag latest"] eq_refl).
Defined.

(** C9, as the claim has it, fails: the registry answers the npm step with
    [E403]; nothing is logged as a warning, no provider is called, the
    error of the step is printed and the process exits with status 1. *)
Lemma npm_publish_failure_is_fatal :
  let r := run "/w" ["patch"; "--yes"] npmFails [] in
  fst r = Exit 1
  /\ last (snd r) (Log EmptyString)
     = Err "Error: Command failed: npm publish --tag latest"
  /\ existsb isWarn (snd r) = false
  /\ existsb isPost (snd r) = false
  /\ existsb isPost
       (snd (run "/w" ["patch"; "--yes"] (sampleWorld (Some npmOn) "main" never) []))
     = true.
Proof. repeat split; vm_compute; reflexivity. Qed.

End CliFacts.

(** ** Triples *)

Section TripleFacts.
Import JS Config Effects Spec.

Context {P : event -> Prop} {E : nat -> history -> Prop}.
Hypothesis E_prependable : prependable E.

Lemma tri_ret {A} (R : A -> Prop) (a : A) : R a -> tri P R E (ret a).
Proof.
  intros H w h. exists []. simpl. rewrite app_nil_r. auto.
Qed.

Lemma tri_throw {A} (R : A -> Prop) msg : tri P R E (throw msg).
Proof. intros w h. exists []. simpl. rewrite app_nil_r. auto. Qed.

Lemma tri_ask {A} (f : world -> history -> A) : tri P (fun _ => True) E (ask f).
Proof. intros w h. exists []. simpl. rewrite app_nil_r. auto. Qed.

Lemma tri_emit e : P e -> tri P (fun _ => True) E (emit e).
Proof. intros H w h. exists [e]. simpl. auto. Qed.

Lemma tri_execSync cmd : P (Exec cmd) -> tri P (fun _ => True) E (execSync cmd).
Proof.
  intros H w h. exists [Exec cmd]. unfold execSync.
  destruct (w_sh w h cmd); simpl; auto.
Qed.

Lemma tri_execInherit cmd :
  P (Exec cmd) -> tri P (fun _ => True) E (execInherit cmd).
Proof.
  intros H w h. exists [Exec cmd]. unfold execInherit.
  destruct (w_sh w h cmd); simpl; auto.
Qed.

Lemma tri_bind {A B} (R1 : A -> Prop) (R2 : B -> Prop) (m : M A) (k : A -> M B) :
  tri P R1 E m -> (forall a, R1 a -> tri P R2 E (k a)) -> tri P R2 E (bind m k).
Proof.
  intros Tm Tk w h. destruct (Tm w h) as (e1 & S1 & F1 & O1).
  unfold bind. destruct (m w h) as [[a|msg|c] h1]; simpl in *.
  - subst h1. destruct (Tk a O1 w (h ++ e1)%list) as (e2 & S2 & F2 & O2).
    exists (e1 ++ e2)%list. rewrite S2, app_assoc.
    split; [reflexivity|]. split; [now apply Forall_app|].
    destruct (fst (k a w (h ++ e1)%list)); auto.
  - exists e1. auto.
  - exists e1. auto.
Qed.

(** The continuation of a computation that never returns is not run. *)
Lemma tri_bind_stop {A B} (R : B -> Prop) (m : M A) (k : A -> M B) :
  tri P (fun _ => False) E m -> tri P R E (bind m k).
Proof. intros T. apply (tri_bind (fun _ => False)); [exact T | tauto]. Qed.

Lemma tri_seq {A B} (R : B -> Prop) (m : M A) (k : A -> M B) :
  tri P (fun _ => True) E m -> (forall a, tri P R E (k a)) -> tri P R E (bind m k).
Proof. intros Tm Tk. apply (tri_bind (fun _ => True)); auto. Qed.

Lemma tri_try {A} (R : A -> Prop) (m : M A) (handler : string -> M A) :
  tri P R E m -> (forall msg, tri P R E (handler msg)) -> tri P R E (try_ m handler).
Proof.
  intros Tm Th w h. destruct (Tm w h) as (e1 & S1 & F1 & O1).
  unfold try_. destruct (m w h) as [[a|msg|c] h1]; simpl in *.
  - exists e1. auto.
  - subst h1. destruct (Th msg w (h ++ e1)%list) as (e2 & S2 & F2 & O2).
    exists (e1 ++ e2)%list. rewrite S2, app_assoc.
    split; [reflexivity|]. split; [now apply Forall_app|].
    destruct (fst (handler msg w (h ++ e1)%list)); auto.
  - exists e1. auto.
Qed.

Lemma tri_when (b : bool) (m : M unit) :
  tri P (fun _ => True) E m -> tri P (fun _ => True) E (when b m).
Proof. intros T. destruct b; [exact T | now apply tri_ret]. Qed.

(** An event and then the exit. *)
Lemma tri_emit_exit {A} (R : A -> Prop) e c :
  P e -> E c [e] -> tri P R E (emit e ;; exit c).
Proof. intros H He w h. exists [e]. simpl. auto. Qed.

Lemma tri_forEach {A} (l : list A) (f : A -> M unit) :
  (forall x, tri P (fun _ => True) E (f x)) ->
  tri P (fun _ => True) E (forEach l f).
Proof.
  intros T. induction l as [|x l IH]; simpl.
  - now apply tri_ret.
  - apply tri_seq; [apply T | intros _; exact IH].
Qed.

End TripleFacts.

(** ** The dry run *)

Section DryRunFacts.
Import JS Config Effects Hooks Git Changelog Plugins Manifest Prompts Cli Spec Samples.

Lemma dryExit_prependable : prependable dryExit.
Proof.
  intros c e1 e2 [H | (H & pre & line & -> & L)]; [now left | right].
  split; [exact H|]. exists (e1 ++ pre)%list, line. now rewrite app_assoc.
Qed.

Local Abbreviation quiet m := (tri harmless (fun _ => True) dryExit m).

Ltac step :=
  match goal with
  | |- tri _ _ _ (bind (emit _) (fun _ => exit 1)) =>
      apply tri_emit_exit; [exact I | now left]
  | |- tri _ _ _ (bind (error _) (fun _ => exit 1)) =>
      apply tri_emit_exit; [exact I | now left]
  | |- tri _ _ _ (bind _ _) =>
      apply tri_seq; [exact dryExit_prependable | | intro]
  | |- tri _ _ _ (ret _) => apply tri_ret; exact I
  | |- tri _ _ _ (throw _) => apply tri_throw
  | |- tri _ _ _ (ask _) => apply tri_ask
  | |- tri _ _ _ (log _) => apply tri_emit; exact I
  | |- tri _ _ _ (warn _) => apply tri_emit; exact I
  | |- tri _ _ _ (error _) => apply tri_emit; exact I
  | |- tri _ _ _ (emit _) => apply tri_emit; exact I
  | |- tri _ _ _ (execSync _) =>
      apply tri_execSync;
      first [ reflexivity
            | unfold harmless, readOnly; cbn;
              match goal with |- String.prefix _ ?s = true => now destruct s end ]
  | |- tri _ _ _ (when false _) => apply (tri_ret _ tt); exact I
  | |- tri _ _ _ (when _ _) => apply tri_when
  | |- tri _ _ _ (try_ _ _) =>
      apply tri_try; [exact dryExit_prependable | | intro]
  | |- tri _ _ _ (forEach _ _) =>
      apply tri_forEach; [exact dryExit_prependable | intro]
  | |- tri _ _ _ (if ?b then _ else _) => destruct b
  | |- tri _ _ _ (match ?x with _ => _ end) => destruct x
  end.

Lemma quiet_loadPlugins cwd paths : quiet (loadPlugins cwd paths).
Proof.
  unfold loadPlugins.
  generalize (match paths with JArr l => l | _ => [] end). intros l.
  assert (G : forall acc : M (list plugin), quiet acc ->
              quiet (fold_left
                (fun acc p =>
                   plugins <- acc ;;
                   match p with
                   | JStr path =>
                       if isEmpty path then ret plugins
                       else
                         let resolved := pathResolve cwd path in
                         emit (Load resolved) ;;
                         r <- ask (fun w _ => w_require w resolved) ;;
                         match r with
                         | inl loaded => ret (plugins ++ [loaded])%list
                         | inr msg =>
                             warn ("Plugin " ++ dq ++ path ++ dq
                                   ++ " failed to load: " ++ msg) ;;
                             ret plugins
                         end
                   | _ => ret plugins
                   end) l acc)).
  { induction l as [|x l IH]; intros acc Q; simpl; [exact Q|].
    apply IH. step; [exact Q|]. repeat step. }
  apply G. step.
Qed.

Lemma quiet_runPluginLifecycle plugins method :
  quiet (runPluginLifecycle plugins method).
Proof. unfold runPluginLifecycle. repeat step. Qed.

Lemma quiet_runHooks_dry commands context : quiet (runHooks commands context true).
Proof. unfold runHooks. repeat step. Qed.

Lemma quiet_readJSON path : quiet (readJSON path).
Proof.
  intros w h. exists []. rewrite app_nil_r. unfold readJSON.
  destruct (w_file w h path); [destruct (w_parseJSON w s)|]; simpl; auto.
Qed.

Lemma quiet_getCurrentVersion cwd : quiet (getCurrentVersion cwd).
Proof.
  unfold getCurrentVersion. step; [apply quiet_readJSON|]. repeat step.
Qed.

Lemma quiet_ensureOriginRemote : quiet ensureOriginRemote.
Proof. unfold ensureOriginRemote. repeat step. Qed.

Lemma quiet_ensureCleanWorkingTree : quiet ensureCleanWorkingTree.
Proof. unfold ensureCleanWorkingTree. repeat step. Qed.

Lemma quiet_ensureGitFlowInstalled : quiet ensureGitFlowInstalled.
Proof. unfold ensureGitFlowInstalled. repeat step. Qed.

Lemma quiet_getCurrentBranch : quiet getCurrentBranch.
Proof. unfold getCurrentBranch. repeat step. Qed.

Lemma quiet_ensureUpstream branch b : quiet (ensureUpstream branch b).
Proof. unfold ensureUpstream. repeat step. Qed.

Lemma quiet_resolveToCommit ref : quiet (resolveToCommit ref).
Proof. unfold resolveToCommit. repeat step. Qed.

Lemma quiet_getLatestTag : quiet getLatestTag.
Proof.
  unfold getLatestTag.
  step; [|step].
  step; [step|].
  step; [apply quiet_resolveToCommit|].
  step; [step; [step | apply quiet_resolveToCommit]|].
  step; [|repeat step].
  step; [|step]. repeat step.
Qed.

Lemma quiet_getNewCommits : quiet getNewCommits.
Proof.
  unfold getNewCommits. step; [apply quiet_getLatestTag|].
  step; [|repeat step].
  step; [step|].
  step; [apply quiet_resolveToCommit|]. repeat step.
Qed.

Lemma quiet_resolveBump i : quiet (resolveBump i).
Proof.
  unfold resolveBump, selectBumpType, selectPreId. repeat step.
Qed.

Lemma quiet_increase currentVersion type preId :
  quiet (increase currentVersion type preId).
Proof. unfold increase. repeat step. Qed.

Lemma quiet_formatDate locale : quiet (formatDate locale).
Proof. unfold formatDate. repeat step. Qed.

Lemma dryRunLine_prefix i v b :
  String.prefix "[dry-run] Would release " (dryRunLine i v b) = true.
Proof.
  unfold dryRunLine. cbn -[toString]. now destruct (toString v ++ _).
Qed.

Lemma decide_dry i bump preId :
  truthy (i_dryRun i) = true ->
  tri harmless (fun _ => False) dryExit (decide i bump preId).
Proof.
  intros D. unfold decide, nextVersion. rewrite D.
  apply tri_seq; [exact dryExit_prependable | | intros newVersion].
  { repeat step. apply quiet_increase. }
  apply tri_seq; [exact dryExit_prependable | apply quiet_formatDate | intros dateStr].
  apply tri_bind_stop; [exact dryExit_prependable|].
  unfold when. apply tri_emit_exit; [exact I|].
  right. split; [reflexivity|].
  exists [], (dryRunLine i newVersion bump).
  split; [reflexivity | apply dryRunLine_prefix].
Qed.

Lemma chain_dry i :
  truthy (i_dryRun i) = true ->
  tri harmless (fun _ => False) dryExit (chain i).
Proof.
  intros D. unfold chain, steps.
  apply tri_try; [exact dryExit_prependable | | intros msg].
  - apply tri_seq; [exact dryExit_prependable | apply quiet_resolveBump | intros b].
    apply tri_bind_stop; [exact dryExit_prependable|].
    now apply decide_dry.
  - apply tri_emit_exit; [exact I | now left].
Qed.

(** What holds of harmless events and of the exits of a dry run holds of
    the events and the exits of a run with the dry-run flag. *)
Lemma dryEnd_prependable o : prependable (dryEnd o).
Proof.
  intros c e1 e2 [H | (H & pre & line & -> & L)]; [now left | right].
  split; [exact H|]. exists (e1 ++ pre)%list, line. now rewrite app_assoc.
Qed.

Lemma dryExit_dryEnd o c ext : dryExit c ext -> dryEnd o c ext.
Proof.
  intros [H | (H & pre & line & -> & L)]; [now left | right].
  split; [exact H|]. exists pre, line. auto.
Qed.

Lemma tri_weaken {A} (P P' : event -> Prop) (R : A -> Prop)
  (E E' : nat -> history -> Prop) (m : M A) :
  (forall e, P e -> P' e) -> (forall c ext, E c ext -> E' c ext) ->
  tri P R E m -> tri P' R E' m.
Proof.
  intros HP HE T w h. destruct (T w h) as (ext & S & F & O).
  exists ext. split; [exact S|]. split.
  - revert F. apply Forall_impl. exact HP.
  - destruct (fst (m w h)); auto.
Qed.

Lemma lift {A} (allowed : Prop) o (R : A -> Prop) (m : M A) :
  tri harmless R dryExit m -> tri (harmlessOr allowed) R (dryEnd o) m.
Proof.
  apply tri_weaken; [intros e H; now left | apply dryExit_dryEnd].
Qed.

(** The text of the changelog: the configured command is the one event
    that need not be harmless. *)
Lemma getChangelogText_info (P : event -> Prop) o (context : fields) :
  (forall e, harmless e -> P e) ->
  ((exists cmd,
       get (jor (get (lookup "config" context) "changelog") (JObj [])) "command"
       = JStr cmd /\ cmd <> EmptyString) ->
   forall line, P (Exec line)) ->
  tri P (fun _ => True) (dryEnd o) (getChangelogText context).
Proof.
  intros HL HX. unfold getChangelogText.
  destruct (get _ "command") as [| |b|n|cmd|l|fs] eqn:G;
    try (apply tri_ret; exact I).
  destruct (truthy (JStr cmd)) eqn:T; [|apply tri_ret; exact I].
  unfold runChangelogCommand.
  apply tri_seq; [apply dryEnd_prependable | | intros out; apply tri_ret; exact I].
  apply tri_execSync. apply HX. exists cmd. split; [reflexivity|].
  intros ->. discriminate.
Qed.

Lemma gatherWith_dry cwd c o :
  truthy (effectiveDryRun c o) = true ->
  tri (harmlessOr (infoCommand c o)) (fun i => i_dryRun i = effectiveDryRun c o)
    (dryEnd o) (gatherWith cwd c o).
Proof.
  intros D. unfold gatherWith. rewrite D.
  pose proof (dryEnd_prependable o) as PE.
  assert (HL : forall e, harmless e -> harmlessOr (infoCommand c o) e)
    by (intros e H; now left).
  assert (HX : releaseVersion o = false -> changelog o = true ->
               (exists cmd,
                   get (jor (get c "changelog") (JObj [])) "command" = JStr cmd
                   /\ cmd <> EmptyString) ->
               forall line, harmlessOr (infoCommand c o) (Exec line)).
  { intros RV CL X line. right. split; [now split|]. now exists line. }
  assert (L : forall A (R : A -> Prop) (m : M A),
             tri harmless R dryExit m ->
             tri (harmlessOr (infoCommand c o)) R (dryEnd o) m)
    by (intros A R m; apply lift).
  revert HL HX L PE. generalize (harmlessOr (infoCommand c o)). intros P HL HX L PE.
  apply tri_seq; [exact PE | apply L; repeat step | intros _].
  apply tri_seq; [exact PE | apply L, quiet_loadPlugins | intros plugins].
  apply tri_seq; [exact PE | apply L, quiet_runPluginLifecycle | intros _].
  apply tri_seq; [exact PE | apply L, quiet_runHooks_dry | intros _].
  apply tri_seq; [exact PE | apply L, quiet_getCurrentVersion | intros cur].
  destruct (releaseVersion o) eqn:RV.
  { apply tri_bind_stop; [exact PE|]. cbn [when].
    apply tri_seq; [exact PE | apply L, quiet_increase | intros next].
    apply tri_emit_exit; [apply HL; exact I|].
    right. split; [reflexivity|]. exists [], next. split; [reflexivity|].
    intros Q. congruence. }
  apply tri_seq; [exact PE | apply tri_ret; exact I | intros _].
  destruct (changelog o) eqn:CL.
  { apply tri_bind_stop; [exact PE|]. cbn [when].
    apply tri_seq; [exact PE | apply L, quiet_ensureOriginRemote | intros _].
    apply tri_seq; [exact PE | apply L, quiet_getNewCommits | intros commits].
    apply tri_seq; [exact PE | apply L, quiet_getLatestTag | intros latestTag].
    apply tri_seq; [exact PE | | intros text].
    - apply getChangelogText_info; [exact HL|]. exact (HX eq_refl eq_refl).
    - apply tri_emit_exit; [apply HL; exact I|].
      right. split; [reflexivity|]. exists [], text. split; [reflexivity|].
      intros _ Q. congruence. }
  apply tri_seq; [exact PE | apply tri_ret; exact I | intros _].
  apply tri_seq; [exact PE | apply L, quiet_ensureOriginRemote | intros _].
  apply tri_seq; [exact PE | apply L; step; apply quiet_ensureCleanWorkingTree | intros _].
  apply tri_seq; [exact PE | apply L; step; apply quiet_ensureGitFlowInstalled | intros _].
  apply tri_seq; [exact PE | apply L, quiet_getCurrentBranch | intros currentBranch].
  apply tri_seq; [exact PE | apply L; step; apply quiet_ensureUpstream | intros _].
  apply tri_seq; [exact PE | apply L; repeat step | intros _].
  apply tri_seq; [exact PE | apply L, quiet_getNewCommits | intros commits].
  apply tri_ret. reflexivity.
Qed.

(** The line a dry run prints carries the version the real run goes on
    with. *)
Lemma nextVersion_silent i bump preId w h :
  (exists v, nextVersion i bump preId w h = (Ok v, h))
  \/ (exists msg, nextVersion i bump preId w h = (Throw msg, h)).
Proof.
  unfold nextVersion, increase, bind, ret, throw.
  destruct (noIncrement (i_argv i) || false); [left; eauto|].
  destruct (i_currentVersion i); eauto.
Qed.

Lemma decide_dry_agrees i bump preId w h v d h' :
  truthy (i_dryRun i) = true ->
  decide (forReal i) bump preId w h = (Ok (v, d), h') ->
  decide i bump preId w h = (Exit 0, (h ++ [Log (dryRunLine i v bump)])%list).
Proof.
  intros D. unfold decide. rewrite D.
  change (nextVersion (forReal i) bump preId) with (nextVersion i bump preId).
  change (truthy (i_dryRun (forReal i))) with false.
  change (dryRunLine (forReal i)) with (dryRunLine i).
  change (i_config (forReal i)) with (i_config i).
  unfold bind at 1 5.
  destruct (nextVersion_silent i bump preId w h) as [[nv N] | [msg N]];
    rewrite N; [|discriminate].
  unfold formatDate.
  destruct (jor _ (JStr "fa-IR")); try discriminate.
  unfold bind, ask, when, ret, log, emit, exit.
  destruct (confirmRelease _ _ w h) as [[[]|msg|c] h2]; intros E; inversion E.
  subst. now rewrite N.
Qed.

(** The questions of the prompts are all that the resolution of the bump
    adds to the history, and it always gives a bump. *)
Lemma resolveBump_asks i w h :
  exists asks b,
    resolveBump i w h = (Ok b, (h ++ asks)%list) /\ Forall isQuestion asks.
Proof.
  unfold resolveBump, selectBumpType, selectPreId, bind, ret, emit, ask.
  repeat match goal with
         | |- context [if ?b then _ else _] => destruct b
         end;
    first
      [ eexists [], _; split; [rewrite app_nil_r; reflexivity | constructor]
      | eexists [_], _; split; [reflexivity | repeat constructor]
      | eexists [_; _], _; split; [rewrite <- app_assoc; reflexivity | repeat constructor] ].
Qed.

(** The chain of a dry run, step by step: the questions, then the line
    with the next version and exit 0, or the error and exit 1. *)
Lemma chain_dry_exact i w h :
  truthy (i_dryRun i) = true ->
  exists asks b,
    Forall isQuestion asks
    /\ resolveBump i w h = (Ok b, (h ++ asks)%list)
    /\ ((exists v,
            nextVersion i (fst b) (snd b) w (h ++ asks)%list
            = (Ok v, (h ++ asks)%list)
            /\ chain i w h
               = (Exit 0, ((h ++ asks) ++ [Log (dryRunLine i v (fst b))])%list))
        \/ (exists msg,
              chain i w h
              = (Exit 1, ((h ++ asks) ++ [Err ("Error: " ++ msg)])%list))).
Proof.
  intros D. destruct (resolveBump_asks i w h) as (asks & b & RB & Q).
  exists asks, b. split; [exact Q|]. split; [exact RB|].
  unfold chain, steps, try_. rewrite (bind_ok _ _ w h b _ RB).
  unfold decide. rewrite D. rewrite !bind_run.
  destruct (nextVersion_silent i (fst b) (snd b) w (h ++ asks)%list)
    as [[v N] | [msg N]]; rewrite N.
  - unfold formatDate.
    destruct (jor _ (JStr "fa-IR")); try (right; eexists; reflexivity).
    left. exists v. split; reflexivity.
  - right. exists msg. reflexivity.
Qed.




End DryRunFacts.

(** ** config.js: merging and the loaded configuration *)

Section MergeFacts.
Import JS Config Notions.

Lemma lookup_assign_same k v fs : lookup k (assign k v fs) = v.
Proof.
  induction fs as [|[k' w] fs IH]; simpl.
  - now rewrite String.eqb_refl.
  - destruct (String.eqb k' k) eqn:E; simpl; rewrite E; [reflexivity | exact IH].
Qed.

Lemma lookup_assign_other k k' v fs :
  k <> k' -> lookup k (assign k' v fs) = lookup k fs.
Proof.
  intros N. induction fs as [|[k0 w] fs IH]; simpl.
  - destruct (String.eqb k' k) eqn:E; [|reflexivity].
    apply String.eqb_eq in E. congruence.
  - destruct (String.eqb k0 k') eqn:E; simpl.
    + apply String.eqb_eq in E. subst k0.
      destruct (String.eqb k' k) eqn:E'; [|reflexivity].
      apply String.eqb_eq in E'. congruence.
    + destruct (String.eqb k0 k); [reflexivity | exact IH].
Qed.

Lemma lookup_mergeKey_other rec k k' v out :
  k <> k' -> lookup k (mergeKey rec k' v out) = lookup k out.
Proof.
  intros N. unfold mergeKey.
  destruct v; try reflexivity; now apply lookup_assign_other.
Qed.

Lemma lookup_mergeKey_same k v out :
  lookup k (mergeKey (fun t => deepMerge t v) k v out) = merged (lookup k out) v.
Proof.
  unfold mergeKey, merged. destruct v; try reflexivity; apply lookup_assign_same.
Qed.

Lemma deepMerge_object target sf :
  deepMerge target (JObj sf) = JObj (mergeFields sf (spread target)).
Proof.
  reflexivity.
Qed.

Lemma lookup_mergeFields_absent k sf : forall out,
  ~ In k (keys sf) -> lookup k (mergeFields sf out) = lookup k out.
Proof.
  induction sf as [|[k' v] sf IH]; intros out N; [reflexivity|].
  cbn [mergeFields]. rewrite IH.
  - apply lookup_mergeKey_other. intros ->. apply N. now left.
  - intros I. apply N. now right.
Qed.

Lemma lookup_mergeFields_present k v sf : forall out,
  NoDup (keys sf) -> In (k, v) sf ->
  lookup k (mergeFields sf out) = merged (lookup k out) v.
Proof.
  induction sf as [|[k' v'] sf IH]; intros out D I; [contradiction|].
  cbn [mergeFields]. unfold keys in D. cbn [map fst] in D.
  apply NoDup_cons_iff in D as [Nk D].
  destruct I as [E | I].
  - inversion E; subst k' v'.
    rewrite lookup_mergeFields_absent by exact Nk.
    apply lookup_mergeKey_same.
  - rewrite (IH _ D I).
    rewrite lookup_mergeKey_other; [reflexivity|].
    intros ->. apply Nk. change k' with (fst (k', v)). now apply in_map.
Qed.

(** X2: A key the source object does not have keeps the value of the target;
    the source has no [__proto__] key. *)
Theorem deepMerge_keeps_absent_keys (target : jsval) (sf : fields) (k : string) :
  ownKeys sf ->
  ~ In k (keys sf) ->
  get (deepMerge target (JObj sf)) k = lookup k (spread target).
Proof.
  intros _ N. rewrite deepMerge_object. cbn [get].
  now apply lookup_mergeFields_absent.
Qed.

Lemma deepMerge_keeps_absent_keys_witness :
  get (deepMerge getDefaults (JObj [("gitFlow", JBool false)])) "syncBranches"
  = JBool true.
Proof.
  refine (deepMerge_keeps_absent_keys getDefaults [("gitFlow", JBool false)]
            "syncBranches" _ _).
  - intros [H | []]. discriminate.
  - simpl. intros [H | []]. discriminate.
Defined.

(** X3: Under a key of a source object with distinct keys, none of them
    [__proto__], a scalar, [null] or an array replaces the value of the
    target as a whole (an array is never concatenated), an object is
    merged into the value of the target (or into the empty object when the
    target holds nothing truthy there), and [undefined] leaves the
    target's value. *)
Theorem deepMerge_by_key (target : jsval) (sf : fields) (k : string) (v : jsval) :
  ownKeys sf ->
  NoDup (keys sf) ->
  In (k, v) sf ->
  get (deepMerge target (JObj sf)) k =
  match v with
  | JObj _ => deepMerge (jor (lookup k (spread target)) (JObj [])) v
  | JUndef => lookup k (spread target)
  | _ => v
  end.
Proof.
  intros _ D I. rewrite deepMerge_object. cbn [get].
  now rewrite (lookup_mergeFields_present k v sf _ D I).
Qed.

Lemma deepMerge_by_key_witness :
  get (deepMerge getDefaults
         (JObj [("allowReleaseFrom", JArr [JStr "main"]);
                ("tag", JObj [("prefix", JStr "")])])) "allowReleaseFrom"
  = JArr [JStr "main"].
Proof.
  refine (deepMerge_by_key getDefaults
            [("allowReleaseFrom", JArr [JStr "main"]);
             ("tag", JObj [("prefix", JStr "")])]
            "allowReleaseFrom" (JArr [JStr "main"]) _ _ _).
  - intros [H | [H | []]]; discriminate.
  - repeat constructor; simpl; intuition discriminate.
  - now left.
Defined.

Lemma get_withField_same o k v : get (withField o k v) k = v.
Proof. unfold withField. cbn [get]. apply lookup_assign_same. Qed.

Lemma get_withField_other o k k' v :
  k <> k' -> get (withField o k' v) k = lookup k (spread o).
Proof. intros N. unfold withField. cbn [get]. now apply lookup_assign_other. Qed.

Lemma get_object fs k : get (JObj fs) k = lookup k fs.
Proof. reflexivity. Qed.

(** X4: What [loadConfig] returns is coherent: [argv.ci] is set exactly when
    [config.ci] is [true], and a pre-release identifier reported in [argv]
    is the one stored under [config.preRelease.id]. *)
Theorem loadConfig_argv_agrees_with_config
  (h : host) (cwd : string) (args : list string) (c : jsval) (o : options) :
  loadConfig h cwd args = Ok (c, o) ->
  ci o = isTrue (get c "ci")
  /\ (truthy (preid o) = true -> get (get c "preRelease") "id" = preid o).
Proof.
  unfold loadConfig.
  set (fileConfig := if truthy (config (parseArgv args)) then _ else _).
  destruct (negb (notNullish fileConfig)); [discriminate|].
  set (c3 := if truthy (e_bump (loadFromEnv h)) then _ else _).
  set (p := jor (jor (jor (preid (parseArgv args)) (e_preid (loadFromEnv h)))
                   (get (get c3 "preRelease") "id")) JNull).
  set (c4 := if truthy p then _ else c3).
  set (isCi := ci (parseArgv args) || isTrue (get c4 "ci")
               || notFalse (get c4 "ci") && isCiEnv h).
  intros E. inversion E as [[Ec Eo]]. clear E Eo. cbn [ci preid].
  split.
  - destruct isCi eqn:I.
    + now rewrite get_withField_same.
    + unfold isCi in I. apply orb_false_elim in I as [I _].
      apply orb_false_elim in I as [_ I]. now rewrite I.
  - intros T.
    assert (Tp : truthy p = true).
    { destruct (truthy p) eqn:Tp; [reflexivity|].
      revert T. unfold jor at 1. rewrite Tp. discriminate. }
    assert (J : jor p JNull = p) by (unfold jor; now rewrite Tp).
    rewrite J.
    assert (P4 : get (get c4 "preRelease") "id" = p).
    { unfold c4. rewrite Tp. rewrite get_withField_same, get_object.
      apply lookup_assign_same. }
    destruct isCi; [|exact P4].
    rewrite get_withField_other by discriminate.
    revert P4. unfold c4. rewrite Tp. unfold withField at 1. cbn [spread].
    intros P4. exact P4.
Qed.

Lemma loadConfig_argv_agrees_with_config_witness :
  exists c o,
    loadConfig (Samples.sampleHost None) "/w" ["--ci"; "--preid=RC"] = Ok (c, o)
    /\ ci o = isTrue (get c "ci")
    /\ get (get c "preRelease") "id" = JStr "RC".
Proof.
  eexists. eexists. split; [reflexivity|].
  split.
  - exact (proj1 (loadConfig_argv_agrees_with_config (Samples.sampleHost None) "/w"
                    ["--ci"; "--preid=RC"] _ _ eq_refl)).
  - exact (proj2 (loadConfig_argv_agrees_with_config (Samples.sampleHost None) "/w"
                    ["--ci"; "--preid=RC"] _ _ eq_refl) eq_refl).
Defined.

Lemma spread_withField o k v : spread (withField o k v) = assign k v (spread o).
Proof. reflexivity. Qed.

(** X5: A bump kind taken from the environment is one of the four known kinds,
    and it is the one stored under [config.bump]: without a bump on the
    command line, [argv.bump] is [null] or such a kind. *)
Theorem loadConfig_env_bump_is_known
  (h : host) (cwd : string) (args : list string) (c : jsval) (o : options) :
  loadConfig h cwd args = Ok (c, o) ->
  truthy (bump (parseArgv args)) = false ->
  bump o = JNull
  \/ exists b, bump o = JStr b /\ In b BUMP_TYPES /\ get c "bump" = JStr b.
Proof.
  assert (K : e_bump (loadFromEnv h) = JUndef
              \/ exists b, e_bump (loadFromEnv h) = JStr b
                           /\ b <> EmptyString /\ In b BUMP_TYPES).
  { unfold loadFromEnv. cbn [e_bump].
    destruct (env h "RELIZ_BUMP") as [b|]; [|now left].
    destruct (isEmpty b) eqn:Eb; cbn [negb andb]; [now left|].
    destruct (strIn b BUMP_TYPES) eqn:I; [|now left].
    right. exists b. split; [reflexivity|]. split.
    - intros ->. discriminate.
    - unfold strIn in I. apply existsb_exists in I as (x & Hx & Ex).
      apply String.eqb_eq in Ex. now subst x. }
  unfold loadConfig.
  remember (e_bump (loadFromEnv h)) as eb eqn:Heb.
  set (fileConfig := if truthy (config (parseArgv args)) then _ else _).
  destruct (negb (notNullish fileConfig)); [discriminate|].
  set (c2 := if e_dryRun (loadFromEnv h) then _ else _).
  set (c3 := if truthy eb then _ else c2).
  set (p := jor (jor (jor (preid (parseArgv args)) (e_preid (loadFromEnv h)))
                   (get (get c3 "preRelease") "id")) JNull).
  set (c4 := if truthy p then _ else c3).
  set (isCi := ci (parseArgv args) || isTrue (get c4 "ci")
               || notFalse (get c4 "ci") && isCiEnv h).
  intros E B. inversion E as [[Ec Eo]]. clear E Eo.
  change (bump _) with (jor (jor (bump (parseArgv args)) eb) JNull).
  destruct K as [K | (b & Eb & Nb & Ib)];
    [left; rewrite K; unfold jor; now rewrite B|].
  right. exists b.
  assert (Tb : truthy (JStr b) = true) by (destruct b; [congruence | reflexivity]).
  assert (G3 : lookup "bump" (spread c3) = JStr b).
  { unfold c3. rewrite Eb, Tb. rewrite spread_withField. apply lookup_assign_same. }
  assert (G4 : get c4 "bump" = JStr b /\ lookup "bump" (spread c4) = JStr b).
  { unfold c4. destruct (truthy p).
    - rewrite spread_withField. unfold withField. cbn [get].
      rewrite lookup_assign_other by discriminate. now split.
    - revert G3. unfold c3. rewrite Eb, Tb.
      rewrite spread_withField. unfold withField. cbn [get]. now split. }
  rewrite Eb. unfold jor. rewrite B. cbv iota. rewrite Tb.
  split; [reflexivity|]. split; [exact Ib|].
  destruct isCi.
  - rewrite get_withField_other by discriminate. apply G4.
  - apply G4.
Qed.

Lemma loadConfig_env_bump_is_known_witness :
  let h := mkHost (fun n => if String.eqb n "RELIZ_BUMP" then Some "minor" else None)
             (fun _ => None) (fun _ => None) in
  exists c o,
    loadConfig h "/w" ["--yes"] = Ok (c, o)
    /\ (bump o = JNull
        \/ exists b, bump o = JStr b /\ In b BUMP_TYPES /\ get c "bump" = JStr b).
Proof.
  intros h. eexists. eexists. split; [reflexivity|].
  exact (loadConfig_env_bump_is_known h "/w" ["--yes"] _ _ eq_refl eq_refl).
Defined.

Lemma parseArgs_dryRun args : forall out,
  ~ In "--config" args ->
  dryRun (parseArgs args out) = dryRun out || existsb (String.eqb "--dry-run") args.
Proof.
  induction args as [|a rest IH]; intros out N.
  - simpl. now rewrite orb_false_r.
  - assert (Na : String.eqb a "--config" = false).
    { apply String.eqb_neq. intros ->. apply N. now left. }
    assert (Nr : ~ In "--config" rest) by (intros I; apply N; now right).
    cbn [parseArgs existsb]. rewrite (String.eqb_sym "--dry-run" a).
    destruct (String.eqb a "--ci") eqn:E1.
    { apply String.eqb_eq in E1. subst a. rewrite (IH _ Nr). reflexivity. }
    destruct (String.eqb a "--dry-run") eqn:E2.
    { rewrite (IH _ Nr). cbn. now rewrite orb_true_r. }
    cbn [orb].
    repeat match goal with
           | |- context [if ?b then _ else _] =>
               lazymatch b with
               | context [String.eqb a "--config"] => fail
               | _ => destruct b eqn:?
               end
           end; try (rewrite (IH _ Nr); reflexivity).
    all: rewrite Na; cbn [andb];
      destruct rest as [|next rest'];
      repeat match goal with
             | |- context [if ?b then _ else _] => destruct b eqn:?
             end;
      try (rewrite (IH _ Nr)); cbn; rewrite ?orb_false_r; reflexivity.
Qed.

(** X6: When [--config] is not among the arguments, the dry-run option is set
    exactly when [--dry-run] is one of them, wherever it stands. *)
Theorem parseArgv_dry_run_flag (args : list string) :
  ~ In "--config" args ->
  (dryRun (parseArgv args) = true <-> In "--dry-run" args).
Proof.
  intros N. unfold parseArgv. rewrite (parseArgs_dryRun args noOptions N).
  cbn [dryRun noOptions orb]. rewrite existsb_exists. split.
  - intros (x & I & E). apply String.eqb_eq in E. now subst x.
  - intros I. exists "--dry-run". split; [exact I | apply String.eqb_refl].
Qed.

Lemma parseArgv_dry_run_flag_witness :
  dryRun (parseArgv ["minor"; "--yes"; "--dry-run"]) = true.
Proof.
  apply (parseArgv_dry_run_flag ["minor"; "--yes"; "--dry-run"]).
  - simpl. intuition discriminate.
  - simpl. auto.
Defined.

End MergeFacts.

(** ** version.js: plain versions and suggested bumps *)

Section BumpFacts.
Import JS Version Effects Spec Notions.

Lemma plain_versions_increase_witness :
  exists l',
    increaseVersion (plain [1; 9; 3; 7]%Z) "minor" JNull = plain l'
    /\ Forall (fun n => (0 <= n <= MAX_SAFE_INTEGER)%Z) l'
    /\ vlt [1; 9; 3; 7]%Z l'.
Proof.
  apply (increaseVersion_plain_increases [1; 9; 3; 7]%Z "minor").
  - repeat (constructor; [unfold safeComponent, MAX_SAFE_INTEGER; lia|]). constructor.
  - right. reflexivity.
Defined.

(** The suggestion, from which classes of subjects exist in the list. *)
Lemma suggest_by_existence msgs :
  suggestBumpFromCommits msgs =
  if existsb isBreaking msgs then Some "major"
  else if existsb isFeat msgs then Some "minor"
  else if existsb isFix msgs then Some "patch"
  else None.
Proof.
  unfold suggestBumpFromCommits.
  destruct (scan_fold msgs (mkFlags false false false)) as (Hb & Hf & Hx).
  simpl in Hb, Hf, Hx. rewrite Hb, Hf, Hx.
  destruct (existsb isBreaking msgs) eqn:B; [reflexivity|].
  rewrite (existsb_guarded isBreaking isFeat msgs B).
  destruct (existsb isFeat msgs) eqn:F; [reflexivity|].
  assert (E : existsb (fun m => negb (isBreaking m) && negb (isFeat m) && isFix m) msgs
              = existsb isFix msgs).
  { clear Hb Hf Hx. induction msgs as [|m l IH]; simpl; [reflexivity|].
    simpl in B, F.
    apply orb_false_elim in B as [Bm Bl]. apply orb_false_elim in F as [Fm Fl].
    now rewrite Bm, Fm, IH. }
  now rewrite E.
Qed.

Lemma firstLine_subject subject body :
  oneLine subject -> firstLine (subject ++ nl ++ body) = subject.
Proof.
  intros O. unfold firstLine, Effects.nl.
  change (subject ++ String "010" EmptyString ++ body)
    with (subject ++ String "010" body).
  now rewrite (split_app "010" subject body O).
Qed.

Lemma firstLine_oneLine subject : oneLine subject -> firstLine subject = subject.
Proof. intros O. unfold firstLine. now rewrite (split_no_sep "010" subject O). Qed.

(** X7: Only the subject line of a commit message is read: whatever its body
    holds (a [BREAKING CHANGE:] footer included), a message counts as its
    subject alone. *)
Theorem suggestBump_ignores_bodies (commits : list (string * string)) :
  Forall (fun c => oneLine (fst c)) commits ->
  suggestBumpFromCommits (map (fun c => fst c ++ nl ++ snd c) commits)
  = suggestBumpFromCommits (map fst commits).
Proof.
  intros F. rewrite !suggest_by_existence.
  assert (E : forall (re : string -> bool),
             existsb (fun m => re (firstLine m))
               (map (fun c => fst c ++ nl ++ snd c) commits)
             = existsb (fun m => re (firstLine m)) (map fst commits)).
  { intros re. induction F as [|c l Hc Hl IH]; cbn [map existsb]; [reflexivity|].
    now rewrite IH, (firstLine_subject _ _ Hc), (firstLine_oneLine _ Hc). }
  change isBreaking with (fun m => reBreaking (firstLine m)).
  change isFeat with (fun m => reFeat (firstLine m)).
  change isFix with (fun m => reFix (firstLine m)).
  now rewrite (E reBreaking), (E reFeat), (E reFix).
Qed.

Lemma suggestBump_ignores_bodies_witness :
  suggestBumpFromCommits ["fix: a" ++ nl ++ nl ++ "BREAKING CHANGE: the API"]
  = suggestBumpFromCommits ["fix: a"].
Proof.
  apply (suggestBump_ignores_bodies [("fix: a", nl ++ "BREAKING CHANGE: the API")]).
  constructor; [reflexivity | constructor].
Defined.

End BumpFacts.

(** ** hooks.js *)

Section HookFacts.
Import JS Config Effects Hooks Spec Notions.

Lemma prefix_dollar pat s :
  String.prefix (String "$" pat) s = true -> noDollar s -> False.
Proof.
  destruct s as [|c s]; [discriminate|]. cbn [String.prefix].
  unfold noDollar. cbn [sall].
  destruct (Ascii.eqb c "$") eqn:E.
  - intros _. discriminate.
  - apply Ascii.eqb_neq in E.
    destruct (ascii_dec "$" c) as [Q|N]; [now elim E | discriminate].
Qed.

Lemma replaceAllFuel_noDollar fuel pat by_ s :
  noDollar s -> replaceAllFuel fuel (String "$" pat) by_ s = s.
Proof.
  revert s. induction fuel as [|fuel IH]; [reflexivity|].
  intros [|c s] D; [reflexivity|]. cbn [replaceAllFuel].
  destruct (String.prefix (String "$" pat) (String c s)) eqn:Px.
  - exfalso. exact (prefix_dollar _ _ Px D).
  - f_equal. apply IH. unfold noDollar in *. cbn [sall] in D.
    now apply andb_prop in D as [_ D].
Qed.

(** X8: A command without a dollar sign has no placeholder: it is run as it
    is written, whatever the values of the context are; the keys of the
    context are identifiers. *)
Theorem interpolate_without_placeholder (cmd : string) (context : fields) :
  identKeys context -> noDollar cmd -> interpolate cmd context = cmd.
Proof.
  intros _ D. unfold interpolate.
  induction context as [|[k v] r IH]; [reflexivity|].
  cbn [fold_left fst snd].
  destruct (isScalar v); [|exact IH].
  unfold replaceAll. cbn [append isEmpty].
  now rewrite (replaceAllFuel_noDollar _ _ _ _ D).
Qed.

Lemma interpolate_without_placeholder_witness :
  interpolate "npm test" [("version", JStr "1.2.4"); ("name", JStr "demo")] = "npm test".
Proof.
  apply interpolate_without_placeholder; [|reflexivity].
  repeat constructor.
Defined.

(** X9: In a dry run the hooks only print: each command of the list gives one
    line naming it, nothing is executed and the call returns.  The context
    is one whose keys are identifiers and whose values are inserted as
    they are printed. *)
Theorem runHooks_dry_run_only_logs (cmds : list string) (context : fields) w h :
  identKeys context -> plainValues context ->
  runHooks (JArr (map JStr cmds)) context true w h
  = (Ok tt,
     (h ++ map (fun c => Log ("[dry-run] Would run: " ++ interpolate c context)) cmds)%list).
Proof.
  intros _ _. unfold runHooks. cbn [commandList].
  revert h. induction cmds as [|c r IH]; intros h.
  - cbn. now rewrite app_nil_r.
  - cbn [map forEach]. unfold bind at 1. unfold log, emit at 1.
    rewrite IH. now rewrite <- app_assoc.
Qed.

Lemma runHooks_dry_run_only_logs_witness :
  runHooks (JArr (map JStr ["npm test"; "echo ${version}"]))
    [("version", JStr "1.2.4"); ("count", JNum (Num 3))] true
    (Samples.sampleWorld None "main" Samples.never) []
  = (Ok tt,
     [Log "[dry-run] Would run: npm test"; Log "[dry-run] Would run: echo 1.2.4"]).
Proof.
  apply (runHooks_dry_run_only_logs ["npm test"; "echo ${version}"]
           [("version", JStr "1.2.4"); ("count", JNum (Num 3))]).
  - constructor; [reflexivity|]. constructor; [reflexivity | constructor].
  - constructor; [reflexivity|]. constructor; [|constructor].
    unfold plainValue, MAX_SAFE_INTEGER, snd. lia.
Defined.

(** X10: Hooks run in order and stop at the first command that fails: the
    commands after it are not run, and the error names the command and
    carries the message of the failed call, which names the command once
    more.  The context is one whose keys are identifiers, whose values
    are inserted as they are printed and whose working directory, when
    it has one, is a string. *)
Theorem runHooks_stops_at_first_failure
  (before after : list string) (cmd stderr : string) (context : fields) w h :
  identKeys context -> plainValues context ->
  stringOrFalsy (lookup "cwd" context) ->
  (forall h' c, In c before -> exists out, w_sh w h' (interpolate c context) = Done out) ->
  (forall h', w_sh w h' (interpolate cmd context) = Failed stderr) ->
  runHooks (JArr (map JStr (before ++ cmd :: after))) context false w h
  = (Throw ("Hook failed: " ++ interpolate cmd context ++ ". "
            ++ commandFailed (interpolate cmd context)),
     (h ++ map (fun c => Exec (interpolate c context)) (before ++ [cmd]))%list).
Proof.
  intros _ _ _ Hb Hc. unfold runHooks. cbn [commandList].
  revert h. induction before as [|c r IH]; intros h.
  - cbn [app map forEach]. unfold bind, try_, execInherit. rewrite Hc. reflexivity.
  - cbn [app map forEach].
    destruct (Hb h c (or_introl eq_refl)) as [out Ho].
    unfold bind at 1. unfold try_ at 1. unfold execInherit at 1.
    rewrite Ho.
    rewrite IH by (intros h' c' I; apply Hb; now right).
    now rewrite <- app_assoc.
Qed.

Lemma runHooks_stops_at_first_failure_witness :
  runHooks (JArr (map JStr (["npm test"] ++ "npm run lint" :: ["npm run build"])))
    [("cwd", JStr "/w")] false
    (Samples.sampleWorld None "main" (Samples.alwaysFails "npm run lint" "exit 2")) []
  = (Throw "Hook failed: npm run lint. Command failed: npm run lint",
     [Exec "npm test"; Exec "npm run lint"]).
Proof.
  apply (runHooks_stops_at_first_failure ["npm test"] ["npm run build"]
           "npm run lint" "exit 2" [("cwd", JStr "/w")]).
  - constructor; [reflexivity | constructor].
  - constructor; [reflexivity | constructor].
  - right. eexists. reflexivity.
  - intros h' c [<-|[]]. eexists. reflexivity.
  - intros h'. reflexivity.
Defined.

End HookFacts.

(** ** git.js *)

Section GitFacts.
Import JS Config Effects Git Cli Spec Notions.

Lemma noExit_prependable : prependable noExit.
Proof. intros c e1 e2 []. Qed.

(** A computation that cannot exit, inside a [try] whose handler returns. *)
Lemma tri_caught {A} (P : event -> Prop) (R : A -> Prop) (m : M A) (d : A) w h :
  tri P R noExit m -> R d ->
  exists a ext,
    try_ m (fun _ => ret d) w h = (Ok a, (h ++ ext)%list) /\ Forall P ext /\ R a.
Proof.
  intros T Rd. destruct (T w h) as (ext & S & F & O).
  unfold try_. destruct (m w h) as [[a|msg|c] h1]; simpl in *; subst h1.
  - now exists a, ext.
  - now exists d, ext.
  - destruct O.
Qed.

(** X11: Removing an existing tag never fails, whatever git answers; in a dry
    run it only lists the local and the remote tags and prints. *)
Theorem ensureTagNotExists_never_fails
  (version : string) (tagFields : fields) (dryRun : bool) w h :
  exists ext,
    ensureTagNotExists version (JObj tagFields) dryRun w h = (Ok tt, (h ++ ext)%list)
    /\ (dryRun = true -> Forall tagProbe ext).
Proof.
  unfold ensureTagNotExists.
  set (P := fun e => dryRun = true -> tagProbe e).
  match goal with
  | |- exists ext, try_ ?m _ w h = _ /\ _ =>
      assert (T : tri P (fun _ => True) noExit m)
  end.
  { apply tri_seq; [exact noExit_prependable | | intros out].
    { apply tri_execSync. intros _. now left. }
    apply tri_seq; [exact noExit_prependable | | intros _].
    { apply tri_when. destruct dryRun.
      - apply tri_emit. intros _. exact I.
      - apply tri_seq; [exact noExit_prependable | | intros _].
        + apply tri_execSync. discriminate.
        + apply tri_emit. discriminate. }
    apply tri_seq; [exact noExit_prependable | | intros remote].
    { apply tri_execSync. intros _. now right. }
    apply tri_when. destruct dryRun.
    - apply tri_emit. intros _. exact I.
    - apply tri_seq; [exact noExit_prependable | | intros _].
      + apply tri_execSync. discriminate.
      + apply tri_emit. discriminate. }
  destruct (tri_caught P _ _ tt w h T I) as ([] & ext & Eq & F & _).
  exists ext. split; [exact Eq|].
  intros D. apply Forall_impl with (2 := F). intros e He. exact (He D).
Qed.

(** X12: The latest tag is found without ever failing: whatever git answers,
    the result is a tag name or [null], and only commands that read the
    repository are run. *)
Theorem getLatestTag_never_fails w h :
  exists v ext,
    getLatestTag w h = (Ok v, (h ++ ext)%list)
    /\ Forall harmless ext
    /\ (v = JNull \/ exists t, v = JStr t).
Proof.
  unfold getLatestTag.
  set (R := fun v : jsval => v = JNull \/ exists t, v = JStr t).
  assert (Q : forall ref, tri harmless (fun _ => True) noExit (resolveToCommit ref)).
  { intros ref. unfold resolveToCommit.
    apply tri_try; [exact noExit_prependable | | intros _; now apply tri_ret].
    apply tri_seq; [exact noExit_prependable | | intros out; now apply tri_ret].
    apply tri_execSync. reflexivity. }
  match goal with
  | |- exists v ext, try_ ?m _ w h = _ /\ _ /\ _ =>
      assert (T : tri harmless R noExit m)
  end.
  { apply tri_seq; [exact noExit_prependable | | intros raw].
    { apply tri_execSync. reflexivity. }
    apply tri_seq; [exact noExit_prependable | apply Q | intros sha1].
    apply tri_seq; [exact noExit_prependable | | intros sha].
    { destruct (truthy sha1); [now apply tri_ret | apply Q]. }
    apply tri_seq; [exact noExit_prependable | | intros tagsAt].
    { destruct (truthy sha); [|now apply tri_ret].
      apply tri_seq; [exact noExit_prependable | | intros tags; now apply tri_ret].
      apply tri_execSync. unfold harmless, readOnly. cbn.
      match goal with
      | |- String.prefix _ ?s = true => now destruct s
      | |- _ => reflexivity
      end. }
    destruct tagsAt; apply tri_ret; right; eexists; reflexivity. }
  destruct (tri_caught harmless R _ JNull w h T (or_introl eq_refl))
    as (v & ext & Eq & F & Rv).
  now exists v, ext.
Qed.

(** X13: Without any tag the new commits are those of the whole history: when
    [git describe] fails, the log is read without a range. *)
Theorem getNewCommits_without_tag (msg out : string) w h :
  let describe := "git describe --tags --abbrev=0" in
  let wholeLog := "git log --oneline --no-merges" in
  w_sh w h describe = Failed msg ->
  w_sh w (h ++ [Exec describe])%list wholeLog = Done out ->
  getNewCommits w h
  = (Ok (parseLog out), (h ++ [Exec describe; Exec wholeLog])%list).
Proof.
  cbv zeta. intros D L.
  unfold getNewCommits, getLatestTag.
  unfold bind at 1. unfold try_ at 1. unfold bind at 1.
  rewrite (execSync_failed _ _ _ _ D). unfold ret at 1.
  cbn [truthy negb]. unfold try_, throw, bind.
  rewrite (execSync_done _ _ _ _ L). unfold ret.
  now rewrite <- app_assoc.
Qed.

(** X14: The tag that the linear release creates and the tag name that the
    release context and the providers are given agree exactly when
    [tag.prefix] is truthy, [null] or missing; an empty prefix makes the
    first [v<version>] and the second [<version>]. *)
Theorem tag_names_agree (config : jsval) (version : string) :
  let tagConfig := jor (get config "tag") (JObj []) in
  let prefix := get tagConfig "prefix" in
  JStr (tagNameOf version tagConfig) = tagNameFor config (JStr version)
  <-> (truthy prefix = true \/ isNullish prefix).
Proof.
  cbv zeta. unfold tagNameOf, tagNameFor, tagPrefixOf, isNullish.
  set (p := get (jor (get config "tag") (JObj [])) "prefix").
  assert (L : forall s : string, "v" ++ s <> s).
  { intros s E. apply (f_equal String.length) in E. simpl in E. lia. }
  destruct (truthy p) eqn:T.
  - split; [auto|]. intros _. unfold jor. rewrite T.
    destruct p; try discriminate; cbn [nullish]; now rewrite T.
  - unfold jor. rewrite T. cbn [truthy isEmpty negb toString].
    destruct p; cbn [nullish]; try rewrite T;
      split; try (intros _; now auto); try reflexivity;
      try (intros [? | [? | ?]]; discriminate);
      try (intros E; exfalso; injection E; apply L).
Qed.

Lemma slice_app a b : slice (String.length a) (a ++ b) = b.
Proof. induction a as [|c a IH]; [now destruct b | exact IH]. Qed.

Lemma spanWhile_app p a b :
  sall p a = true ->
  match b with EmptyString => True | String c _ => p c = false end ->
  spanWhile p (a ++ b) = a.
Proof.
  intros A B. induction a as [|c a IH]; cbn [append spanWhile].
  - destruct b as [|d b]; [reflexivity|]. cbn [spanWhile]. now rewrite B.
  - cbn [sall] in A. apply andb_prop in A as [Ac Aa]. now rewrite Ac, (IH Aa).
Qed.

Lemma white_not_hex : forall c, isWhite c = true -> isHexLower c = false.
Proof.
  intro c; pattern c; apply ascii_cases.
  intros [] [] [] [] [] [] [] []; vm_compute; intros; congruence.
Qed.

Lemma hex_not_white : forall c, isHexLower c = true -> isWhite c = false.
Proof.
  intros c H. destruct (isWhite c) eqn:W; [|reflexivity].
  now rewrite (white_not_hex c W) in H.
Qed.

Lemma hex_not_nl : forall c, isHexLower c = true -> negb (Ascii.eqb c "010") = true.
Proof.
  intro c; pattern c; apply ascii_cases.
  intros [] [] [] [] [] [] [] []; vm_compute; intros; congruence.
Qed.

(** The hash and the white space after it are dropped from a line. *)
Lemma stripHash_line hash ws subject :
  abbrevHash hash -> sall isWhite ws = true -> ws <> EmptyString -> noLead subject ->
  stripHash (hash ++ ws ++ subject) = subject.
Proof.
  intros [Hx Hl] Ws Wn Nl. unfold stripHash.
  assert (S1 : spanWhile isHexLower (hash ++ ws ++ subject) = hash).
  { apply spanWhile_app; [exact Hx|].
    destruct ws as [|c ws]; [congruence|]. cbn [append].
    cbn [sall] in Ws. apply andb_prop in Ws as [Wc _]. now apply white_not_hex. }
  rewrite S1, slice_app.
  assert (S2 : spanWhile isWhite (ws ++ subject) = ws).
  { apply spanWhile_app; [exact Ws|]. destruct subject; [exact I | exact Nl]. }
  rewrite S2, slice_app.
  apply Nat.leb_le in Hl. rewrite Hl.
  destruct ws; [congruence | reflexivity].
Qed.

Lemma sall_app p a b : sall p (a ++ b) = sall p a && sall p b.
Proof.
  induction a as [|c a IH]; [reflexivity|]. cbn [append sall].
  now rewrite IH, andb_assoc.
Qed.

Lemma trimEnd_app a b :
  trimEnd b <> EmptyString -> trimEnd (a ++ b) = a ++ trimEnd b.
Proof.
  intros N. induction a as [|c a IH]; [reflexivity|].
  cbn [append trimEnd]. rewrite IH.
  destruct (a ++ trimEnd b) eqn:E; [|reflexivity].
  destruct a; [simpl in E; congruence | discriminate].
Qed.

Lemma trimEnd_white_tail a b :
  sall isWhite b = true -> trimEnd (a ++ b) = trimEnd a.
Proof.
  intros W. induction a as [|c a IH]; cbn [append].
  - now apply trimEnd_blank.
  - cbn [trimEnd]. now rewrite IH.
Qed.

Lemma oneline_head c :
  abbrevHash (fst c) ->
  exists d r, onelineOf c = String d r /\ isWhite d = false.
Proof.
  intros [Hx Hl]. unfold onelineOf. destruct (fst c) as [|d r]; [simpl in Hl; lia|].
  exists d, (r ++ " " ++ snd c). split; [reflexivity|].
  cbn [sall] in Hx. apply andb_prop in Hx as [Hd _]. now apply hex_not_white.
Qed.

Lemma oneline_fixed c :
  abbrevHash (fst c) -> subjectLine (snd c) ->
  oneLine (onelineOf c) /\ trimEnd (onelineOf c) = onelineOf c
  /\ onelineOf c <> EmptyString.
Proof.
  intros [Hx Hl] (O & Ne & Nl & Te). unfold onelineOf. repeat split.
  - unfold oneLine in *. rewrite !sall_app, O.
    rewrite (sall_weaken _ _ _ hex_not_nl Hx). reflexivity.
  - change (fst c ++ " " ++ snd c) with (fst c ++ String " " (snd c)).
    assert (T : trimEnd (String " " (snd c)) = String " " (snd c)).
    { cbn [trimEnd]. rewrite Te. destruct (snd c); [congruence | reflexivity]. }
    rewrite trimEnd_app; rewrite T; [reflexivity | discriminate].
  - destruct (fst c); [simpl in Hl; lia | discriminate].
Qed.

Lemma join_lines_facts (ls : list string) :
  ls <> [] ->
  Forall (fun l => oneLine l /\ trimEnd l = l /\ l <> EmptyString) ls ->
  split "010" (join nl ls) = ls
  /\ trimEnd (join nl ls) = join nl ls
  /\ join nl ls <> EmptyString.
Proof.
  intros Ne F. induction F as [|l r (O & T & N) Fr IH]; [congruence|].
  destruct r as [|l' r'].
  - cbn [join]. split; [now apply split_no_sep|]. now split.
  - assert (Ne' : l' :: r' <> []) by discriminate.
    destruct (IH Ne') as (S' & T' & N').
    change (join nl (l :: l' :: r')) with (l ++ nl ++ join nl (l' :: r')).
    unfold nl at 1 3 5. cbn [append].
    change (l ++ String "010" (join nl (l' :: r')))
      with (l ++ String "010" (join nl (l' :: r'))).
    repeat split.
    + rewrite (split_app "010" l _ O). now rewrite S'.
    + assert (Q : trimEnd (String "010" (join nl (l' :: r')))
                  = String "010" (join nl (l' :: r'))).
      { cbn [trimEnd]. rewrite T'.
        destruct (join nl (l' :: r')); [congruence | reflexivity]. }
      rewrite trimEnd_app; rewrite Q; [reflexivity | discriminate].
    + destruct l; discriminate.
Qed.

(** X15: The output of [git log --oneline] is read back as the subjects of its
    commits, in order: the trailing line feed, the hashes and the space
    after each are dropped. *)
Theorem parseLog_oneline (commits : list (string * string)) :
  Forall (fun c => abbrevHash (fst c) /\ subjectLine (snd c)) commits ->
  parseLog (join nl (map onelineOf commits) ++ nl) = map snd commits.
Proof.
  intros F. unfold parseLog.
  destruct commits as [|c0 r0] eqn:Ec.
  { reflexivity. }
  rewrite <- Ec in *. assert (Ne : map onelineOf commits <> []) by now rewrite Ec.
  clear Ec.
  assert (Fl : Forall (fun l => oneLine l /\ trimEnd l = l /\ l <> EmptyString)
                 (map onelineOf commits)).
  { apply Forall_map. apply Forall_impl with (2 := F).
    intros c [H S]. apply (oneline_fixed c H S). }
  destruct (join_lines_facts _ Ne Fl) as (Sp & Te & Nn).
  assert (Tr : trim (join nl (map onelineOf commits) ++ nl)
               = join nl (map onelineOf commits)).
  { unfold trim. rewrite trimStart_fixed.
    - now rewrite (trimEnd_white_tail _ nl eq_refl).
    - destruct commits as [|c r]; [now elim Ne|].
      inversion F as [|? ? [H _] _]; subst.
      destruct (oneline_head c H) as (d & t & E & W).
      cbn [map]. destruct (map onelineOf r); cbn [join]; rewrite E; exact W. }
  rewrite Tr, Sp.
  clear Ne Fl Sp Te Nn Tr.
  induction F as [|c r [H S] Fr IH]; [reflexivity|].
  cbn [map filter].
  assert (K : negb (isEmpty (trim (onelineOf c))) = true).
  { destruct (oneline_head c H) as (d & t & E & W). rewrite E.
    unfold trim. cbn [trimStart]. rewrite W.
    destruct (trimEnd_head d t W) as [q ->]. reflexivity. }
  rewrite K. cbn [map]. rewrite IH. f_equal.
  destruct S as (O & N & L & T).
  apply (stripHash_line (fst c) " " (snd c) H eq_refl); [discriminate | exact L].
Qed.

Lemma parseLog_oneline_witness :
  parseLog (join nl (map onelineOf [("abc1234", "fix: a"); ("def5678", "feat: b")]) ++ nl)
  = ["fix: a"; "feat: b"].
Proof.
  apply (parseLog_oneline [("abc1234", "fix: a"); ("def5678", "feat: b")]).
  repeat constructor; try discriminate; cbn; lia.
Defined.

Lemma getNewCommits_without_tag_witness :
  getNewCommits
    (Samples.sampleWorld None "main"
       (Samples.alwaysFails "git describe --tags --abbrev=0" "fatal: No names found")) []
  = (Ok (parseLog ("abc1234 fix: a" ++ nl ++ "def5678 feat: b" ++ nl)),
     [Exec "git describe --tags --abbrev=0"; Exec "git log --oneline --no-merges"]).
Proof.
  apply (getNewCommits_without_tag "fatal: No names found"
           ("abc1234 fix: a" ++ nl ++ "def5678 feat: b" ++ nl) _ []); reflexivity.
Defined.

End GitFacts.

(** ** plugins.js *)

Section PluginFacts.
Import JS Config Effects Plugins Spec Notions.

(** X16: Running a lifecycle method never fails, and a plugin that fails does
    not stop the others: every plugin that implements the method is
    called once, in the order of the list; the only other events are
    warnings. *)
Theorem runPluginLifecycle_calls_every_plugin (plugins : list plugin) (method : string) w h :
  exists ext,
    runPluginLifecycle plugins method w h = (Ok tt, (h ++ ext)%list)
    /\ Forall callOrWarn ext
    /\ filter isCall ext
       = map (fun pl => Call (p_name pl) method) (filter (implements method) plugins).
Proof.
  unfold runPluginLifecycle. revert h.
  induction plugins as [|pl r IH]; intros h.
  - exists []. cbn. now rewrite app_nil_r.
  - cbn [forEach filter]. unfold implements at 1.
    destruct (strIn method (p_methods pl)) eqn:I; cbn [when].
    + destruct (w_call w (h ++ [Call (p_name pl) method])%list (p_name pl) method)
        as [msg|] eqn:C.
      * erewrite bind_ok;
          [|unfold bind, emit, ask, warn; rewrite C; unfold emit; reflexivity].
        destruct (IH ((h ++ [Call (p_name pl) method]) ++
                      [Warn ("Plugin " ++ p_name pl ++ " " ++ method ++ " failed: " ++ msg)])%list)
          as (ext & E & F & K).
        eexists (_ :: _ :: ext). rewrite E. split; [|split].
        -- now rewrite <- !app_assoc.
        -- repeat constructor. exact F.
        -- cbn [filter isCall map]. now rewrite K.
      * erewrite bind_ok;
          [|unfold bind, emit, ask; rewrite C; unfold ret; reflexivity].
        destruct (IH (h ++ [Call (p_name pl) method])%list) as (ext & E & F & K).
        eexists (_ :: ext). rewrite E. split; [|split].
        -- now rewrite <- !app_assoc.
        -- repeat constructor. exact F.
        -- cbn [filter isCall map]. now rewrite K.
    + erewrite bind_ok; [|reflexivity]. apply IH.
Qed.

End PluginFacts.

(** ** github.js and gitlab.js *)

Section ProviderFacts.
Import JS Config Effects Providers Spec Notions.

Lemma getRepo_reads (test : string -> bool) w h :
  exists r ext,
    try_ (url <- execSync "git remote get-url origin" ;; ret (test (trim url)))
      (fun _ => ret false) w h = (Ok r, (h ++ ext)%list)
    /\ Forall harmless ext.
Proof.
  unfold try_, bind, execSync.
  destruct (w_sh w h "git remote get-url origin").
  - eexists _, [_]. split; [reflexivity|]. now repeat constructor.
  - eexists _, [_]. split; [reflexivity|]. now repeat constructor.
Qed.

Lemma createRelease_dry provider tokenRef getRepo tagName releaseName cfg w h :
  (forall w h, exists r ext, getRepo w h = (Ok r, (h ++ ext)%list) /\ Forall harmless ext) ->
  exists ext,
    createRelease provider tokenRef getRepo tagName releaseName cfg true w h
    = (Ok JNull, (h ++ ext)%list) /\ Forall harmless ext.
Proof.
  intros G. unfold createRelease. unfold bind at 1. unfold ask at 1.
  destruct (envSet _ _); cbn [negb].
  - unfold bind at 1. destruct (G w h) as (r & ext & -> & F).
    destruct r; cbn [negb].
    + unfold bind, log, emit, ret. eexists (ext ++ [_])%list.
      rewrite app_assoc. split; [reflexivity|].
      apply Forall_app. split; [exact F | now repeat constructor].
    + unfold bind, warn, emit, ret. eexists (ext ++ [_])%list.
      rewrite app_assoc. split; [reflexivity|].
      apply Forall_app. split; [exact F | now repeat constructor].
  - unfold bind, warn, emit, ret. eexists [_]. split; [reflexivity|].
    now repeat constructor.
Qed.

(** X17: In a dry run neither provider is sent a request: creating a release
    returns [null] without failing, after events that change nothing. *)
Theorem createRelease_dry_run_never_posts (tagName releaseName : string) (cfg : jsval) w h :
  (exists ext,
     createGitHubRelease tagName releaseName cfg true w h = (Ok JNull, (h ++ ext)%list)
     /\ Forall harmless ext)
  /\ (exists ext,
        createGitLabRelease tagName releaseName cfg true w h = (Ok JNull, (h ++ ext)%list)
        /\ Forall harmless ext).
Proof.
  split; apply createRelease_dry; intros w' h'.
  - exact (getRepo_reads (matchSuffix reGitHub) w' h').
  - exact (getRepo_reads
             (fun u => matchSuffix reGitLab u || matchAll reSelfHosted u) w' h').
Qed.

End ProviderFacts.

(** ** version.js: the manifest; changelog.js: the entry *)

Section FileFacts.
Import JS Config Effects Hooks Changelog Manifest GitFlow Spec Notions.

(** X18: After the version has been set, the manifest read back gives the new
    version and the name it had, provided the file system keeps what is
    written and the printed manifest parses to itself. *)
Theorem setPackageVersion_then_getCurrentVersion
  (cwd text : string) (fs : fields) (newVersion : jsval) w h :
  let pkgPath := pathJoin cwd "package.json" in
  let printed := w_stringify w (JObj (assign "version" newVersion fs)) ++ nl in
  w_file w h pkgPath = Some text ->
  w_parseJSON w text = Some (JObj fs) ->
  w_file w (h ++ [Write pkgPath printed])%list pkgPath = Some printed ->
  w_parseJSON w printed = Some (JObj (assign "version" newVersion fs)) ->
  (setPackageVersion cwd newVersion ;; getCurrentVersion cwd) w h
  = (Ok (jor newVersion (JStr "0.0.0"), jor (lookup "name" fs) (JStr "project")),
     (h ++ [Write pkgPath printed])%list).
Proof.
  cbv zeta. intros F P F' P'.
  unfold setPackageVersion, getCurrentVersion.
  unfold bind, readJSON, ask, emit. rewrite F, P. cbv beta iota.
  rewrite F', P'. unfold ret. cbn [get].
  rewrite lookup_assign_same.
  now rewrite (lookup_assign_other "name" "version") by discriminate.
Qed.

Lemma setPackageVersion_then_getCurrentVersion_witness :
  (setPackageVersion "/w" (JStr "1.2.4") ;; getCurrentVersion "/w") diskWorld []
  = (Ok (JStr "1.2.4", JStr "demo"), [Write "/w/package.json" ("NEXT" ++ nl)]).
Proof.
  apply (setPackageVersion_then_getCurrentVersion "/w" "PKG"
           [("name", JStr "demo"); ("version", JStr "1.2.3")] (JStr "1.2.4")
           diskWorld []); reflexivity.
Defined.

(** X19: The changelog grows at its head: after two releases the entry of the
    second comes first, then the entry of the first, then what the file
    held before, provided the file system keeps what is written.  The
    template, when there is one, is a string, and the versions, dates and
    texts are values that are inserted as they are printed. *)
Theorem appendChangelogEntry_newest_first
  (path : string) (v1 d1 t1 v2 d2 t2 template : jsval) w h :
  let first := entryOf v1 d1 t1 template ++ contentOf w h path in
  stringOrFalsy template ->
  Forall plainValue [v1; d1; t1; v2; d2; t2] ->
  w_file w (h ++ [Write path first])%list path = Some first ->
  (appendChangelogEntry path v1 d1 t1 template ;;
   appendChangelogEntry path v2 d2 t2 template) w h
  = (Ok tt,
     (h ++ [Write path first;
            Write path (entryOf v2 d2 t2 template ++ entryOf v1 d1 t1 template
                        ++ contentOf w h path)])%list).
Proof.
  cbv zeta. intros _ _ F.
  unfold appendChangelogEntry, bind, ask, emit.
  fold (contentOf w h path). fold (entryOf v1 d1 t1 template).
  fold (entryOf v2 d2 t2 template).
  rewrite F. now rewrite <- app_assoc.
Qed.

Lemma appendChangelogEntry_newest_first_witness :
  (appendChangelogEntry "/w/CHANGELOG.md" (JStr "1.2.4") (JStr "d1") (JStr "- a") (JStr "${version}:") ;;
   appendChangelogEntry "/w/CHANGELOG.md" (JStr "1.3.0") (JStr "d2") (JStr "- b") (JStr "${version}:"))
    diskWorld []
  = (Ok tt, [Write "/w/CHANGELOG.md" "1.2.4:"; Write "/w/CHANGELOG.md" "1.3.0:1.2.4:"]).
Proof.
  apply (appendChangelogEntry_newest_first "/w/CHANGELOG.md"
           (JStr "1.2.4") (JStr "d1") (JStr "- a") (JStr "1.3.0") (JStr "d2") (JStr "- b")
           (JStr "${version}:") diskWorld []).
  - right. eexists. reflexivity.
  - repeat (constructor; [reflexivity|]). constructor.
  - reflexivity.
Defined.

(** X20: In the git-flow workflow the files do not depend on the commits: the
    context hands them over as an array, which fills no placeholder, so
    [${commits}] stays in the entry as it is written in the template. *)
Theorem updateFiles_ignores_commits (context : fields) (l l' : list jsval) w h :
  lookup "commits" context = JArr l ->
  updateFiles (assign "commits" (JArr l') context) w h = updateFiles context w h.
Proof.
  intros C. unfold updateFiles, appendChangelogEntry, interpolate.
  rewrite lookup_assign_same, C.
  rewrite !(fun k => lookup_assign_other k "commits") by discriminate.
  reflexivity.
Qed.

Lemma updateFiles_ignores_commits_witness :
  updateFiles (assign "commits" (JArr [JStr "feat: b"]) (Samples.sampleContext "develop"))
    diskWorld []
  = updateFiles (Samples.sampleContext "develop") diskWorld [].
Proof.
  apply (updateFiles_ignores_commits (Samples.sampleContext "develop") [JStr "fix: a"]).
  reflexivity.
Defined.

End FileFacts.

(** ** prompts.js *)

Section PromptFacts.
Import JS Config Effects Prompts Spec Notions.

(** X21: An empty answer to the question of the bump kind takes the suggestion
    when it is one of the five kinds, and [patch] when there is none,
    whatever the default bump is. *)
Theorem selectBumpType_empty_answer (suggested : jsval) (defaultBump : string) w h :
  w_answer w (h ++ [Ask QBump])%list QBump = EmptyString ->
  ((exists s, suggested = JStr s /\ In s BUMP_OPTIONS) ->
   selectBumpType suggested defaultBump false w h
   = (Ok suggested, (h ++ [Ask QBump])%list))
  /\ (truthy suggested = false ->
      selectBumpType suggested defaultBump false w h
      = (Ok (JStr "patch"), (h ++ [Ask QBump])%list)).
Proof.
  intros A. unfold selectBumpType, bind, emit, ask, ret. rewrite A. split.
  - intros (s & -> & I). cbn [isEmpty].
    repeat (destruct I as [<- | I]; [reflexivity|]). destruct I.
  - intros T. rewrite T. reflexivity.
Qed.

Lemma selectBumpType_empty_answer_witness :
  selectBumpType (JStr "minor") "patch" false Samples.plainWorld []
  = (Ok (JStr "minor"), [Ask QBump]).
Proof.
  apply (selectBumpType_empty_answer (JStr "minor") "patch" Samples.plainWorld [] eq_refl).
  exists "minor". split; [reflexivity|]. right. left. reflexivity.
Defined.

End PromptFacts.

(** ** gitFlow.js and linearRelease.js *)

Section FlowFacts.
Import JS Config Effects Hooks Git Changelog Manifest GitFlow Linear Spec Notions.

Lemma length_app a b : String.length (a ++ b) = String.length a + String.length b.
Proof. induction a as [|c a IH]; [reflexivity|]. cbn. now rewrite IH. Qed.

Lemma app_same_length a b x y :
  String.length a = String.length b -> (a ++ x = b ++ y)%string -> a = b.
Proof.
  revert b. induction a as [|c a IH]; intros [|d b] L E; try discriminate.
  - reflexivity.
  - cbn in L, E. injection E as -> E. f_equal. apply (IH b); [lia | exact E].
Qed.

Lemma forceUpdate_inj a b : forceUpdate a = forceUpdate b -> a = b.
Proof.
  unfold forceUpdate. cbn [append]. intros E.
  injection E as E.
  assert (L : String.length a = String.length b).
  { apply (f_equal String.length) in E. rewrite !length_app in E. cbn in E. lia. }
  exact (app_same_length a b _ _ L E).
Qed.

(** X22: When develop is the branch that is checked out, synchronising leaves
    it alone: the command that forces it onto its remote is never run. *)
Theorem syncBranches_spares_checked_out_develop (context : fields) w h :
  let config := lookup "config" context in
  strictEq (lookup "currentBranch" context) (developOf config) = true ->
  toString (mainOf config) <> toString (developOf config) ->
  exists ext,
    snd (syncBranches context w h) = (h ++ ext)%list
    /\ ~ In (Exec (forceUpdate (toString (developOf config)))) ext.
Proof.
  cbv zeta. intros Cur Ne.
  set (cmd := forceUpdate (toString (developOf (lookup "config" context)))).
  assert (T : tri (notExec cmd) (fun _ => True) noExit (syncBranches context)).
  { unfold syncBranches. rewrite Cur. cbn [negb].
    repeat (apply tri_seq; [exact noExit_prependable | | intro]);
      try (apply tri_emit; discriminate);
      try (apply tri_execInherit; unfold notExec, cmd, forceUpdate; cbn [append];
           discriminate).
    apply tri_execInherit. unfold notExec, cmd. intros E.
    apply Ne, forceUpdate_inj. congruence. }
  destruct (T w h) as (ext & S & F & _).
  exists ext. split; [exact S|].
  intros I. rewrite Forall_forall in F. now apply (F _ I).
Qed.

Lemma syncBranches_spares_checked_out_develop_witness :
  exists ext,
    snd (syncBranches (Samples.sampleContext "develop") Samples.plainWorld [])
    = ([] ++ ext)%list
    /\ ~ In (Exec "git branch --force develop origin/develop") ext.
Proof.
  apply (syncBranches_spares_checked_out_develop
           (Samples.sampleContext "develop") Samples.plainWorld []).
  - reflexivity.
  - discriminate.
Defined.

(** X23: A dry run of the linear release never fails and only prints: no file
    is written and no command is run.  The working directory of the
    context is a string, and the configuration is an object whose commit
    message, tag message and changelog path, when set, are strings. *)
Theorem performLinearRelease_dry_run_only_logs (context : fields) w h :
  let config := lookup "config" context in
  (exists dir, lookup "cwd" context = JStr dir) ->
  isObject config ->
  stringOrFalsy (get config "commitMessage") ->
  stringOrFalsy (get config "tagMessage") ->
  stringOrFalsy (get (get config "changelog") "path") ->
  truthy (lookup "dryRun" context) = true ->
  exists ext,
    performLinearRelease context w h = (Ok tt, (h ++ ext)%list)
    /\ Forall isLog ext.
Proof.
  cbv zeta. intros _ _ _ _ _ D.
  unfold performLinearRelease, createTag. rewrite D. cbn [negb].
  unfold bind, log, emit, ret.
  eexists [_; _; _; _; _]. rewrite <- !app_assoc. split; [reflexivity|].
  repeat constructor.
Qed.

Lemma performLinearRelease_dry_run_only_logs_witness :
  exists ext,
    performLinearRelease (assign "dryRun" (JBool true) (Samples.sampleContext "main"))
      Samples.plainWorld []
    = (Ok tt, ([] ++ ext)%list)
    /\ Forall isLog ext.
Proof.
  apply (performLinearRelease_dry_run_only_logs
           (assign "dryRun" (JBool true) (Samples.sampleContext "main"))
           Samples.plainWorld []).
  - eexists. reflexivity.
  - eexists. reflexivity.
  - right. eexists. reflexivity.
  - right. eexists. reflexivity.
  - right. eexists. reflexivity.
  - reflexivity.
Defined.

(** X24: A dry run of the git-flow release never fails: it lists the branches,
    which changes nothing, and prints; no file is written.  The
    configuration is an object. *)
Theorem performGitFlowRelease_dry_run_only_lists (context : fields) w h :
  isObject (lookup "config" context) ->
  truthy (lookup "dryRun" context) = true ->
  exists ext,
    performGitFlowRelease context w h = (Ok tt, (h ++ ext)%list)
    /\ Forall logOrBranches ext.
Proof.
  intros _ D. unfold performGitFlowRelease, prepareRelease. rewrite D. cbn [negb when].
  unfold bind, try_, execSync, log, emit, ret.
  destruct (w_sh w _ "git branch") as [out|msg].
  - destruct (includes _ out); cbn [negb];
      eexists [_; _; _; _; _]; rewrite <- !app_assoc;
      (split; [reflexivity|]); repeat constructor.
  - cbn [negb]. eexists [_; _; _; _; _]. rewrite <- !app_assoc.
    split; [reflexivity|]. repeat constructor.
Qed.

Lemma performGitFlowRelease_dry_run_only_lists_witness :
  exists ext,
    performGitFlowRelease (assign "dryRun" (JBool true) (Samples.sampleContext "develop"))
      Samples.plainWorld []
    = (Ok tt, ([] ++ ext)%list)
    /\ Forall logOrBranches ext.
Proof.
  apply (performGitFlowRelease_dry_run_only_lists
           (assign "dryRun" (JBool true) (Samples.sampleContext "develop"))
           Samples.plainWorld []).
  - eexists. reflexivity.
  - reflexivity.
Defined.

End FlowFacts.

(** ** cli.js: the whole run *)

Section RunFacts.
Import JS Config Effects Hooks Git Changelog Plugins Npm Providers Manifest
  Prompts GitFlow Linear Cli Spec Notions.

(** The events [P] allows: every event but a question, and the questions
    too unless the run is in CI mode. *)
Variable P : event -> Prop.
Variable isCi : bool.
Hypothesis silent_ok : forall e, isAsk e = false -> P e.
Hypothesis ask_ok : isCi = false -> forall q, P (Ask q).

Lemma zeroOrOne_prependable : prependable zeroOrOne.
Proof. intros c e1 e2 H. exact H. Qed.

Lemma tri_exit {A} (R : A -> Prop) c : c <= 1 -> tri P R zeroOrOne (exit c).
Proof. intros H w h. exists []. simpl. rewrite app_nil_r. auto. Qed.

Local Abbreviation fine m := (tri P (fun _ => True) zeroOrOne m).

Ltac walk :=
  repeat first
    [ apply tri_ret; exact I
    | apply tri_throw
    | apply tri_ask
    | apply tri_exit; lia
    | apply tri_emit; apply silent_ok; reflexivity
    | apply tri_execSync; apply silent_ok; reflexivity
    | apply tri_execInherit; apply silent_ok; reflexivity
    | assumption
    | match goal with
      | |- tri _ _ _ (if ?b then _ else _) => destruct b
      | |- tri _ _ _ (match ?x with _ => _ end) => destruct x
      | |- tri _ _ _ (when _ _) => apply tri_when
      | |- tri _ _ _ (try_ _ _) => apply tri_try; [exact zeroOrOne_prependable | | intro]
      | |- tri _ _ _ (forEach _ _) => apply tri_forEach; [exact zeroOrOne_prependable | intro]
      | |- tri _ _ _ (bind _ _) => apply tri_seq; [exact zeroOrOne_prependable | | intro]
      end ].

Lemma fine_readJSON path : fine (readJSON path).
Proof.
  intros w h. exists []. unfold readJSON. rewrite app_nil_r.
  destruct (w_file w h path) as [text|]; [|simpl; auto].
  destruct (w_parseJSON w text); simpl; auto.
Qed.

Lemma fine_embed {A} (f : world -> history -> outcome A) :
  (forall w h c, f w h = Exit c -> c <= 1) -> fine (embed f).
Proof.
  intros H w h. exists []. unfold embed. rewrite app_nil_r. simpl.
  split; [reflexivity|]. split; [constructor|].
  destruct (f w h) eqn:E; auto. exact (H w h _ E).
Qed.

Lemma fine_loadPlugins cwd paths : fine (loadPlugins cwd paths).
Proof.
  unfold loadPlugins.
  generalize (match paths with JArr l => l | _ => [] end). intros l.
  assert (G : forall acc : M (list plugin), fine acc ->
              fine (fold_left
                (fun acc p =>
                   plugins <- acc ;;
                   match p with
                   | JStr path =>
                       if isEmpty path then ret plugins
                       else
                         let resolved := pathResolve cwd path in
                         emit (Load resolved) ;;
                         r <- ask (fun w _ => w_require w resolved) ;;
                         match r with
                         | inl loaded => ret (plugins ++ [loaded])%list
                         | inr msg =>
                             warn ("Plugin " ++ dq ++ path ++ dq ++ " failed to load: " ++ msg) ;;
                             ret plugins
                         end
                   | _ => ret plugins
                   end) l acc)).
  { induction l as [|p l IH]; intros acc Ha; [exact Ha|].
    cbn [fold_left]. apply IH. walk. }
  apply G. walk.
Qed.

Lemma fine_runPluginLifecycle plugins method : fine (runPluginLifecycle plugins method).
Proof. unfold runPluginLifecycle. walk. Qed.

Lemma fine_runHooks commands context dry : fine (runHooks commands context dry).
Proof. unfold runHooks. walk. Qed.

Lemma fine_resolveToCommit ref : fine (resolveToCommit ref).
Proof. unfold resolveToCommit. walk. Qed.

Lemma fine_getLatestTag : fine getLatestTag.
Proof.
  unfold getLatestTag. pose proof fine_resolveToCommit as Q. walk; apply Q.
Qed.

Lemma fine_getNewCommits : fine getNewCommits.
Proof.
  unfold getNewCommits.
  pose proof fine_resolveToCommit as Q. pose proof fine_getLatestTag as L.
  walk; apply Q.
Qed.

Lemma fine_getCurrentVersion cwd : fine (getCurrentVersion cwd).
Proof. unfold getCurrentVersion. pose proof fine_readJSON as Q. walk; apply Q. Qed.

Lemma fine_setPackageVersion cwd v : fine (setPackageVersion cwd v).
Proof. unfold setPackageVersion. pose proof fine_readJSON as Q. walk; apply Q. Qed.

Lemma fine_appendChangelogEntry path v d t tpl : fine (appendChangelogEntry path v d t tpl).
Proof. unfold appendChangelogEntry. walk. Qed.

Lemma fine_getChangelogText context : fine (getChangelogText context).
Proof. unfold getChangelogText, runChangelogCommand. walk. Qed.

Lemma fine_getReleaseNotesBody context : fine (getReleaseNotesBody context).
Proof. unfold getReleaseNotesBody, runChangelogCommand. walk. Qed.

Lemma fine_ensureTagNotExists v cfg dry : fine (ensureTagNotExists v cfg dry).
Proof. unfold ensureTagNotExists. walk. Qed.

Lemma fine_syncBranches context : fine (syncBranches context).
Proof. unfold syncBranches. walk. Qed.

Lemma fine_performGitFlowRelease context : fine (performGitFlowRelease context).
Proof.
  unfold performGitFlowRelease, prepareRelease, updateFiles, pushReleaseBranch,
    finishRelease.
  pose proof fine_setPackageVersion as Q1. pose proof fine_appendChangelogEntry as Q2.
  walk; first [apply Q1 | apply Q2].
Qed.

Lemma fine_performLinearRelease context : fine (performLinearRelease context).
Proof.
  unfold performLinearRelease, createTag, pushBranch, pushTag, getCurrentBranch.
  pose proof fine_setPackageVersion as Q1. pose proof fine_appendChangelogEntry as Q2.
  walk; first [apply Q1 | apply Q2].
Qed.

Lemma fine_npmPublish cwd cfg dry : fine (npmPublish cwd cfg dry).
Proof. unfold npmPublish. walk. Qed.

Lemma fine_createRelease provider tokenRef getRepo tagName releaseName cfg dry :
  fine getRepo ->
  fine (createRelease provider tokenRef getRepo tagName releaseName cfg dry).
Proof. intros G. unfold createRelease. walk. Qed.

Lemma fine_publish i newVersion context : fine (publish i newVersion context).
Proof.
  unfold publish, githubStep, gitlabStep, afterProviders, runPluginLifecycleAsync,
    createGitHubRelease, createGitLabRelease.
  pose proof fine_getReleaseNotesBody as Q1. pose proof fine_npmPublish as Q2.
  pose proof fine_runPluginLifecycle as Q3. pose proof fine_runHooks as Q4.
  assert (G1 : fine getGitHubRepo) by (unfold getGitHubRepo; walk).
  assert (G2 : fine getGitLabRepo) by (unfold getGitLabRepo; walk).
  pose proof (fun a b c d e => fine_createRelease a b getGitHubRepo c d e false G1) as Q5.
  pose proof (fun a b c d e => fine_createRelease a b getGitLabRepo c d e false G2) as Q6.
  walk; first [apply Q1 | apply Q2 | apply Q3 | apply Q4 | apply Q5 | apply Q6].
Qed.

Lemma fine_workflow i bump newVersion dateStr : fine (workflow i bump newVersion dateStr).
Proof.
  unfold workflow.
  pose proof fine_getLatestTag as Q1. pose proof fine_getChangelogText as Q2.
  pose proof fine_runPluginLifecycle as Q3. pose proof fine_runHooks as Q4.
  pose proof fine_ensureTagNotExists as Q5. pose proof fine_syncBranches as Q6.
  pose proof fine_performGitFlowRelease as Q7.
  pose proof fine_performLinearRelease as Q8.
  walk; first [apply Q1 | apply Q2 | apply Q3 | apply Q4 | apply Q5 | apply Q6
              | apply Q7 | apply Q8].
Qed.

Lemma fine_selectBumpType suggested d : fine (selectBumpType suggested d isCi).
Proof.
  unfold selectBumpType. destruct isCi eqn:C; [walk|].
  apply tri_seq; [exact zeroOrOne_prependable | | intro].
  - apply tri_emit. now apply ask_ok.
  - walk.
Qed.

Lemma fine_selectPreId : fine (selectPreId isCi).
Proof.
  unfold selectPreId. destruct isCi eqn:C; [walk|].
  apply tri_seq; [exact zeroOrOne_prependable | | intro].
  - apply tri_emit. now apply ask_ok.
  - walk.
Qed.

Lemma fine_confirmRelease yes : fine (confirmRelease isCi yes).
Proof.
  unfold confirmRelease. destruct isCi eqn:C; [walk|].
  destruct yes; [walk|]. cbn [orb].
  apply tri_seq; [exact zeroOrOne_prependable | | intro].
  - apply tri_emit. now apply ask_ok.
  - walk.
Qed.

Lemma fine_increase cv ty p : fine (increase cv ty p).
Proof. unfold increase. walk. Qed.

Lemma fine_formatDate locale : fine (formatDate locale).
Proof. unfold formatDate. walk. Qed.

Lemma fine_chain i : truthy (i_isCi i) = isCi -> fine (chain i).
Proof.
  intros C. unfold chain, steps, release, decide, nextVersion, resolveBump.
  rewrite C.
  pose proof fine_selectBumpType as Q1. pose proof fine_selectPreId as Q2.
  pose proof fine_confirmRelease as Q3. pose proof fine_increase as Q4.
  pose proof fine_workflow as Q5. pose proof fine_publish as Q6.
  pose proof fine_formatDate as Q7.
  walk; first [apply Q1 | apply Q2 | apply Q3 | apply Q4 | apply Q5 | apply Q6
              | apply Q7].
Qed.

Lemma fine_gatherWith cwd c o : fine (gatherWith cwd c o).
Proof.
  unfold gatherWith, ensureOriginRemote, ensureCleanWorkingTree,
    ensureGitFlowInstalled, getCurrentBranch, ensureUpstream.
  pose proof fine_loadPlugins as Q1. pose proof fine_runPluginLifecycle as Q2.
  pose proof fine_runHooks as Q3. pose proof fine_getCurrentVersion as Q4.
  pose proof fine_increase as Q5. pose proof fine_getNewCommits as Q6.
  pose proof fine_getLatestTag as Q7. pose proof fine_getChangelogText as Q8.
  walk; first [apply Q1 | apply Q2 | apply Q3 | apply Q4 | apply Q5 | apply Q6
              | apply Q7 | apply Q8].
Qed.

End RunFacts.

Section ExitFacts.
Import JS Config Effects Cli Spec Notions.

Lemma loadConfig_no_exit h cwd args c : loadConfig h cwd args <> Exit c.
Proof.
  unfold loadConfig.
  repeat match goal with
         | |- context [match ?x with _ => _ end] => destruct x
         end; discriminate.
Qed.

(** X25: Whatever happens, the process ends with status 0 or 1: an error of a
    step of the chain is caught and gives 1, as does an error before the
    chain that nothing catches. *)
Theorem run_exit_status (cwd : string) (args : list string) w h :
  exitCode (fst (run cwd args w h)) <= 1.
Proof.
  assert (T : tri (fun _ => True) (fun _ : unit => True) zeroOrOne (run cwd args)).
  { unfold run, gather.
    apply tri_seq; [exact zeroOrOne_prependable | | intros i].
    - apply tri_seq; [exact zeroOrOne_prependable | | intros loaded].
      + apply fine_embed. intros w' h' c E.
        now elim (loadConfig_no_exit _ _ _ _ E).
      + apply fine_gatherWith. auto.
    - apply (fine_chain (fun _ => True) (truthy (i_isCi i))); auto. }
  destruct (T w h) as (ext & _ & _ & O).
  destruct (fst (run cwd args w h)); simpl; [lia | lia | exact O].
Qed.

(** X26: In CI mode the chain of the release never asks a question. *)
Theorem chain_in_ci_never_asks (i : inputs) w h :
  truthy (i_isCi i) = true ->
  exists ext,
    snd (chain i w h) = (h ++ ext)%list
    /\ Forall (fun e => isAsk e = false) ext.
Proof.
  intros C.
  assert (T : tri (fun e => isAsk e = false) (fun _ : unit => True) zeroOrOne (chain i)).
  { apply (fine_chain (fun e => isAsk e = false) true); [auto | discriminate | exact C]. }
  destruct (T w h) as (ext & S & F & _). now exists ext.
Qed.

Lemma chain_in_ci_never_asks_witness :
  exists ext,
    snd (chain ciInputs Samples.plainWorld []) = ([] ++ ext)%list
    /\ Forall (fun e => isAsk e = false) ext.
Proof.
  apply (chain_in_ci_never_asks ciInputs Samples.plainWorld []). reflexivity.
Defined.

End ExitFacts.

(** ** Matching *)

Section MatchFacts.
Import JS Spec Notions.

Lemma matchAll_Void s : matchAll Void s = false.
Proof. induction s; [reflexivity | exact IHs]. Qed.

Lemma matchAll_Eps s : matchAll Eps s = true <-> s = EmptyString.
Proof.
  destruct s; simpl; [tauto|]. rewrite matchAll_Void. split; discriminate.
Qed.

Lemma matchAll_Alt a b s : matchAll (Alt a b) s = matchAll a s || matchAll b s.
Proof. revert a b. induction s as [|c s IH]; intros a b; [reflexivity | apply IH]. Qed.

Lemma matchAll_Cls p s :
  matchAll (Cls p) s = true <-> exists c, s = String c EmptyString /\ p c = true.
Proof.
  destruct s as [|c s]; simpl.
  - split; [discriminate | intros (c & E & _); discriminate].
  - destruct (p c) eqn:Pc.
    + rewrite matchAll_Eps. split.
      * intros ->. now exists c.
      * intros (d & E & _). now injection E.
    + rewrite matchAll_Void. split; [discriminate|].
      intros (d & E & Pd). injection E as -> _. congruence.
Qed.

Lemma matchAll_Cat a b s :
  matchAll (Cat a b) s = true
  <-> exists s1 s2, s = s1 ++ s2 /\ matchAll a s1 = true /\ matchAll b s2 = true.
Proof.
  revert a. induction s as [|c s IH]; intros a.
  - simpl. split.
    + intros H. apply andb_prop in H as [Ha Hb]. now exists EmptyString, EmptyString.
    + intros (s1 & s2 & E & Ha & Hb).
      destruct s1; [|discriminate]. destruct s2; [|discriminate].
      simpl in Ha, Hb. now rewrite Ha, Hb.
  - cbn [matchAll deriv]. split.
    + intros H. destruct (nullable a) eqn:Na.
      * rewrite matchAll_Alt in H. apply orb_prop in H as [H|H].
        -- apply IH in H as (s1 & s2 & -> & Ha & Hb).
           now exists (String c s1), s2.
        -- now exists EmptyString, (String c s).
      * apply IH in H as (s1 & s2 & -> & Ha & Hb).
        now exists (String c s1), s2.
    + intros (s1 & s2 & E & Ha & Hb). destruct s1 as [|d s1].
      * simpl in E, Ha. subst s2. rewrite Ha, matchAll_Alt.
        simpl in Hb. rewrite Hb. apply orb_true_r.
      * simpl in E. injection E as <- ->. simpl in Ha.
        assert (K : matchAll (Cat (deriv c a) b) (s1 ++ s2) = true).
        { apply IH. now exists s1, s2. }
        destruct (nullable a); [|exact K]. rewrite matchAll_Alt, K. reflexivity.
Qed.

Lemma matchAll_Star_Cls p s : matchAll (Star (Cls p)) s = true <-> sall p s = true.
Proof.
  induction s as [|c s IH]; [simpl; tauto|].
  cbn [matchAll deriv sall]. rewrite matchAll_Cat. split.
  - intros (s1 & s2 & E & H1 & H2). destruct (p c); [|now rewrite matchAll_Void in H1].
    apply matchAll_Eps in H1. subst s1. simpl in E. subst s2. now apply IH.
  - intros H. apply andb_prop in H as [Pc Ps]. rewrite Pc.
    exists EmptyString, s. repeat split. now apply IH.
Qed.

Lemma matchAll_plus_Cls p s :
  matchAll (plus (Cls p)) s = true <-> s <> EmptyString /\ sall p s = true.
Proof.
  unfold plus. rewrite matchAll_Cat. split.
  - intros (s1 & s2 & -> & H1 & H2). apply matchAll_Cls in H1 as (c & -> & Pc).
    apply matchAll_Star_Cls in H2. simpl. rewrite Pc, H2. split; [discriminate | reflexivity].
  - intros [N H]. destruct s as [|c s]; [congruence|].
    cbn [sall] in H. apply andb_prop in H as [Pc Ps].
    exists (String c EmptyString), s. repeat split.
    + apply matchAll_Cls. now exists c.
    + now apply matchAll_Star_Cls.
Qed.

Lemma matchAll_chr c s : matchAll (chr c) s = true <-> s = String c EmptyString.
Proof.
  unfold chr. rewrite matchAll_Cls. split.
  - intros (d & -> & E). apply Ascii.eqb_eq in E. now subst.
  - intros ->. exists c. split; [reflexivity | apply Ascii.eqb_refl].
Qed.

Lemma matchAll_litI l s :
  matchAll (litI l) s = true <-> toLowerCase s = toLowerCase l.
Proof.
  revert s. induction l as [|c l IH]; intros s.
  - cbn [litI]. rewrite matchAll_Eps. unfold toLowerCase.
    destruct s; simpl; split; congruence.
  - cbn [litI]. rewrite matchAll_Cat. split.
    + intros (s1 & s2 & -> & H1 & H2). unfold chrI in H1.
      apply matchAll_Cls in H1 as (d & -> & E). apply Ascii.eqb_eq in E.
      apply IH in H2. unfold toLowerCase in *. simpl. now rewrite E, H2.
    + intros E. destruct s as [|d s]; [discriminate|].
      unfold toLowerCase in E. simpl in E. injection E as Ed Es.
      exists (String d EmptyString), s. repeat split.
      * unfold chrI. apply matchAll_Cls. exists d. split; [reflexivity|].
        now apply Ascii.eqb_eq.
      * now apply IH.
Qed.

(** What the tail of the pattern of a pre-release version matches. *)
Lemma matchAll_preTail id rest :
  matchAll (Version.preTail id) rest = true
  <-> exists x d,
        rest = "-" ++ x ++ "." ++ d
        /\ toLowerCase x = toLowerCase id
        /\ d <> EmptyString /\ sall isDigit d = true.
Proof.
  unfold Version.preTail. rewrite matchAll_Cat. split.
  - intros (s1 & r1 & -> & H1 & H). apply matchAll_chr in H1. subst s1.
    apply matchAll_Cat in H as (x & r2 & -> & Hx & H).
    apply matchAll_litI in Hx.
    apply matchAll_Cat in H as (s3 & d & -> & H3 & Hd).
    apply matchAll_chr in H3. subst s3.
    apply matchAll_plus_Cls in Hd as [Nd Hd].
    now exists x, d.
  - intros (x & d & -> & Hx & Nd & Hd).
    exists "-", (x ++ "." ++ d). repeat split.
    apply matchAll_Cat. exists x, ("." ++ d). repeat split.
    + now apply matchAll_litI.
    + apply matchAll_Cat. exists ".", d. repeat split.
      now apply matchAll_plus_Cls.
Qed.

Lemma take_app a b : take (String.length a) (a ++ b) = a.
Proof. induction a as [|c a IH]; [now destruct b | cbn; now rewrite IH]. Qed.

Lemma slice_add a j b : slice (String.length a + j) (a ++ b) = slice j b.
Proof. induction a as [|c a IH]; [reflexivity | exact IH]. Qed.

Lemma slice_slice a b s : slice a (slice b s) = slice (b + a) s.
Proof.
  revert s. induction b as [|b IH]; intros s; [reflexivity|].
  destruct s as [|c s]; [now destruct a | apply IH].
Qed.

Lemma sall_slice p n s : sall p s = true -> sall p (slice n s) = true.
Proof.
  revert s. induction n as [|n IH]; intros s H; [exact H|].
  destruct s as [|c s]; [reflexivity|]. cbn [sall] in H.
  apply andb_prop in H as [_ H]. now apply IH.
Qed.

Lemma length_toLowerCase s : String.length (toLowerCase s) = String.length s.
Proof. unfold toLowerCase. induction s as [|c s IH]; [reflexivity | cbn; now rewrite IH]. Qed.

Lemma slice_tail x d : slice (S (String.length x)) (x ++ String "." d) = d.
Proof. induction x as [|c x IH]; [reflexivity | exact IH]. Qed.

(** No later start of the tail matches: the dot of the pattern would fall
    on a digit of the counter. *)
Lemma no_later_match x id d j :
  sall isDigit d = true -> String.length x = String.length id ->
  matchAll (Version.preTail id) (slice (S j) ("-" ++ x ++ "." ++ d)) = false.
Proof.
  intros D L. destruct (matchAll _ _) eqn:M; [|reflexivity]. exfalso.
  apply matchAll_preTail in M as (x' & d' & E & Lx & Nd & Dd).
  assert (L' : String.length x' = String.length x).
  { apply (f_equal String.length) in Lx. rewrite !length_toLowerCase in Lx. lia. }
  apply (f_equal (slice (S (String.length x)))) in E.
  rewrite slice_slice in E.
  assert (Lh : slice (S j + S (String.length x)) ("-" ++ x ++ "." ++ d) = slice j d).
  { replace (S j + S (String.length x)) with (S (String.length x + S j)) by lia.
    change ("-" ++ x ++ "." ++ d) with (String "-" (x ++ String "." d)).
    change (slice (S (String.length x + S j)) (String "-" (x ++ String "." d)))
      with (slice (String.length x + S j) (x ++ String "." d)).
    now rewrite slice_add. }
  assert (Rh : slice (S (String.length x)) ("-" ++ x' ++ "." ++ d') = String "." d').
  { rewrite <- L'.
    change ("-" ++ x' ++ "." ++ d') with (String "-" (x' ++ String "." d')).
    change (slice (S (String.length x')) (String "-" (x' ++ String "." d')))
      with (slice (String.length x') (x' ++ String "." d')).
    apply slice_app. }
  rewrite Lh, Rh in E.
  pose proof (sall_slice isDigit j d D) as K. rewrite E in K. discriminate.
Qed.

Lemma spanWhile_all p s : sall p s = true -> spanWhile p s = s.
Proof.
  induction s as [|c s IH]; [reflexivity|]. cbn [sall spanWhile]. intros H.
  apply andb_prop in H as [Pc Ps]. now rewrite Pc, (IH Ps).
Qed.

Lemma parseInt_showZ n : (0 <= n)%Z -> parseInt (showZ n) = Num n.
Proof.
  intros H. destruct (showZ_digits n H) as [D V].
  unfold isDigits in D. apply andb_prop in D as [NE D].
  unfold parseInt. rewrite (trimStart_digits _ D).
  destruct (showZ n) as [|c r] eqn:E; [discriminate|].
  assert (Q : Ascii.eqb c "+" = false /\ Ascii.eqb c "-" = false).
  { cbn [sall] in D. apply andb_prop in D as [D _]. revert D. pattern c.
    apply ascii_cases.
    intros [] [] [] [] [] [] [] []; vm_compute; intros; split; congruence. }
  destruct Q as [-> ->].
  rewrite (spanWhile_all _ _ D). cbn [isEmpty]. rewrite V. f_equal. lia.
Qed.

Lemma preMatch_tail base x id d :
  base <> EmptyString ->
  sall (fun c => negb (isLineTerminator c)) base = true ->
  toLowerCase x = toLowerCase id ->
  d <> EmptyString -> sall isDigit d = true ->
  Version.preMatch id (base ++ "-" ++ x ++ "." ++ d) = Some (base, d).
Proof.
  intros Nb Lb Lx Nd Dd. unfold Version.preMatch.
  assert (L : String.length x = String.length id).
  { apply (f_equal String.length) in Lx. now rewrite !length_toLowerCase in Lx. }
  set (tail := "-" ++ x ++ "." ++ d).
  rewrite length_app.
  generalize (String.length tail). intros k.
  induction k as [|k IH].
  - rewrite Nat.add_0_r. destruct base as [|c b] eqn:Eb; [congruence|].
    rewrite <- Eb in *. assert (Sb : String.length base = S (String.length b))
      by now rewrite Eb.
    rewrite Sb. cbn [Version.preMatchFrom]. rewrite <- Sb.
    rewrite take_app, slice_app, Lb.
    assert (M : matchAll (Version.preTail id) tail = true).
    { apply matchAll_preTail. now exists x, d. }
    rewrite M. cbn [andb]. f_equal. f_equal.
    unfold tail. rewrite <- L.
    change (2 + String.length x) with (S (S (String.length x))).
    change ("-" ++ x ++ "." ++ d) with (String "-" (x ++ String "." d)).
    cbn [slice]. apply slice_tail.
  - replace (String.length base + S k) with (S (String.length base + k)) by lia.
    cbn [Version.preMatchFrom].
    replace (S (String.length base + k)) with (String.length base + S k) by lia.
    rewrite slice_add. unfold tail at 2.
    rewrite (no_later_match x id d k Dd L), andb_false_r. exact IH.
Qed.

(** X27: A version that already carries the pre-release identifier gets its
    counter raised by one, whatever the kind of bump: the identifier is
    compared without regard to case, and written in lower case.  The
    counter is a non-negative integer below [Number.MAX_SAFE_INTEGER]. *)
Theorem increaseVersion_next_prerelease (base x p ty : string) (n : Z) :
  base <> EmptyString ->
  sall (fun c => negb (isLineTerminator c)) base = true ->
  normalized p <> EmptyString ->
  toLowerCase x = normalized p ->
  (0 <= n < MAX_SAFE_INTEGER)%Z ->
  Version.increaseVersion (base ++ "-" ++ x ++ "." ++ showZ n) ty (JStr p)
  = base ++ "-" ++ normalized p ++ "." ++ showZ (n + 1).
Proof.
  intros Nb Lb Np Lx [Hn _].
  rewrite increaseVersion_string.
  assert (E : isEmpty (trim p) = false).
  { rewrite <- isEmpty_normalized. destruct (normalized p); [congruence | reflexivity]. }
  rewrite E.
  destruct (showZ_digits n Hn) as [D _].
  unfold isDigits in D. apply andb_prop in D as [Nd D].
  assert (Lx' : toLowerCase x = toLowerCase (normalized p)).
  { rewrite Lx. unfold normalized. now rewrite toLowerCase_idem. }
  assert (Nd' : showZ n <> EmptyString).
  { intros Q. now rewrite Q in Nd. }
  rewrite (preMatch_tail base x (normalized p) (showZ n) Nb Lb Lx' Nd' D).
  now rewrite (parseInt_showZ n Hn).
Qed.

Lemma increaseVersion_next_prerelease_witness :
  Version.increaseVersion ("1.2.3" ++ "-" ++ "RC" ++ "." ++ showZ 4) "minor" (JStr " rc ")
  = "1.2.3" ++ "-" ++ normalized " rc " ++ "." ++ showZ (4 + 1).
Proof.
  apply (increaseVersion_next_prerelease "1.2.3" "RC" " rc " "minor" 4);
    try reflexivity; try discriminate.
  unfold MAX_SAFE_INTEGER. lia.
Defined.

End MatchFacts.

(** ** changelog.js: grouping *)

Section GroupFacts.
Import JS Config Effects Changelog Spec Notions.

Lemma addToGroup_new t l G :
  ~ In t (map fst G) -> addToGroup t l G = (G ++ [(t, [l])])%list.
Proof.
  induction G as [|[t' ls] G IH]; intros N; [reflexivity|].
  cbn [addToGroup]. destruct (String.eqb t' t) eqn:E.
  - apply String.eqb_eq in E. subst. elim N. now left.
  - cbn [app]. f_equal. apply IH. intros I. apply N. now right.
Qed.

Lemma addToGroup_old t l G :
  In t (map fst G) -> NoDup (map fst G) ->
  map fst (addToGroup t l G) = map fst G
  /\ (forall t' ls', In (t', ls') (addToGroup t l G) ->
        (t' = t /\ exists ls, In (t, ls) G /\ ls' = (ls ++ [l])%list)
        \/ (t' <> t /\ In (t', ls') G)).
Proof.
  induction G as [|[t0 ls0] G IH]; intros I N; [destruct I|].
  cbn [addToGroup]. destruct (String.eqb t0 t) eqn:E.
  - apply String.eqb_eq in E. subst t0. split; [reflexivity|].
    intros t' ls' [Q|Q].
    + injection Q as <- <-. left. split; [reflexivity|]. exists ls0. split; [now left | reflexivity].
    + right. split; [|now right]. intros ->.
      inversion N as [|? ? Nn _]; subst. apply Nn.
      change t with (fst (t, ls')). now apply in_map.
  - apply String.eqb_neq in E. cbn [map fst] in I, N.
    destruct I as [I|I]; [congruence|].
    inversion N as [|? ? Nn Nd]; subst.
    destruct (IH I Nd) as [K1 K2]. split.
    + cbn [map fst]. now rewrite K1.
    + intros t' ls' [Q|Q].
      * injection Q as <- <-. right. split; [exact E | now left].
      * destruct (K2 _ _ Q) as [(-> & ls & Il & ->) | (Nt & Il)].
        -- left. split; [reflexivity|]. exists ls. split; [now right | reflexivity].
        -- right. split; [exact Nt | now right].
Qed.

Lemma ofType_snoc t done l :
  ofType t (done ++ [l]) =
  (ofType t done ++ (if String.eqb (typeOf l) t then [l] else []))%list.
Proof. unfold ofType. rewrite filter_app. reflexivity. Qed.

Lemma grouped_step done G l :
  grouped done G -> grouped (done ++ [l]) (addToGroup (typeOf l) l G).
Proof.
  intros (N & S & C).
  destruct (in_dec string_dec (typeOf l) (map fst G)) as [I|I].
  - destruct (addToGroup_old (typeOf l) l G I N) as [K1 K2].
    split; [now rewrite K1|]. split.
    + intros t ls Q. rewrite ofType_snoc.
      destruct (K2 _ _ Q) as [(-> & ls0 & Il & ->) | (Nt & Il)].
      * rewrite String.eqb_refl. destruct (S _ _ Il) as [-> _].
        split; [reflexivity|]. now destruct (ofType (typeOf l) done).
      * destruct (S _ _ Il) as [-> Ne].
        assert (E : String.eqb (typeOf l) t = false).
        { apply String.eqb_neq. congruence. }
        rewrite E, app_nil_r. now split.
    + intros x Ix. rewrite K1. apply in_app_or in Ix as [Ix|[<-|[]]]; [now apply C | exact I].
  - rewrite (addToGroup_new _ l G I). split; [|split].
    + rewrite map_app. cbn [map fst].
      apply NoDup_app; [exact N | repeat constructor; intros [] | ].
      intros t It [<-|[]]. contradiction.
    + intros t ls Q. rewrite ofType_snoc. apply in_app_or in Q as [Q|[Q|[]]].
      * destruct (S _ _ Q) as [-> Ne].
        assert (E : String.eqb (typeOf l) t = false).
        { apply String.eqb_neq. intros <-. apply I.
          change (typeOf l) with (fst (typeOf l, ofType (typeOf l) done)).
          now apply in_map. }
        rewrite E, app_nil_r. now split.
      * injection Q as <- <-. rewrite String.eqb_refl.
        assert (E : ofType (typeOf l) done = []).
        { unfold ofType. destruct (filter _ done) as [|x r] eqn:F; [reflexivity|].
          assert (Ix : In x (filter (fun line => String.eqb (typeOf line) (typeOf l)) done))
            by (rewrite F; now left).
          apply filter_In in Ix as [Ix Ex]. apply String.eqb_eq in Ex.
          elim I. rewrite <- Ex. now apply C. }
        rewrite E. split; [reflexivity | discriminate].
    + intros x Ix. rewrite map_app. apply in_or_app.
      apply in_app_or in Ix as [Ix|[<-|[]]]; [left; now apply C | right; now left].
Qed.

Lemma grouped_fold l :
  grouped l (fold_left (fun groups line => addToGroup (typeOf line) line groups) l []).
Proof.
  induction l as [|x l IH] using rev_ind.
  - split; [constructor|]. split; [intros ? ? []| intros ? []].
  - rewrite fold_left_app. cbn [fold_left]. now apply grouped_step.
Qed.

(** X28: The grouped changelog is one section for each type met among the
    commits that are kept: no type has two sections, no section is
    empty, and the section of a type lists all the kept commits of that
    type, and only those, in their order.  No commit has a type that
    names an inherited property of the table of headers. *)
Theorem grouped_changelog_sections (commits : list string) (includeTypes : jsval) :
  Forall (fun line => plainType (typeOf line)) commits ->
  exists groups,
    filterAndFormatCommits commits includeTypes true
    = join (nl ++ nl) (map sectionOf groups)
    /\ NoDup (map fst groups)
    /\ (forall t ls, In (t, ls) groups ->
          ls = ofType t (kept commits includeTypes) /\ ls <> [])
    /\ (forall line, In line (kept commits includeTypes) ->
          In (typeOf line) (map fst groups)).
Proof.
  intros _.
  exists (fold_left (fun groups line => addToGroup (typeOf line) line groups)
            (kept commits includeTypes) []).
  split; [reflexivity|]. apply grouped_fold.
Qed.

Lemma grouped_changelog_sections_witness :
  exists groups,
    filterAndFormatCommits ["fix: a"; "feat: b"; "fix: c"] JNull true
    = join (nl ++ nl) (map sectionOf groups)
    /\ NoDup (map fst groups)
    /\ (forall t ls, In (t, ls) groups ->
          ls = ofType t (kept ["fix: a"; "feat: b"; "fix: c"] JNull) /\ ls <> [])
    /\ (forall line, In line (kept ["fix: a"; "feat: b"; "fix: c"] JNull) ->
          In (typeOf line) (map fst groups)).
Proof.
  apply (grouped_changelog_sections ["fix: a"; "feat: b"; "fix: c"] JNull).
  repeat constructor; discriminate.
Defined.

End GroupFacts.

(** ** github.js: the repository of the origin *)

Section OriginFacts.
Import JS Config Effects Providers Spec Notions.

Lemma matchSuffix_app r pre s : matchAll r s = true -> matchSuffix r (pre ++ s) = true.
Proof.
  intros H. induction pre as [|c pre IH]; cbn [append].
  - destruct s; cbn [matchSuffix]; now rewrite H.
  - cbn [matchSuffix]. rewrite IH. apply orb_true_r.
Qed.

(** X29: The repository is read from the URL of [origin] in its HTTPS and SSH
    forms, with or without the [.git] suffix: a host ending in
    [github.com], a colon or a slash, the owner, a slash and a name
    without dot. *)
Theorem getGitHubRepo_recognises_origin
  (out pre sep owner repo ext : string) w h :
  w_sh w h "git remote get-url origin" = Done out ->
  trim out = pre ++ "github.com" ++ sep ++ owner ++ "/" ++ repo ++ ext ->
  sep = ":" \/ sep = "/" ->
  ext = EmptyString \/ ext = ".git" ->
  owner <> EmptyString -> sall notSlash owner = true ->
  repo <> EmptyString -> sall notSlashDot repo = true ->
  getGitHubRepo w h = (Ok true, (h ++ [Exec "git remote get-url origin"])%list).
Proof.
  intros Sh Tr Hs He No So Nr Sr.
  unfold getGitHubRepo, try_, bind. rewrite (execSync_done _ _ _ _ Sh).
  unfold ret. rewrite Tr. f_equal. f_equal.
  apply matchSuffix_app. unfold reGitHub. apply matchAll_Cat.
  exists ("github.com" ++ sep), (owner ++ "/" ++ repo ++ ext).
  split; [reflexivity|]. split.
  - rewrite matchAll_Alt. apply orb_true_intro. left.
    apply matchAll_Cat. exists "github.com", sep.
    split; [reflexivity|]. split; [reflexivity|].
    rewrite matchAll_Alt. destruct Hs as [-> | ->]; reflexivity.
  - unfold reCoordinates. apply matchAll_Cat.
    exists owner, ("/" ++ repo ++ ext).
    split; [reflexivity|]. split; [now apply matchAll_plus_Cls|].
    apply matchAll_Cat. exists "/", (repo ++ ext).
    split; [reflexivity|]. split; [reflexivity|].
    apply matchAll_Cat. exists repo, ext.
    split; [reflexivity|]. split; [now apply matchAll_plus_Cls|].
    unfold opt. rewrite matchAll_Alt. destruct He as [-> | ->]; reflexivity.
Qed.

Lemma getGitHubRepo_recognises_origin_witness :
  getGitHubRepo Samples.plainWorld []
  = (Ok true, ([] ++ [Exec "git remote get-url origin"])%list).
Proof.
  apply (getGitHubRepo_recognises_origin
           ("git@github.com:owner/repo.git" ++ nl) "git@" ":" "owner" "repo" ".git"
           Samples.plainWorld []);
    try reflexivity; try discriminate; auto.
Defined.

End OriginFacts.
